(** * SFF: embedded projective varieties and rational maps

    A shallow embedding of [sff.py].  The module delegates all polynomial
    algebra to Sage (ideal membership, sums, intersections, saturations,
    minimal bases, dimensions) and, for a few operations, to Macaulay2.
    Those collaborators are not part of the module: they appear here as the
    operations of the class [Backend], and what is assumed of them is
    collected in [BackendLaws].  Everything the module itself does (the
    control flow of its methods, its caches, its flags, its exceptions) is
    transcribed from the source. *)

From stdpp Require Import base decidable option list gmap sets strings pretty.
From Stdlib Require Import ZArith Lia QArith.

Local Open Scope Z_scope.

(** ** Python exceptions and the world state *)

Inductive exn :=
  | TypeError (msg : string)
  | ValueError (msg : string)
  | NotImplementedError (msg : string)
  | AssertionError
  | RecursionError
  | Exception (msg : string).

(** [str(err)], as used by [raise Exception(err)] *)
Definition exn_message (e : exn) : string :=
  match e with
  | TypeError m | ValueError m | NotImplementedError m | Exception m => m
  | AssertionError | RecursionError => ""
  end.

Inductive result (A : Type) :=
  | Ok (a : A)
  | Raise (e : exn).
Arguments Ok {A} a.
Arguments Raise {A} e.

(** Identity of Python objects ([is]).  Objects built by a constructor call
    take a number from the allocation counter; the object cached in
    [X._ambient] by [ambient()] is a private object of [X], named after it. *)
Inductive oid :=
  | Fresh (n : nat)
  | AmbientOf (o : oid).

Fixpoint oid_eqb (a b : oid) : bool :=
  match a, b with
  | Fresh n, Fresh m => Nat.eqb n m
  | AmbientOf a', AmbientOf b' => oid_eqb a' b'
  | _, _ => false
  end.

(** Every allocated identity is built on a counter value. *)
Fixpoint oid_base (a : oid) : nat :=
  match a with
  | Fresh n => n
  | AmbientOf a' => oid_base a'
  end.

(** The number of [AmbientOf] an identity is wrapped in. *)
Fixpoint oid_depth (a : oid) : nat :=
  match a with
  | Fresh _ => O
  | AmbientOf a' => S (oid_depth a')
  end.

(** The world threaded through the methods: the allocation counter and the
    position in the stream of random draws. *)
Record world := World { next_id : nat; rng_pos : nat }.

(** Methods are state transformers that return a value or raise; what a
    method did to the state before raising stays done. *)
Definition ST (S A : Type) : Type := S -> result A * S.

Definition ret {S A} (a : A) : ST S A := fun w => (Ok a, w).
Definition raise {S A} (e : exn) : ST S A := fun w => (Raise e, w).
Definition bind {S A B} (m : ST S A) (k : A -> ST S B) : ST S B :=
  fun w => match m w with
           | (Ok a, w') => k a w'
           | (Raise e, w') => (Raise e, w')
           end.

Notation "x <- m ;; k" := (bind m (fun x => k))
  (at level 100, m at next level, right associativity).

Abbreviation M := (ST world).

Definition of_result {S A} (r : result A) : ST S A := fun w => (r, w).

(** [assert(b)] *)
Definition assert {S} (b : bool) : ST S unit :=
  if b then ret tt else raise AssertionError.

Definition alloc : M oid :=
  fun w => (Ok (Fresh (next_id w)), World (S (next_id w)) (rng_pos w)).

(** One draw from the random stream: the draw is named by its position. *)
Definition draw : M nat :=
  fun w => (Ok (rng_pos w), World (next_id w) (S (rng_pos w))).

Fixpoint draws (n : nat) : M (list nat) :=
  match n with
  | O => ret []
  | S k => s <- draw ;; l <- draws k ;; ret (s :: l)
  end.

(** ** The polynomial backend (Sage) *)

Class Backend := {
  (** [ProjectiveSpace] objects; they are unique, so equality is [is]. *)
  space : Type;
  space_eqb : space -> space -> bool;
  space_dimension : space -> Z;
  base_ring_in_fields : space -> bool;
  (** homogeneous polynomials and field elements *)
  poly : Type;
  coef : Type;
  pzero : poly;
  pone : poly;
  poly_degree : poly -> Z;
  (** [g in I], for the ideal [I] of the coordinate ring generated by a list *)
  ideal_mem : space -> poly -> list poly -> bool;
  (** [I + J], [I.intersection(J)], [I.saturation(J)[0]] *)
  ideal_sum : space -> list poly -> list poly -> list poly;
  ideal_intersection : space -> list poly -> list poly -> list poly;
  ideal_saturation : space -> list poly -> list poly -> list poly;
  irrelevant_ideal : space -> list poly;
  (** Singular's [minbase] *)
  _minbase : space -> list poly -> list poly;
  (** [AlgebraicScheme_subscheme_projective.dimension] *)
  scheme_dimension : space -> list poly -> Z;
  (** the generators of [g * ideal(R.gens()) ** k] *)
  monomial_multiples : space -> poly -> Z -> list poly;
  (** [K.random_element()] at a position of the random stream *)
  random_element : space -> nat -> coef;
  (** [sum([c * g ...])] *)
  linear_combination : space -> list coef -> list poly -> poly;
  (** what the constructor of a rational map asks of Sage: identity of base
      rings, the number of generators of the ring the forms live in, the
      renaming of the forms into the coordinate ring of the source, the
      validation done by [SchemeMorphism_polynomial_projective_space.__init__]
      ([None] when it accepts), zero test and degree of a form *)
  base_ring_is : space -> space -> bool;
  polys_ring_ngens : list poly -> Z;
  subs_into : space -> list poly -> list poly;
  scheme_morphism_init : space -> space -> list poly -> option exn;
  poly_is_zero : poly -> bool;
  form_degree : poly -> Z;
  (** the forms of Sage's composition [f * self], which raises when the
      maps do not compose *)
  composition_polys : list poly -> list poly -> result (list poly);
}.

(** ** Embedded projective varieties *)

Section Variety.
Context `{B : Backend}.

Record Embedded_projective_variety := Variety {
  vid : oid;
  ambient_space : space;
  defining_polynomials : list poly;
  _dimension : option Z;
  _codimension : option Z;
  _homogeneous_components_ideal : gmap Z (list poly);
}.

Definition set_dimension (X : Embedded_projective_variety) (d : Z) :=
  Variety (vid X) (ambient_space X) (defining_polynomials X)
          (Some d) (_codimension X) (_homogeneous_components_ideal X).

Definition set_codimension (X : Embedded_projective_variety) (c : Z) :=
  Variety (vid X) (ambient_space X) (defining_polynomials X)
          (_dimension X) (Some c) (_homogeneous_components_ideal X).

Definition set_homogeneous_components_ideal
    (X : Embedded_projective_variety) (m : gmap Z (list poly)) :=
  Variety (vid X) (ambient_space X) (defining_polynomials X)
          (_dimension X) (_codimension X) m.

(** [Embedded_projective_variety.__init__(PP, polys)] for an ambient
    projective space [PP]: both branches in which [PP.ambient_space() is PP]
    store [polys]; the dictionary of homogeneous components starts empty. *)
Definition __init__ (PP : space) (polys : list poly)
  : M Embedded_projective_variety :=
  if negb (base_ring_in_fields PP)
  then raise (ValueError "base ring must be a field")
  else o <- alloc ;; ret (Variety o PP polys None None ∅).

(** The generators of [X.defining_ideal()]: Sage's zero ideal is
    generated by [0]. *)
Definition defining_ideal (X : Embedded_projective_variety) : list poly :=
  match defining_polynomials X with
  | [] => [pzero]
  | ps => ps
  end.

(** [dimension()]: the value and the object with its cache filled. *)
Definition dimension (X : Embedded_projective_variety)
  : Z * Embedded_projective_variety :=
  match _dimension X with
  | Some d => (d, X)
  | None =>
      let d := Z.max (scheme_dimension (ambient_space X)
                                       (defining_ideal X)) (-1) in
      (d, set_dimension X d)
  end.

Definition codimension (X : Embedded_projective_variety)
  : Z * Embedded_projective_variety :=
  match _codimension X with
  | Some c => (c, X)
  | None =>
      let '(d, X1) := dimension X in
      let c := space_dimension (ambient_space X) - d in
      (c, set_codimension X1 c)
  end.

Definition dim (X : Embedded_projective_variety) : Z := fst (dimension X).
Definition codim (X : Embedded_projective_variety) : Z := fst (codimension X).

(** [ambient()]: the variety itself when it has codimension 0, else the
    whole space as an object of its own, cached in [X._ambient]. *)
Definition ambient (X : Embedded_projective_variety)
  : Embedded_projective_variety :=
  if codim X =? 0 then X
  else Variety (AmbientOf (vid X)) (ambient_space X) [] None None ∅.

Definition empty (X : Embedded_projective_variety)
  : M Embedded_projective_variety :=
  __init__ (ambient_space X) [pone].

Definition degrees_generators (X : Embedded_projective_variety) : list Z :=
  map poly_degree (defining_polynomials X).

Definition is_subset (X Y : Embedded_projective_variety) : bool :=
  if oid_eqb (vid X) (vid Y) then true
  else
    let I := defining_ideal X in
    let J := defining_ideal Y in
    if negb (space_eqb (ambient_space X) (ambient_space Y)) then false
    else forallb (fun g => ideal_mem (ambient_space X) g I) J.

Definition __eq__ (X Y : Embedded_projective_variety) : bool :=
  if negb (is_subset X Y) then false else is_subset Y X.

Definition __ne__ (X Y : Embedded_projective_variety) : bool :=
  negb (__eq__ X Y).

Definition intersection (X other : Embedded_projective_variety)
  : M Embedded_projective_variety :=
  if __ne__ (ambient X) (ambient other)
  then raise (ValueError
         "expected varieties in the same ambient projective space")
  else
    let R := ambient_space X in
    let I := ideal_sum R (defining_ideal X) (defining_ideal other) in
    let I := ideal_saturation R I (irrelevant_ideal R) in
    __init__ R (_minbase R I).

Definition union (X other : Embedded_projective_variety)
  : M Embedded_projective_variety :=
  if __ne__ (ambient X) (ambient other)
  then raise (ValueError
         "expected varieties in the same ambient projective space")
  else
    let R := ambient_space X in
    let I := ideal_intersection R (defining_ideal X) (defining_ideal other) in
    __init__ R (_minbase R I).

(** [_homogeneous_component(n, trim)]: the basis and the object with its
    dictionary updated. *)
Definition _homogeneous_component (X : Embedded_projective_variety)
    (n : Z) (trim : bool) : list poly * Embedded_projective_variety :=
  match _homogeneous_components_ideal X !! n with
  | Some Bs => (Bs, X)
  | None =>
      let R := ambient_space X in
      let Bs := flat_map
                  (fun g => if poly_degree g <=? n
                            then monomial_multiples R g (n - poly_degree g)
                            else [])
                  (defining_ideal X) in
      let Bs := if (0 <? Z.of_nat (length Bs)) && trim
                then _minbase R Bs else Bs in
      (Bs, if trim
           then set_homogeneous_components_ideal X
                  (<[n := Bs]> (_homogeneous_components_ideal X))
           else X)
  end.

(** [args.count(i)] *)
Definition count (i : Z) (args : list Z) : nat :=
  length (filter (fun j => j = i) args).

(** One random linear combination of [B]: one draw per element. *)
Definition random_combination (R : space) (Bs : list poly) : M poly :=
  ss <- draws (length Bs) ;;
  ret (linear_combination R (map (random_element R) ss) Bs).

Fixpoint random_combinations (R : space) (Bs : list poly) (k : nat)
  : M (list poly) :=
  match k with
  | O => ret []
  | S k' => p <- random_combination R Bs ;;
            l <- random_combinations R Bs k' ;;
            ret (p :: l)
  end.

(** The loop of [random] over [set(args)], which extends [L]. *)
Fixpoint random_loop (X : Embedded_projective_variety) (args : list Z)
    (degs : list Z) (L : list poly) : M (list poly) :=
  match degs with
  | [] => ret L
  | i :: degs' =>
      let Bs := fst (_homogeneous_component X i false) in
      l <- random_combinations (ambient_space X) Bs (count i args) ;;
      random_loop X args degs' (L ++ l)
  end.

(** The complete intersection drawn by [random], before its codimension
    is looked at.  [set(args)] is enumerated without repetition. *)
Definition random_cut (X : Embedded_projective_variety) (args : list Z)
  : M Embedded_projective_variety :=
  L <- random_loop X args (remove_dups args) [] ;;
  __init__ (ambient_space X) L.

Definition random (X : Embedded_projective_variety) (args : list Z)
  : M Embedded_projective_variety :=
  if (Z.of_nat (length args) =? 0) then ret (ambient X)
  else if negb (forallb (fun i => 0 <? i) args)
  then raise (TypeError "expected a tuple of positive integers")
  else if codim X =? 0
  then raise (ValueError "no hypersurface contains the ambient space")
  else if codim X <? Z.of_nat (length args)
  then raise (ValueError "too many degrees are given")
  else
    Y <- random_cut X args ;;
    let '(c, Y') := codimension Y in
    if negb (c =? Z.of_nat (length args))
    then raise (Exception
      "unable to construct complete intersection containing the variety, maybe too many degrees are given")
    else ret Y'.

End Variety.

(** ** Rational maps between embedded projective varieties *)

Section Rational_map.
Context `{B : Backend}.

(** The attributes of a rational map the methods below read or write.
    Maps live in a store and refer to each other by address. *)
Record Rational_map_between_embedded_projective_varieties := Rational_map {
  _source : Embedded_projective_variety;
  _target : Embedded_projective_variety;
  map_polys : list poly;
  __degree_Forms : Z;
  _is_isomorphism : option bool;
  _is_birational : option bool;
  _is_dominant : option bool;
  _is_morphism : option bool;
  _inverse_rational_map : option nat;
}.

Definition set_is_isomorphism f v :=
  Rational_map (_source f) (_target f) (map_polys f) (__degree_Forms f)
    v (_is_birational f) (_is_dominant f) (_is_morphism f)
    (_inverse_rational_map f).
Definition set_is_birational f v :=
  Rational_map (_source f) (_target f) (map_polys f) (__degree_Forms f)
    (_is_isomorphism f) v (_is_dominant f) (_is_morphism f)
    (_inverse_rational_map f).
Definition set_is_dominant f v :=
  Rational_map (_source f) (_target f) (map_polys f) (__degree_Forms f)
    (_is_isomorphism f) (_is_birational f) v (_is_morphism f)
    (_inverse_rational_map f).
Definition set_is_morphism f v :=
  Rational_map (_source f) (_target f) (map_polys f) (__degree_Forms f)
    (_is_isomorphism f) (_is_birational f) (_is_dominant f) v
    (_inverse_rational_map f).
Definition set_inverse_rational_map f v :=
  Rational_map (_source f) (_target f) (map_polys f) (__degree_Forms f)
    (_is_isomorphism f) (_is_birational f) (_is_dominant f) (_is_morphism f)
    v.

Record store := Store {
  st_world : world;
  st_maps : gmap nat Rational_map_between_embedded_projective_varieties;
}.

Abbreviation H := (ST store).

(** A variety-level method run inside the store. *)
Definition lift {A} (m : M A) : H A :=
  fun s => let '(r, w) := m (st_world s) in (r, Store w (st_maps s)).

(** Reading and writing an attribute of the object at an address. *)
Definition the_map (l : nat)
  : H Rational_map_between_embedded_projective_varieties :=
  fun s => match st_maps s !! l with
           | Some f => (Ok f, s)
           | None => (Raise (Exception "no object at this address"), s)
           end.

Definition put_map (l : nat)
    (f : Rational_map_between_embedded_projective_varieties) : H unit :=
  fun s => (Ok tt, Store (st_world s) (<[l := f]> (st_maps s))).

Definition new_map (f : Rational_map_between_embedded_projective_varieties)
  : H nat :=
  fun s =>
    let l := next_id (st_world s) in
    (Ok l, Store (World (S l) (rng_pos (st_world s)))
                 (<[l := f]> (st_maps s))).

(** [max(degs)] and [min(degs)] of a non-empty list *)
Definition list_max (d : Z) (ds : list Z) : Z := foldr Z.max d ds.
Definition list_min (d : Z) (ds : list Z) : Z := foldr Z.min d ds.

(** [Rational_map_between_embedded_projective_varieties.__init__(X, Y,
    polys)] with a target [Y] given, as every caller below gives one. *)
Definition Rational_map__init__ (X Y : Embedded_projective_variety)
    (polys : list poly) : H nat :=
  if negb (base_ring_is (ambient_space X) (ambient_space Y))
  then raise (ValueError "different base rings found")
  else if negb (Z.of_nat (length polys) =? dim (ambient Y) + 1)
  then raise (ValueError "got wrong number of polynomials")
  else if negb (polys_ring_ngens polys
                =? space_dimension (ambient_space (ambient X)) + 1)
  then raise (ValueError
         "expected polynomials in the coordinate ring of the source")
  else
    let polys := subs_into (ambient_space X) polys in
    match scheme_morphism_init (ambient_space X) (ambient_space Y) polys with
    | Some e => raise e
    | None =>
        let degs := map form_degree
                        (filter (fun pol => poly_is_zero pol = false) polys) in
        match degs with
        | [] => raise (ValueError "max() arg is an empty sequence")
        | d :: ds =>
            if negb (list_max d ds =? list_min d ds)
            then raise AssertionError
            else
              new_map (Rational_map X Y polys (list_max d ds)
                         None None
                         (if dim Y <? 0 then Some true else None)
                         None None)
        end
    end.

(** What [compose] may be given: a map of this class, or a morphism of
    Sage's own class with its codomain and forms. *)
Inductive morphism :=
  | Rat (l : nat)
  | BuiltIn (codomain : space) (codomain_polys : list poly)
            (polys : list poly).

Definition is_true (o : option bool) : bool :=
  match o with Some true => true | _ => false end.
Definition is_false (o : option bool) : bool :=
  match o with Some false => true | _ => false end.
Definition is_none (o : option bool) : bool :=
  match o with None => true | _ => false end.

(** [compose(f)] on the map at address [self].  Sage's composition
    [f * self] comes first and may raise; that its domain and codomain are
    those of [self] and [f], which the source asserts next, is a property
    of Sage's composition. *)
Definition compose (self : nat) (f : morphism) : H nat :=
  s <- the_map self ;;
  match f with
  | Rat fl =>
      ff <- the_map fl ;;
      match composition_polys (map_polys ff) (map_polys s) with
      | Raise e => raise e
      | Ok gpolys =>
          let Y := _target ff in
          g <- Rational_map__init__ (_source s) Y gpolys ;;
          gm <- the_map g ;;
          let gm := if is_true (_is_isomorphism s) && is_true (_is_isomorphism ff)
                    then set_is_isomorphism gm (Some true) else gm in
          let gm := if is_true (_is_birational s) && is_true (_is_birational ff)
                    then set_is_birational gm (Some true) else gm in
          let gm := if is_true (_is_dominant s) && is_true (_is_dominant ff)
                    then set_is_dominant gm (Some true) else gm in
          let gm := if is_true (_is_morphism s) && is_true (_is_morphism ff)
                    then set_is_morphism gm (Some true) else gm in
          _ <- put_map g gm ;;
          ret g
      end
  | BuiltIn cod cod_polys fpolys =>
      match composition_polys fpolys (map_polys s) with
      | Raise e => raise e
      | Ok gpolys =>
          Y <- lift (__init__ cod cod_polys) ;;
          Rational_map__init__ (_source s) Y gpolys
      end
  end.

(** A map handed back by Macaulay2: either it is already tied to an object
    of the store ([f._sage_object]), or it comes as forms, with the values
    Macaulay2 holds for [isDominant] and [isBirational] ([None] for
    [null]). *)
Inductive macaulay2_map :=
  | M2_known (l : nat)
  | M2_forms (polys : list poly) (isDominant isBirational : option bool).

(** [_from_macaulay2map_to_sagemap(f, Sage_Source, Sage_Target)] with both
    varieties given; the image and the representatives Macaulay2 may hold
    are attributes outside the record above. *)
Definition _from_macaulay2map_to_sagemap (f : macaulay2_map)
    (Sage_Source Sage_Target : Embedded_projective_variety) : H nat :=
  match f with
  | M2_known l => ret l
  | M2_forms polys isDominant isBirational =>
      l <- Rational_map__init__ Sage_Source Sage_Target polys ;;
      m <- the_map l ;;
      let m := match isDominant with
               | Some b => set_is_dominant m (Some b)
               | None => m
               end in
      let m := match isBirational with
               | Some b => set_is_birational m (Some b)
               | None => m
               end in
      _ <- put_map l m ;;
      ret l
  end.

(** What one call of [inverse] gets from outside: the answer of
    Macaulay2's [inverse], the two sampled points, and the values of the
    two round-trip comparisons [g(self(p)) == p] and [self(g(q)) == q]. *)
Record inverse_oracle := Inverse_oracle {
  m2_inverse : result macaulay2_map;
  point_on_source : result Embedded_projective_variety;
  round_trip_source : result bool;
  point_on_target : result Embedded_projective_variety;
  round_trip_target : result bool;
}.

Definition inverse (env : inverse_oracle) (self : nat) (check : bool)
    (algorithm : string) : H nat :=
  s <- the_map self ;;
  match _inverse_rational_map s with
  | Some g => ret g
  | None =>
      let s := if is_none (_is_birational s)
                  && negb (dim (_source s) =? dim (_target s))
               then set_is_birational s (Some false) else s in
      _ <- put_map self s ;;
      if is_false (_is_birational s) || is_false (_is_dominant s)
      then raise (ValueError "the rational map is not birational")
      else if negb (String.eqb algorithm "macaulay2")
      then raise (NotImplementedError
             "inverse of a birational map using built-in functions")
      else
        match m2_inverse env with
        | Raise err => raise (Exception (exn_message err))
        | Ok g2 =>
            g <- _from_macaulay2map_to_sagemap g2 (_target s) (_source s) ;;
            gm <- the_map g ;;
            _ <- assert (oid_eqb (vid (_source gm)) (vid (_target s))
                         && oid_eqb (vid (_target gm)) (vid (_source s))) ;;
            if check then
              p <- of_result (point_on_source env) ;;
              b <- of_result (round_trip_source env) ;;
              _ <- assert b ;;
              q <- of_result (point_on_target env) ;;
              b <- of_result (round_trip_target env) ;;
              _ <- assert b ;;
              s <- the_map self ;;
              _ <- put_map self (set_is_birational s (Some true)) ;;
              gm <- the_map g ;;
              _ <- assert (is_true (_is_birational gm)) ;;
              _ <- put_map g (set_inverse_rational_map gm (Some self)) ;;
              s <- the_map self ;;
              _ <- put_map self (set_inverse_rational_map s (Some g)) ;;
              ret g
            else ret g
        end
  end.

(** The address the next constructor call takes is not in use. *)
Definition next_free (s : store) : Prop :=
  st_maps s !! next_id (st_world s) = None.

(** [True] when both flags are [True], else the unknown [None]. *)
Definition both_true (a b : option bool) : option bool :=
  if is_true a && is_true b then Some true else None.

End Rational_map.

(** ** Projective degrees *)

(** [projective_degrees] is written against what it calls on a map: the
    dimension and degree of the source, [_0th_projective_degree] and
    [_restriction_to_general_hyperplane].  The state is the attribute
    [_projective_degrees_list] of [self], absent until the first call. *)
Section Projective_degrees.
Context {T : Type}.
Variable source_dimension : T -> Z.
Variable source_degree : T -> Z.
Variable _0th_projective_degree : T -> M Z.
Variable _restriction_to_general_hyperplane : T -> M T.

Record pd_state := Pd_state {
  _projective_degrees_list : option (list Z);
  pd_world : world;
}.

Definition pd_lift {A} (m : M A) : ST pd_state A :=
  fun s => let '(r, w) := m (pd_world s) in
           (r, Pd_state (_projective_degrees_list s) w).

Definition pd_assign (l : list Z) : ST pd_state unit :=
  fun s => (Ok tt, Pd_state (Some l) (pd_world s)).

(** [self._projective_degrees_list.append(d)] *)
Definition pd_append (d : Z) : ST pd_state unit :=
  fun s => (Ok tt, Pd_state (Some (default [] (_projective_degrees_list s)
                                   ++ [d])) (pd_world s)).

(** [self._projective_degrees_list.reverse()] *)
Definition pd_reverse : ST pd_state unit :=
  fun s => (Ok tt, Pd_state (Some (rev (default []
                                   (_projective_degrees_list s))))
                            (pd_world s)).

Definition pd_read : ST pd_state (list Z) :=
  fun s => (Ok (default [] (_projective_degrees_list s)), s).

Fixpoint projective_degrees_loop (n : nat) (psi : T) : ST pd_state unit :=
  match n with
  | O => ret tt
  | S k =>
      d <- pd_lift (_0th_projective_degree psi) ;;
      _ <- pd_append d ;;
      psi' <- pd_lift (_restriction_to_general_hyperplane psi) ;;
      projective_degrees_loop k psi'
  end.

Definition projective_degrees (self : T) : ST pd_state (list Z) :=
  fun s =>
    match _projective_degrees_list s with
    | Some l => (Ok l, s)
    | None =>
        (_ <- pd_assign [] ;;
         _ <- projective_degrees_loop (Z.to_nat (source_dimension self)) self ;;
         _ <- pd_append (source_degree self) ;;
         _ <- pd_reverse ;;
         pd_read) s
    end.

End Projective_degrees.

(** ** Point sampling *)

(** [_raw_point] is written against the operations of a variety it calls.
    A random hyperplane section is one draw from the random stream:
    [hyperplane_section_at s X] is the section cut by the hyperplane of
    draw [s] (or the exception [random(1)] raises for it). *)
Section Raw_point.
Context {V : Type}.
Variable dimension_of : V -> Z.
Variable codimension_of : V -> Z.
Variable hyperplane_section_at : nat -> V -> result V.
(** [X.embedding_as_hyperplane_section()(q)] *)
Variable embedding_as_hyperplane_section : V -> V -> result V.
Variable irreducible_components : V -> list V.
Variable _is_point : V -> bool.
(** [self.empty().random(1, ..., 1)], as many ones as the dimension *)
Variable random_linear_section : V -> M V.
(** the projection [h] from random linear forms: its image, and the
    inverse image of a point of the image *)
Variable projection_image : V -> M V.
Variable projection_inverse_image : V -> V -> result V.

(** [hyperplane_section(cache=False)] *)
Definition hyperplane_section (X : V) : M V :=
  s <- draw ;; of_result (hyperplane_section_at s X).

(** The loop [for i in range(n): ... else: raise] of [_raw_point]. *)
Fixpoint _raw_point_attempts (n : nat) (self : V) : M V :=
  match n with
  | O => raise (Exception
      "function _raw_point() failed: reached maximum number of 10 attempts to find rational point")
  | S k =>
      X <- hyperplane_section self ;;
      let L := filter (fun q => _is_point q = true)
                      (irreducible_components X) in
      match L with
      | [] => _raw_point_attempts k self
      | q :: _ =>
          p <- of_result (embedding_as_hyperplane_section X q) ;;
          _ <- assert (_is_point p) ;;
          ret p
      end
  end.

(** [_raw_point]; [depth] is the recursion depth Python still allows. *)
Fixpoint _raw_point (depth : nat) (self : V) : M V :=
  match depth with
  | O => raise RecursionError
  | S depth' =>
      if dimension_of self <=? 0
      then raise (ValueError "expected a positive-dimensional scheme")
      else if 1 <? dimension_of self then
        X <- hyperplane_section self ;;
        q <- _raw_point depth' X ;;
        p <- of_result (embedding_as_hyperplane_section X q) ;;
        _ <- assert (_is_point p) ;;
        ret p
      else
        _ <- (if codimension_of self =? 0
              then (_ <- random_linear_section self ;; ret tt)
              else ret tt) ;;
        if 1 <? codimension_of self then
          Y <- projection_image self ;;
          q <- _raw_point depth' Y ;;
          p <- of_result (projection_inverse_image self q) ;;
          _ <- assert (_is_point p) ;;
          ret p
        else _raw_point_attempts 10 self
  end.

(** the components of a hyperplane section that are points *)
Definition points_of (X : V) : list V :=
  filter (fun q => _is_point q = true) (irreducible_components X).

(** The hyperplane of draw [s] cuts a section with no point among its
    components. *)
Definition no_point_at (self : V) (s : nat) : Prop :=
  exists X, hyperplane_section_at s self = Ok X /\ points_of X = [].

(** What the attempt made with draw [s] decides, when it decides. *)
Definition decided_at (self : V) (s : nat) (r : result V) : Prop :=
  (exists e, hyperplane_section_at s self = Raise e /\ r = Raise e)
  \/ exists X q rest,
       hyperplane_section_at s self = Ok X
       /\ points_of X = q :: rest
       /\ ((exists e, embedding_as_hyperplane_section X q = Raise e
                      /\ r = Raise e)
           \/ exists p, embedding_as_hyperplane_section X q = Ok p
                        /\ r = if _is_point p then Ok p
                               else Raise AssertionError).

Definition failure : exn :=
  Exception
    "function _raw_point() failed: reached maximum number of 10 attempts to find rational point".

End Raw_point.

(** ** Congruences of secant curves *)

(** What [function_congruence] learns from the algebra about one point
    [p]: whether [p] is a point of the ambient fivefold, and, for each line
    of the partial decomposition [D] of the cone of lines, the curve it
    pulls back to, with [dim_and_degree] of the curve and of its
    intersection with the surface, and whether it passes through [p]. *)
Record curve := Curve {
  curve_dimension : Z;
  curve_degree : Z;
  meet_dimension : Z;
  meet_degree : Z;
  through_point : bool;
}.

Record trial := Trial {
  point_on_fivefold : bool;
  curves_of_lines : result (list curve);
}.

Section Congruence.
(** [self._degree_as_hypersurface] *)
Variable _degree_as_hypersurface : Z.
(** the successive results of [self.ambient_fivefold().point(...)], each
    with what the algebra computes from it *)
Variable sampled : nat -> result trial.

(** The state: the attribute
    [_possible_degrees_for_curves_of_congruence] of the fourfold, absent
    until assigned, and the number of points sampled so far. *)
Record cstate := Cstate {
  _possible_degrees_for_curves_of_congruence : option (gset Z);
  points_sampled : nat;
}.

Definition set_possible (d : gset Z) : ST cstate unit :=
  fun s => (Ok tt, Cstate (Some d) (points_sampled s)).

Definition get_possible : ST cstate (option (gset Z)) :=
  fun s => (Ok (_possible_degrees_for_curves_of_congruence s), s).

(** [self.ambient_fivefold().point(...)] *)
Definition point : ST cstate trial :=
  fun s => (sampled (points_sampled s),
            Cstate (_possible_degrees_for_curves_of_congruence s)
                   (S (points_sampled s))).

Definition dim_and_degree_is (C : curve) (d : Z) : bool :=
  (curve_dimension C =? 1) && (curve_degree C =? d)
  && (meet_dimension C =? 0)
  && (meet_degree C =? d * _degree_as_hypersurface - 1).

(** The loop over [degs] that fills [W]. *)
Fixpoint select (curves : list curve) (degs : list Z) (W : list curve)
  : list curve :=
  match degs with
  | [] => W
  | d :: degs' =>
      let E := filter (fun C => dim_and_degree_is C d = true) curves in
      select curves degs' (if Nat.eqb (length E) 1 then W ++ E else W)
  end.

Definition degrees_of (W : list curve) : gset Z :=
  list_to_set (map curve_degree W).

Definition is_empty_set (d : gset Z) : bool := bool_decide (d = ∅).

(** [function_congruence(p, degree)]; [depth] is the recursion depth
    Python still allows. *)
Fixpoint function_congruence (depth : nat) (p : trial) (degree : option Z)
  : ST cstate curve :=
  match depth with
  | O => raise RecursionError
  | S depth' =>
      possible <- get_possible ;;
      if match degree, possible with
         | None, Some d => is_empty_set d
         | _, _ => false
         end
      then raise (Exception
             "function 'congruence' failed (with previous runs)")
      else if negb (point_on_fivefold p)
      then raise (Exception "expected a point on the ambient fivefold")
      else
        curves <- of_result (curves_of_lines p) ;;
        _ <- (if Nat.eqb (length curves) 0
              then (_ <- set_possible ∅ ;;
                    raise (Exception "function 'congruence' failed"))
              else ret tt) ;;
        let degs := match degree with
                    | None => map curve_degree curves
                    | Some d => [d]
                    end in
        degs <- match degree, possible with
                | None, Some d =>
                    let degs := elements (list_to_set degs ∩ d) in
                    if Nat.eqb (length degs) 0
                    then raise (Exception
                      "function 'congruence' failed (with previous runs)")
                    else ret degs
                | _, _ => ret degs
                end ;;
        let W := select curves degs [] in
        if match degree with None => true | Some _ => false end
           && (1 <? length W)%nat
        then
          _ <- match possible with
               | None => set_possible (degrees_of W)
               | Some d =>
                   _ <- set_possible (d ∩ degrees_of W) ;;
                   if is_empty_set (d ∩ degrees_of W)
                   then raise (Exception
                     "function 'congruence' failed (with previous runs)")
                   else ret tt
               end ;;
          q <- point ;;
          function_congruence depth' q None
        else
          match W with
          | [] => raise (Exception "function 'congruence' failed")
                  (* the assignment written after this [raise] is never
                     reached *)
          | C :: _ =>
              _ <- assert (through_point C) ;;
              _ <- set_possible (degrees_of W) ;;
              ret C
          end
  end.

(** [_Congruence_of_secant_curves_to_surface.check(i)] for the function
    [function_congruence_with_degree] of degree [d] *)
Fixpoint check (depth : nat) (d : Z) (i : nat) : ST cstate unit :=
  match i with
  | O => ret tt
  | S j =>
      p <- point ;;
      _ <- function_congruence depth p (Some d) ;;
      check depth d j
  end.

(** [congruence(degree, num_checks, point)] with
    [macaulay2_detectCongruence = False]; it returns the degree of the
    congruence it built. *)
Definition congruence (depth : nat) (degree : option Z) (num_checks : nat)
    (given_point : option trial) : ST cstate Z :=
  p <- match given_point with
       | None => point
       | Some p => ret p
       end ;;
  fun s =>
    match function_congruence depth p degree s with
    | (Raise err, s') => (Raise (Exception (exn_message err)), s')
    | (Ok C, s') =>
        let d := curve_degree C in
        match check depth d num_checks s' with
        | (Raise _, s'') => (Raise (Exception "congruence check failed"), s'')
        | (Ok _, s'') => (Ok d, s'')
        end
    end.

End Congruence.

(** ** What is assumed of the backend *)

(** Facts of commutative algebra about the operations Sage provides.  [I],
    [J] are lists of generators; [ideal_mem R g I] reads "[g] lies in the
    ideal generated by [I]". *)
Class BackendLaws (B : Backend) : Prop := {
  space_eqb_refl : forall R, space_eqb R R = true;
  space_dimension_nonneg : forall R, 0 <= space_dimension R;
  (** generators lie in their ideal, [0] lies in every ideal, and the ideal
      generated by [J] is the least one that contains [J] *)
  gens_mem : forall R I g, In g I -> ideal_mem R g I = true;
  zero_mem : forall R I, ideal_mem R pzero I = true;
  mem_least : forall R I J g,
    (forall h, In h J -> ideal_mem R h I = true) ->
    ideal_mem R g J = true -> ideal_mem R g I = true;
  (** sum, intersection, saturation, minimal bases *)
  sum_mem_l : forall R I J g,
    ideal_mem R g I = true -> ideal_mem R g (ideal_sum R I J) = true;
  sum_least : forall R I J K g,
    (forall h, In h I -> ideal_mem R h K = true) ->
    (forall h, In h J -> ideal_mem R h K = true) ->
    ideal_mem R g (ideal_sum R I J) = true -> ideal_mem R g K = true;
  intersection_mem : forall R I J g,
    ideal_mem R g (ideal_intersection R I J)
    = ideal_mem R g I && ideal_mem R g J;
  saturation_extensive : forall R I J g,
    ideal_mem R g I = true -> ideal_mem R g (ideal_saturation R I J) = true;
  saturation_monotone : forall R I I' J g,
    (forall h, ideal_mem R h I = true -> ideal_mem R h I' = true) ->
    ideal_mem R g (ideal_saturation R I J) = true ->
    ideal_mem R g (ideal_saturation R I' J) = true;
  minbase_mem : forall R I g,
    ideal_mem R g (_minbase R I) = ideal_mem R g I;
  (** dimensions: the whole space, the empty scheme, and only the zero
      ideal cuts out the whole space *)
  dimension_zero_ideal : forall R,
    scheme_dimension R [pzero] = space_dimension R;
  dimension_unit_ideal : forall R, scheme_dimension R [pone] < 0;
  dimension_full : forall R I g,
    scheme_dimension R I = space_dimension R ->
    In g I -> ideal_mem R g [pzero] = true;
  (** multiples and linear combinations stay in the ideal *)
  multiples_mem : forall R I g k h,
    ideal_mem R g I = true ->
    In h (monomial_multiples R g k) -> ideal_mem R h I = true;
  combination_mem : forall R I cs Bs,
    (forall h, In h Bs -> ideal_mem R h I = true) ->
    ideal_mem R (linear_combination R cs Bs) I = true;
}.

(** ** A backend to compute with: the projective space of dimension 0 *)

(** The coordinate ring of [ProjectiveSpace(0, QQ)] has one variable [x0];
    its forms are the monomials [c * x0^e], here with integer [c], and a
    homogeneous ideal is [0] or generated by a power of [x0]. *)
Module P0.

Definition form : Type := Z * nat.

Definition nonzero (g : form) : bool := negb (fst g =? 0).

Definition mem (g : form) (I : list form) : bool :=
  (fst g =? 0)
  || existsb (fun h => nonzero h && (snd h <=? snd g)%nat) I.

(** the least exponent among the nonzero generators *)
Fixpoint lowest (I : list form) : option nat :=
  match I with
  | [] => None
  | h :: I' =>
      if nonzero h
      then Some (match lowest I' with
                 | None => snd h
                 | Some m => Nat.min (snd h) m
                 end)
      else lowest I'
  end.

Definition principal (o : option nat) : list form :=
  match o with
  | None => [(0, O)]
  | Some e => [(1, e)]
  end.

(** [x0^e] lies in the ideal whose least exponent is [o]. *)
Definition below (o : option nat) (e : nat) : bool :=
  match o with
  | Some m => (m <=? e)%nat
  | None => false
  end.

Definition sum (I J : list form) : list form := I ++ J.

Definition inter (I J : list form) : list form :=
  principal (match lowest I, lowest J with
             | Some a, Some b => Some (Nat.max a b)
             | _, _ => None
             end).

(** [(I : J^oo)]: everything when [J] is [0], [I] when [J] is the whole
    ring, and for [J] a proper power of [x0] everything unless [I] is [0] *)
Definition sat (I J : list form) : list form :=
  match lowest J with
  | None => [(1, O)]
  | Some O => principal (lowest I)
  | Some (S _) =>
      match lowest I with
      | None => [(0, O)]
      | Some _ => [(1, O)]
      end
  end.

Definition minbase (I : list form) : list form := principal (lowest I).

(** Sage: the ideal of the whole ring has dimension -1, so the scheme it
    cuts out has dimension -2 before clamping. *)
Definition dimension (I : list form) : Z :=
  match lowest I with
  | None => 0
  | Some O => -2
  | Some (S _) => -1
  end.

Definition degree (g : form) : Z :=
  if nonzero g then Z.of_nat (snd g) else -1.

Definition multiples (g : form) (k : Z) : list form :=
  [(fst g, (snd g + Z.to_nat k)%nat)].

(** the sum of the terms [c * b] of one degree, that of the first
    nonzero [b] *)
Definition first_exponent (Bs : list form) : nat :=
  match List.find nonzero Bs with
  | Some b => snd b
  | None => O
  end.

Fixpoint combine_at (e : nat) (cs : list Z) (Bs : list form) : Z :=
  match cs, Bs with
  | c :: cs', b :: Bs' =>
      (if Nat.eqb (snd b) e then c * fst b else 0) + combine_at e cs' Bs'
  | _, _ => 0
  end.

Definition combination (cs : list Z) (Bs : list form) : form :=
  (combine_at (first_exponent Bs) cs Bs, first_exponent Bs).

(** [f * self] for one form [b * x0^d] of [self]: [a * x0^e] becomes
    [a * b^e * x0^(d * e)] *)
Definition composition (fs gs : list form) : result (list form) :=
  match gs with
  | [g] => Ok (map (fun f => (fst f * fst g ^ Z.of_nat (snd f),
                              (snd g * snd f)%nat)) fs)
  | _ => Raise (TypeError "the maps do not compose")
  end.

#[export] Instance backend : Backend := {|
  space := unit;
  space_eqb := fun _ _ => true;
  space_dimension := fun _ => 0;
  base_ring_in_fields := fun _ => true;
  poly := form;
  coef := Z;
  pzero := (0, O);
  pone := (1, O);
  poly_degree := degree;
  ideal_mem := fun _ => mem;
  ideal_sum := fun _ => sum;
  ideal_intersection := fun _ => inter;
  ideal_saturation := fun _ => sat;
  irrelevant_ideal := fun _ => [(1, 1%nat)];
  _minbase := fun _ => minbase;
  scheme_dimension := fun _ => dimension;
  monomial_multiples := fun _ => multiples;
  random_element := fun _ s => Z.of_nat s + 1;
  linear_combination := fun _ => combination;
  base_ring_is := fun _ _ => true;
  polys_ring_ngens := fun _ => 1;
  subs_into := fun _ ps => ps;
  scheme_morphism_init := fun _ _ _ => None;
  poly_is_zero := fun g => negb (nonzero g);
  form_degree := fun g => Z.of_nat (snd g);
  composition_polys := composition;
|}.

End P0.

(** ** Invariants of the objects *)

Section Variety_invariants.
Context `{B : Backend}.

(** Two handles with one identity are one object. *)
Definition same_object_coherent (X Y : Embedded_projective_variety) : Prop :=
  vid X = vid Y ->
  ambient_space X = ambient_space Y
  /\ defining_polynomials X = defining_polynomials Y.

(** The cached dimension and codimension are the ones the methods
    compute. *)
Definition caches_computed (X : Embedded_projective_variety) : Prop :=
  (forall d, _dimension X = Some d ->
     d = Z.max (scheme_dimension (ambient_space X) (defining_ideal X)) (-1))
  /\ (forall c, _codimension X = Some c ->
        c = space_dimension (ambient_space X)
            - Z.max (scheme_dimension (ambient_space X) (defining_ideal X))
                    (-1)).

(** An object of the world [w]: it was built on a space over a field,
    its identity has been allocated, its caches were filled by the
    methods. *)
Definition object_of (w : world) (X : Embedded_projective_variety) : Prop :=
  base_ring_in_fields (ambient_space X) = true
  /\ (oid_base (vid X) < next_id w)%nat
  /\ caches_computed X.

(** The dictionary of homogeneous components holds elements of the
    ideal. *)
Definition components_in_ideal (X : Embedded_projective_variety) : Prop :=
  forall n Bs h,
    _homogeneous_components_ideal X !! n = Some Bs -> In h Bs ->
    ideal_mem (ambient_space X) h (defining_ideal X) = true.

(** The ideal of [X] is saturated with respect to the irrelevant ideal. *)
Definition saturated (X : Embedded_projective_variety) : Prop :=
  forall g,
    ideal_mem (ambient_space X) g
      (ideal_saturation (ambient_space X) (defining_ideal X)
         (irrelevant_ideal (ambient_space X))) = true ->
    ideal_mem (ambient_space X) g (defining_ideal X) = true.

(** The test [is_subset] makes, without the shortcut for [self is Y]. *)
Definition gens_in (X Y : Embedded_projective_variety) : bool :=
  forallb (fun g => ideal_mem (ambient_space X) g (defining_ideal X))
          (defining_ideal Y).

(** The ideal of [X] is the zero ideal. *)
Definition whole (X : Embedded_projective_variety) : Prop :=
  forall g, In g (defining_ideal X) ->
            ideal_mem (ambient_space X) g [pzero] = true.

(** The scheme of [X] is empty: [1] lies in the saturation of the ideal
    of [X] with respect to the irrelevant ideal. *)
Definition no_points (X : Embedded_projective_variety) : Prop :=
  ideal_mem (ambient_space X) pone
    (ideal_saturation (ambient_space X) (defining_ideal X)
       (irrelevant_ideal (ambient_space X))) = true.

End Variety_invariants.

(** ** Concrete objects to compute with *)

(** Subschemes of the projective space of dimension 0, as the constructor
    builds them, in a world where four objects have been allocated. *)
Module P0_varieties.

Definition V (n : nat) (polys : list P0.form)
  : @Embedded_projective_variety P0.backend :=
  Variety (B := P0.backend) (Fresh n) tt polys None None ∅.

(** The subschemes cut out by [x0^2], by [x0^2] and [x0^3], by [x0], and
    the whole space. *)
Definition cut_by_x0_squared := V 0 [(1, 2%nat)].
Definition cut_by_x0_squared_and_cubed := V 1 [(1, 2%nat); (1, 3%nat)].
Definition cut_by_x0 := V 2 [(1, 1%nat)].
Definition whole_space := V 3 [].

Definition w4 : world := World 4 0.

End P0_varieties.

(** Maps of the projective space of dimension 0, in a store. *)
Module P0_maps.
Import P0_varieties.

(** The space itself and its empty subscheme. *)
Definition the_space := V 0 [].
Definition empty_scheme := V 1 [(1, 0%nat)].

(** The identity map of the space, and the empty map onto the empty
    subscheme, as the constructor leaves them. *)
Definition identity_map
  : @Rational_map_between_embedded_projective_varieties P0.backend :=
  Rational_map (B := P0.backend) the_space the_space [(1, 1%nat)] 1
    None None None None None.
Definition empty_map
  : @Rational_map_between_embedded_projective_varieties P0.backend :=
  Rational_map (B := P0.backend) the_space empty_scheme [(1, 0%nat)] 0
    None None (Some true) None None.

Definition s0 : @store P0.backend := Store (World 2 0) ∅.

(** The store after the two constructor calls. *)
Definition s2 : @store P0.backend :=
  snd ((a <- Rational_map__init__ the_space the_space [(1, 1%nat)] ;;
        Rational_map__init__ the_space empty_scheme [(1, 0%nat)]) s0).

Definition s3 : @store P0.backend := snd (compose 2%nat (Rat 3%nat) s2).

(** What Macaulay2 and the point sampler answer for the identity map. *)
Definition answers : @inverse_oracle P0.backend :=
  Inverse_oracle (B := P0.backend)
    (Ok (M2_forms (B := P0.backend) [(1, 1%nat)] (Some true) (Some true)))
    (Ok the_space) (Ok true) (Ok the_space) (Ok true).

End P0_maps.

(** The map of the docstring of [projective_degrees], from the projective
    space of dimension 6 to that of dimension 9, given by the minors of
    order 3 of a 3 x 5 matrix of variables: its projective degrees are
    [1, 3, 9, 17, 21, 15, 5].  A map is named here by the number of general
    hyperplanes it has been restricted to. *)
Module Docstring_map.

Definition source_dimension (k : nat) : Z := 6 - Z.of_nat k.
Definition source_degree (k : nat) : Z := 1.
Definition _0th_projective_degree (k : nat) : M Z :=
  ret (nth k [5; 15; 21; 17; 9; 3] 0).
Definition _restriction_to_general_hyperplane (k : nat) : M nat :=
  ret (S k).

Definition projective_degrees : nat -> ST pd_state (list Z) :=
  projective_degrees source_dimension source_degree _0th_projective_degree
    _restriction_to_general_hyperplane.

Definition before : pd_state := Pd_state None (World 0 0).
Definition after : pd_state :=
  Pd_state (Some [1; 3; 9; 17; 21; 15; 5]) (World 0 0).

End Docstring_map.

(** A plane conic over a finite field, as the sampler sees it: the section
    by the hyperplane of an even draw is one point of degree 2, that of an
    odd draw is two rational points.  [Pointless] stands for a curve none
    of whose sections has a rational point among its components. *)
Module Conic_scenario.

Inductive shape :=
  | Conic
  | Pointless
  | Cut (s : nat)
  | Conjugate_pair (s : nat)
  | Rational_point (s : nat).

Definition dimension_of (X : shape) : Z :=
  match X with Conic | Pointless => 1 | _ => 0 end.
Definition codimension_of (X : shape) : Z :=
  match X with Conic | Pointless => 1 | _ => 2 end.
Definition hyperplane_section_at (s : nat) (X : shape) : result shape :=
  match X with
  | Conic => Ok (Cut s)
  | Pointless => Ok (Cut (2 * s))
  | _ => Raise (ValueError "no hypersurface contains the ambient space")
  end.
Definition irreducible_components (X : shape) : list shape :=
  match X with
  | Cut s => if Nat.even s then [Conjugate_pair s]
             else [Rational_point s; Rational_point (S s)]
  | _ => [X]
  end.
Definition _is_point (X : shape) : bool :=
  match X with Rational_point _ => true | _ => false end.
Definition embedding_as_hyperplane_section (X q : shape) : result shape :=
  Ok q.
Definition random_linear_section (X : shape) : M shape := ret X.
Definition projection_image (X : shape) : M shape := ret X.
Definition projection_inverse_image (X q : shape) : result shape := Ok q.

Definition _raw_point : nat -> shape -> M shape :=
  _raw_point dimension_of codimension_of hyperplane_section_at
    embedding_as_hyperplane_section irreducible_components _is_point
    random_linear_section projection_image projection_inverse_image.

Definition w0 : world := World 0 0.

End Conic_scenario.

(** A cubic fourfold ([_degree_as_hypersurface] is 3) for which the first
    sampled point gives one line, whose inverse image is a conic that meets
    the surface in a scheme of degree 4 and not 5, and every later point
    gives one conic that meets the surface in degree 5. *)
Module Cubic_scenario.

Definition bad_conic : curve := Curve 1 2 0 4 true.
Definition good_conic : curve := Curve 1 2 0 5 true.

Definition sampled (i : nat) : result trial :=
  match i with
  | O => Ok (Trial true (Ok [bad_conic]))
  | _ => Ok (Trial true (Ok [good_conic]))
  end.

Definition congruence : ST cstate Z :=
  congruence 3 sampled 1000 None 3 None.

Definition fresh_fourfold : cstate := Cstate None 0.

End Cubic_scenario.

(** ** Further operations on varieties *)

Section Variety_operations.
Context `{B : Backend}.

(** [difference(other)] *)
Definition difference (X other : Embedded_projective_variety)
  : M Embedded_projective_variety :=
  if __ne__ (ambient X) (ambient other)
  then raise (ValueError
         "expected varieties in the same ambient projective space")
  else
    let R := ambient_space X in
    let I := ideal_saturation R (defining_ideal X) (defining_ideal other) in
    __init__ R (_minbase R I).

(** [linear_span()]: the span, and the object with the dictionary entry
    that [_homogeneous_component(1, trim=True)] wrote. *)
Definition linear_span (X : Embedded_projective_variety)
  : M (Embedded_projective_variety * Embedded_projective_variety) :=
  let '(Ls, X1) := _homogeneous_component X 1 true in
  if Z.of_nat (length Ls) =? 0 then ret (ambient X1, X1)
  else Y <- __init__ (ambient_space X1) Ls ;; ret (Y, X1).

End Variety_operations.

(** ** Further facts assumed of the backend *)

(** Sage's projective spaces are unique objects: two of them that compare
    equal are one. *)
Class SpaceLaws (B : Backend) : Prop := {
  space_eqb_true : forall R R', space_eqb R R' = true -> R = R';
}.

(** The second summand lies in a sum of ideals, and [1] generates the
    whole ring. *)
Class IdealLaws (B : Backend) : Prop := {
  sum_mem_r : forall R I J g,
    ideal_mem R g J = true -> ideal_mem R g (ideal_sum R I J) = true;
  unit_mem : forall R g, ideal_mem R g [pone] = true;
}.

(** A projective scheme has negative dimension exactly when it has no
    points, that is, when its ideal contains a power of the irrelevant
    ideal. *)
Class DimensionLaws (B : Backend) : Prop := {
  dimension_negative : forall R I,
    scheme_dimension R I < 0
    <-> ideal_mem R pone (ideal_saturation R I (irrelevant_ideal R)) = true;
}.

(** ** Virtual surfaces as varieties *)

Section Virtual_varieties.
Context `{B : Backend}.

(** [Embedded_projective_variety.__init__(PP)] for a variety [PP] of
    this class, which is not a projective space: the new object takes
    the space and the polynomials of [PP]. *)
Definition __init__from_variety (PP : Embedded_projective_variety)
  : M Embedded_projective_variety :=
  if negb (base_ring_in_fields (ambient_space PP))
  then raise (ValueError "base ring must be a field")
  else o <- alloc ;;
       ret (Variety o (ambient_space PP) (defining_polynomials PP)
                    None None ∅).

(** [_Virtual_projective_surface.__init__] as far as the variety goes:
    [PP(ambient, KK)] is the projective space [R] as a variety, the
    object is initialised from the empty subscheme of it, and its
    attribute [_dimension] is set to 2. *)
Definition _Virtual_projective_surface__init__ (R : space)
  : M Embedded_projective_variety :=
  P <- __init__ R [] ;;
  E <- empty P ;;
  self <- __init__from_variety E ;;
  ret (set_dimension self 2).

End Virtual_varieties.

(** Two projective spaces of dimension 0, with coordinates named
    differently: the backend of [P0] over each of them. *)
Module Two_spaces.

Definition backend : Backend := {|
  space := bool;
  space_eqb := Bool.eqb;
  space_dimension := fun _ => 0;
  base_ring_in_fields := fun _ => true;
  poly := P0.form;
  coef := Z;
  pzero := (0, O);
  pone := (1, O);
  poly_degree := P0.degree;
  ideal_mem := fun _ => P0.mem;
  ideal_sum := fun _ => P0.sum;
  ideal_intersection := fun _ => P0.inter;
  ideal_saturation := fun _ => P0.sat;
  irrelevant_ideal := fun _ => [(1, 1%nat)];
  _minbase := fun _ => P0.minbase;
  scheme_dimension := fun _ => P0.dimension;
  monomial_multiples := fun _ => P0.multiples;
  random_element := fun _ s => Z.of_nat s + 1;
  linear_combination := fun _ => P0.combination;
  base_ring_is := fun _ _ => true;
  polys_ring_ngens := fun _ => 1;
  subs_into := fun _ ps => ps;
  scheme_morphism_init := fun _ _ _ => None;
  poly_is_zero := fun g => negb (P0.nonzero g);
  form_degree := fun g => Z.of_nat (snd g);
  composition_polys := P0.composition;
|}.

(** A point of the first space and a point of the second. *)
Definition point_of_first : @Embedded_projective_variety backend :=
  Variety (B := backend) (Fresh 0) true [] None None ∅.
Definition point_of_second : @Embedded_projective_variety backend :=
  Variety (B := backend) (Fresh 1) false [] None None ∅.

End Two_spaces.

(** ** Images, dominance and the map into the ambient space *)

(** The attributes of a map that are absent until assigned:
    [_closure_of_image], [_dominant_map], [_super_map],
    [_list_of_representatives_of_map] and [_projective_degrees_list].
    They are kept beside the store, by address. *)
Section Images.
Context `{B : Backend}.

Record map_attributes := Map_attributes {
  _closure_of_image : option Embedded_projective_variety;
  _dominant_map : option nat;
  _super_map : option nat;
  _list_of_representatives_of_map : option (list nat);
  map_projective_degrees_list : option (list Z);
}.

Definition no_attributes : map_attributes :=
  Map_attributes None None None None None.

Definition set_closure_of_image a v :=
  Map_attributes v (_dominant_map a) (_super_map a)
    (_list_of_representatives_of_map a) (map_projective_degrees_list a).
Definition set_dominant_map a v :=
  Map_attributes (_closure_of_image a) v (_super_map a)
    (_list_of_representatives_of_map a) (map_projective_degrees_list a).
Definition set_super_map a v :=
  Map_attributes (_closure_of_image a) (_dominant_map a) v
    (_list_of_representatives_of_map a) (map_projective_degrees_list a).
Definition set_list_of_representatives_of_map a v :=
  Map_attributes (_closure_of_image a) (_dominant_map a) (_super_map a)
    v (map_projective_degrees_list a).
Definition set_map_projective_degrees_list a v :=
  Map_attributes (_closure_of_image a) (_dominant_map a) (_super_map a)
    (_list_of_representatives_of_map a) v.

Record xstore := Xstore {
  xs_store : store;
  xs_attributes : gmap nat map_attributes;
}.

Abbreviation HA := (ST xstore).

Definition in_store {A} (m : ST store A) : HA A :=
  fun s => let '(r, st) := m (xs_store s) in (r, Xstore st (xs_attributes s)).

Definition attributes_of (l : nat) : HA map_attributes :=
  fun s => (Ok (default no_attributes (xs_attributes s !! l)), s).

(** [obj.attr = v] for one of the attributes above *)
Definition assign (l : nat) (set : map_attributes -> map_attributes)
  : HA unit :=
  fun s => (Ok tt,
            Xstore (xs_store s)
              (<[l := set (default no_attributes (xs_attributes s !! l))]>
                 (xs_attributes s))).

(** [obj._is_dominant = v] and [obj._is_morphism = v] *)
Definition assign_is_dominant (l : nat) (v : option bool) : HA unit :=
  m <- in_store (the_map l) ;;
  in_store (put_map l (set_is_dominant m v)).
Definition assign_is_morphism (l : nat) (v : option bool) : HA unit :=
  m <- in_store (the_map l) ;;
  in_store (put_map l (set_is_morphism m v)).

(** What Sage computes for [image]: the generators [_minbase(...)] of the
    kernel of the ring map of [self.super()], and those of the elimination
    ideal for the [algorithm] given; either computation may raise. *)
Variable kernel_generators :
  Rational_map_between_embedded_projective_varieties -> result (list poly).
Variable elimination_generators :
  option string -> Rational_map_between_embedded_projective_varieties ->
  result (list poly).

(** The list comprehension of [super] over the representatives. *)
Fixpoint representatives_in_ambient (X A : Embedded_projective_variety)
    (reps : list nat) : HA (list nat) :=
  match reps with
  | [] => ret []
  | f :: reps' =>
      fm <- in_store (the_map f) ;;
      g <- in_store (Rational_map__init__ X A (map_polys fm)) ;;
      l <- representatives_in_ambient X A reps' ;;
      ret (g :: l)
  end.

(** [super()], written against the method [image] it calls. *)
Definition super_with
    (image : nat -> option string -> HA Embedded_projective_variety)
    (self : nat) : HA nat :=
  a <- attributes_of self ;;
  match _super_map a with
  | Some g => ret g
  | None =>
      m <- in_store (the_map self) ;;
      if oid_eqb (vid (ambient (_target m))) (vid (_target m))
      then _ <- assign self (fun a => set_super_map a (Some self)) ;;
           ret self
      else
        g <- in_store (Rational_map__init__ (_source m) (ambient (_target m))
                         (map_polys m)) ;;
        _ <- assign self (fun a => set_super_map a (Some g)) ;;
        _ <- (if is_true (_is_dominant m)
                 || bool_decide (is_Some (_closure_of_image a))
              then Z <- image self None ;;
                   assign g (fun a => set_closure_of_image a (Some Z))
              else ret tt) ;;
        _ <- match _list_of_representatives_of_map a with
             | Some reps =>
                 l <- representatives_in_ambient (_source m)
                        (ambient (_target m)) reps ;;
                 assign g (fun a =>
                   set_list_of_representatives_of_map a (Some l))
             | None => ret tt
             end ;;
        m <- in_store (the_map self) ;;
        _ <- assign_is_morphism g (_is_morphism m) ;;
        _ <- match map_projective_degrees_list a with
             | Some l =>
                 assign g (fun a =>
                   set_map_projective_degrees_list a (Some l))
             | None => ret tt
             end ;;
        ret g
  end.

Definition is_kernel_ring_map (algorithm : option string) : bool :=
  match algorithm with
  | Some a => String.eqb a "built-in_kernel_ring_map"
  | None => false
  end.

(** [image(algorithm)]; [depth] is the recursion depth Python still
    allows. *)
Fixpoint image (depth : nat) (self : nat) (algorithm : option string)
  : HA Embedded_projective_variety :=
  match depth with
  | O => raise RecursionError
  | S depth' =>
      m <- in_store (the_map self) ;;
      if is_true (_is_dominant m) then ret (_target m)
      else
        a <- attributes_of self ;;
        match _closure_of_image a with
        | Some Z => ret Z
        | None =>
            gens <- (if is_kernel_ring_map algorithm
                     then g <- super_with (image depth') self ;;
                          gm <- in_store (the_map g) ;;
                          of_result (kernel_generators gm)
                     else of_result (elimination_generators algorithm m)) ;;
            Z <- in_store (lift (__init__ (ambient_space (_target m)) gens)) ;;
            _ <- assign self (fun a => set_closure_of_image a (Some Z)) ;;
            if __eq__ Z (_target m)
            then
              _ <- assign self (fun a =>
                     set_closure_of_image a (Some (_target m))) ;;
              _ <- assign_is_dominant self (Some true) ;;
              ret (_target m)
            else
              _ <- assign_is_dominant self (Some false) ;;
              ret Z
        end
  end.

Definition super (depth : nat) : nat -> HA nat := super_with (image depth).

(** [is_dominant()] *)
Definition is_dominant (depth : nat) (self : nat) : HA bool :=
  m <- in_store (the_map self) ;;
  match _is_dominant m with
  | Some b => ret b
  | None =>
      Z <- image depth self None ;;
      m <- in_store (the_map self) ;;
      let b := __eq__ Z (_target m) in
      _ <- assign_is_dominant self (Some b) ;;
      ret b
  end.

(** [make_dominant()] *)
Definition make_dominant (depth : nat) (self : nat) : HA nat :=
  a <- attributes_of self ;;
  match _dominant_map a with
  | Some d => ret d
  | None =>
      b <- is_dominant depth self ;;
      if b
      then _ <- assign self (fun a => set_dominant_map a (Some self)) ;;
           ret self
      else
        m <- in_store (the_map self) ;;
        Z <- image depth self None ;;
        d <- in_store (Rational_map__init__ (_source m) Z (map_polys m)) ;;
        _ <- assign self (fun a => set_dominant_map a (Some d)) ;;
        _ <- assign_is_dominant d (Some true) ;;
        ret d
  end.

(** Addresses from the allocation counter on are not in use. *)
Definition addresses_free (s : xstore) : Prop :=
  forall l, (next_id (st_world (xs_store s)) <= l)%nat ->
            st_maps (xs_store s) !! l = None
            /\ xs_attributes s !! l = None.

(** The map at [self] is [m] and has no [_closure_of_image]. *)
Definition without_image (self : nat)
    (m : Rational_map_between_embedded_projective_varieties) (s : xstore)
  : Prop :=
  addresses_free s
  /\ st_maps (xs_store s) !! self = Some m
  /\ _closure_of_image (default no_attributes (xs_attributes s !! self))
     = None.

(** [g] is the map [self.super()] built for the map [m] at [self], and
    has no [_super_map] of its own yet. *)
Definition super_built (self g : nat)
    (m : Rational_map_between_embedded_projective_varieties) (s : xstore)
  : Prop :=
  addresses_free s /\ g <> self
  /\ st_maps (xs_store s) !! self = Some m
  /\ _super_map (default no_attributes (xs_attributes s !! self)) = Some g
  /\ _super_map (default no_attributes (xs_attributes s !! g)) = None
  /\ exists gm,
       st_maps (xs_store s) !! g = Some gm
       /\ _source gm = _source m /\ _target gm = ambient (_target m).

End Images.

(** The two maps of [P0_maps] with their attributes, all absent; both
    algorithms of [image] answer the zero ideal, the image of the
    identity map. *)
Module P0_images.
Import P0_maps.

Definition kernel_generators
    (f : @Rational_map_between_embedded_projective_varieties P0.backend)
  : result (list P0.form) := Ok [].
Definition elimination_generators (algorithm : option string)
    (f : @Rational_map_between_embedded_projective_varieties P0.backend)
  : result (list P0.form) := Ok [].

Definition image := image kernel_generators elimination_generators.
Definition is_dominant := is_dominant kernel_generators elimination_generators.
Definition make_dominant :=
  make_dominant kernel_generators elimination_generators.
Definition super := super kernel_generators elimination_generators.

Definition xs2 : @xstore P0.backend :=
  Xstore (Store (World 4 0)
            (<[3%nat := empty_map]> (<[2%nat := identity_map]> ∅))) ∅.

End P0_images.

(** ** Virtual surfaces and virtual fourfolds *)

(** Virtual objects carry numbers only, so this part of the module is
    arithmetic.  The dimension [ambient] of the projective space, when
    given, is a natural number, and the field is the default one. *)

(** [binomial(x, m)] of Sage for integers: the falling factorial of [x]
    over [m!], and 0 for negative [m] *)
Fixpoint falling (x : Z) (k : nat) : Z :=
  match k with
  | O => 1
  | S k' => falling x k' * (x - Z.of_nat k')
  end.

Definition binomial (x m : Z) : Z :=
  if m <? 0 then 0
  else falling x (Z.to_nat m) / Z.of_nat (fact (Z.to_nat m)).

(** [Integer(q)] for a rational [q] *)
Definition Integer (q : Q) : result Z :=
  if (Qden (Qred q) =? 1)%positive then Ok (Qnum (Qred q))
  else Raise (TypeError "no conversion of this rational to integer").

Record _Virtual_projective_surface := Virtual_projective_surface {
  (** [self.ambient().dimension()] *)
  ambient_dimension : Z;
  _degree : Z;
  _sectional_genus : Z;
  _constant_coefficient_hilbert_polynomial : Z;
  _topological_euler_characteristic : Z;
  _linear_system : option (list Z);
}.

(** A polynomial of degree at most 2 in [t] over the rationals, by its
    coefficients of [t^2], [t] and [1]. *)
Record quadratic := Quadratic { coef2 : Q; coef1 : Q; coef0 : Q }.

Definition evaluate (P : quadratic) (n : Z) : Q :=
  (coef2 P * inject_Z n * inject_Z n + coef1 P * inject_Z n + coef0 P)%Q.

(** [_Virtual_projective_surface.hilbert_polynomial], with its
    coefficients as the rational numbers the formula denotes; of this
    polynomial the module reads the constant coefficient. *)
Definition hilbert_polynomial (S : _Virtual_projective_surface) : quadratic :=
  Quadratic ((1 # 2) * inject_Z (_degree S))%Q
            ((1 # 2) * inject_Z (_degree S) + 1
             - inject_Z (_sectional_genus S))%Q
            (inject_Z (_constant_coefficient_hilbert_polynomial S)).

(** [sum([r * f(i) for i, r in enumerate(v, start=i)])] *)
Fixpoint weighted_sum (f : Z -> Z) (i : Z) (v : list Z) : Z :=
  match v with
  | [] => 0
  | r :: v' => r * f i + weighted_sum f (i + 1) v'
  end.

Definition sum_list (v : list Z) : Z := foldr Z.add 0 v.

(** the dimension [N] of the space of the linear system [(v0, v1, ...)] *)
Definition linear_system_dimension (v0 : Z) (rest : list Z) : Z :=
  binomial (v0 + 2) 2 - 1 - weighted_sum (fun i => binomial (i + 1) 2) 1 rest.

(** [_Virtual_rational_projective_surface.__init__] for a tuple
    [args = (v0, v1, ...)] that is not empty and the keyword [ambient] *)
Definition _Virtual_rational_projective_surface__init__ (v0 : Z)
    (rest : list Z) (ambient : option nat)
  : result _Virtual_projective_surface :=
  let N := linear_system_dimension v0 rest in
  if N <? 3
  then Raise (ValueError
    ("expected ambient projective space of dimension at least 3, got "
     +:+ pretty N))
  else
    let ambient := match ambient with
                   | None => N
                   | Some a => Z.of_nat a
                   end in
    let degS := v0 ^ 2 - weighted_sum (fun i => i ^ 2) 1 rest in
    let gS := binomial (v0 - 1) 2
              - weighted_sum (fun i => binomial i 2) 1 rest in
    let chiOS := 1 in
    let c2TS := 3 + sum_list rest in
    Ok (Virtual_projective_surface ambient degS gS chiOS c2TS
          (Some (v0 :: rest))).

(** [surface] with [virtual=True], for a tuple [(v0, v1, ...)] and the
    keywords [ambient] and [nodes] *)
Definition virtual_surface (v0 : Z) (rest : list Z) (ambient : option nat)
    (nodes : option Z) : result _Virtual_projective_surface :=
  match nodes with
  | Some _ => Raise (NotImplementedError
                "keyword 'nodes' must be None with virtual='True'")
  | None => _Virtual_rational_projective_surface__init__ v0 rest ambient
  end.

(** A virtual fourfold: the attributes its constructor sets, and the
    dimension of the projective space of its surface. *)
Record virtual_fourfold := Virtual_fourfold {
  fourfold_ambient_dimension : Z;
  fourfold_dimension : Z;
  fourfold_degree : Z;
  _degrees_generators : list Z;
  _surface : _Virtual_projective_surface;
}.

(** *** Double-precision numbers *)

(** In a Python file [(1/2)] is the float [0.5].  The polynomial that
    [hilbert_polynomial] of a virtual surface builds has therefore its
    coefficients in Sage's real double field, and
    [_dim_homogeneous_component] computes with doubles.  As for the
    polynomial algebra, floats are not part of the module: their
    operations are those of the class [Doubles], and what is assumed of
    them is collected in [DoubleLaws].  The module is taken as loaded in
    a Sage session, where the name [QQ] that [hilbert_polynomial] uses
    without importing it is bound. *)
Class Doubles := {
  double : Type;
  (** the float [0.5] *)
  half : double;
  (** the conversion of an integer, the product, the sum and the
      difference of two floats *)
  of_Integer : Z -> double;
  fmul : double -> double -> double;
  fadd : double -> double -> double;
  fsub : double -> double -> double;
  (** [P(n)] for the polynomial [P = a2*t^2 + a1*t + a0] over the real
      double field and an integer [n] *)
  call : double -> double -> double -> Z -> double;
  (** [Integer(x)], which raises for a float that is not an integer *)
  Integer_of_double : double -> result Z;
  (** [x.as_integer_ratio()]: the rational number that a finite float is *)
  as_integer_ratio : double -> option Q;
}.

Section Virtual_doubles.
Context `{D : Doubles}.

(** A polynomial of degree at most 2 in [t] over the real double field. *)
Record RDF_quadratic := RDF_Quadratic {
  RDF_coef2 : double;
  RDF_coef1 : double;
  RDF_coef0 : double;
}.

(** The polynomial [(1/2)*d*t**2 + ((1/2)*d + 1 - g)*t + c] as the code
    computes it, for the degree [d], the sectional genus [g] and the
    constant coefficient [c] of a virtual surface: Python multiplies,
    adds and subtracts floats, left to right, and Sage converts [c]. *)
Definition hilbert_polynomial_RDF (S : _Virtual_projective_surface)
  : RDF_quadratic :=
  RDF_Quadratic
    (fmul half (of_Integer (_degree S)))
    (fsub (fadd (fmul half (of_Integer (_degree S))) (of_Integer 1))
          (of_Integer (_sectional_genus S)))
    (of_Integer (_constant_coefficient_hilbert_polynomial S)).

(** [_Virtual_projective_surface._dim_homogeneous_component]: the
    binomial coefficient is an integer, the value of the polynomial a
    double, and so is their difference. *)
Definition _dim_homogeneous_component (S : _Virtual_projective_surface)
    (n : Z) : result Z :=
  let P := hilbert_polynomial_RDF S in
  match Integer_of_double
          (fsub (of_Integer (binomial (ambient_dimension S + n) n))
                (call (RDF_coef2 P) (RDF_coef1 P) (RDF_coef0 P) n)) with
  | Ok k => Ok (Z.max k 0)
  | Raise e => Raise e
  end.

Definition _Virtual_cubic_fourfold__init__ (S : _Virtual_projective_surface)
    (check : bool) : result virtual_fourfold :=
  if negb (ambient_dimension S =? 5)
  then Raise (ValueError "expected a surface in PP^5")
  else
    match (if check then _dim_homogeneous_component S 3 else Ok 1) with
    | Raise e => Raise e
    | Ok k =>
        if check && (k =? 0)
        then Raise (ValueError
               "the surface must be contained in cubic hypersurface")
        else Ok (Virtual_fourfold (ambient_dimension S) 4 3 [3] S)
    end.

Definition _Virtual_intersection_of_three_quadrics_in_P7__init__
    (S : _Virtual_projective_surface) (check : bool)
  : result virtual_fourfold :=
  if negb (ambient_dimension S =? 7)
  then Raise (ValueError "expected a surface in PP^7")
  else
    match (if check then _dim_homogeneous_component S 2 else Ok 3) with
    | Raise e => Raise e
    | Ok k =>
        if check && (k <? 3)
        then Raise (ValueError
          "the surface must be contained in a complete intersection of three quadrics")
        else Ok (Virtual_fourfold (ambient_dimension S) 4 8 [2; 2; 2] S)
    end.

(** [fourfold(S, X, V, check)] for a virtual surface [S]; of [X] and [V]
    only whether they are given matters. *)
Definition fourfold (S : _Virtual_projective_surface)
    (X_given V_given : bool) (check : bool) : result virtual_fourfold :=
  if X_given || V_given
  then Raise (Exception
    "fourfold and ambient fivefold don't have to be passed along with a virtual surface")
  else if ambient_dimension S =? 5
  then _Virtual_cubic_fourfold__init__ S check
  else if ambient_dimension S =? 7
  then _Virtual_intersection_of_three_quadrics_in_P7__init__ S check
  else Raise (NotImplementedError
    ("Hodge-special fourfold containing a virtual surface in PP^"
     +:+ pretty (ambient_dimension S))).

End Virtual_doubles.

(** [sum([a[i]*a[j] for i in range(r) for j in range(i+1,r)])] *)
Fixpoint sum_of_products_of_pairs (a : list Z) : Z :=
  match a with
  | [] => 0
  | x :: a' => x * sum_list a' + sum_of_products_of_pairs a'
  end.

Record matrix2 := Matrix2 { m11 : Z; m12 : Z; m21 : Z; m22 : Z }.

Definition determinant (m : matrix2) : Z := m11 m * m22 m - m12 m * m21 m.

(** [_lattice_intersection_matrix] on a virtual fourfold: the methods it
    calls return the attributes the constructors have set, and a virtual
    surface has no [_finite_number_of_nodes]. *)
Definition _lattice_intersection_matrix (X : virtual_fourfold)
  : result matrix2 :=
  let r := fourfold_ambient_dimension X - fourfold_dimension X in
  let a := _degrees_generators X in
  if negb (Z.of_nat (length a) =? r)
  then Raise (NotImplementedError
         "expected a special fourfold which is a complete intersection")
  else
    let S := _surface X in
    let HS2 := _degree S in
    let KSHS := 2 * _sectional_genus S - 2 - HS2 in
    match Integer (coef0 (hilbert_polynomial S)) with
    | Raise e => Raise e
    | Ok chiOS =>
        let c2TS := _topological_euler_characteristic S in
        let KS2 := 12 * chiOS - c2TS in
        let n := 0 in
        let S2 := 2 * n
                  + (binomial (r + 5) 2 - (r + 5) * sum_list a
                     + sum_list a ^ 2 - sum_of_products_of_pairs a) * HS2
                  + (r + 5 - sum_list a) * KSHS + KS2 - c2TS in
        Ok (Matrix2 (fourfold_degree X) HS2 HS2 S2)
    end.

(** [discriminant()] of a virtual fourfold, which is not a Gushel-Mukai
    fourfold *)
Definition discriminant (X : virtual_fourfold) : result Z :=
  match _lattice_intersection_matrix X with
  | Ok m => Ok (determinant m)
  | Raise e => Raise e
  end.

(** *** What is assumed of the doubles *)

(** The float [x] is finite and is the number [k / 2]. *)
Definition is_half_of `{D : Doubles} (x : double) (k : Z) : Prop :=
  exists q, as_integer_ratio x = Some q /\ (q == k # 2)%Q.

(** Arithmetic in doubles is correctly rounded, so a result that is a
    double is computed exactly; an integer or the half of an integer is a
    double when it has at most 53 significant bits.  For the value of a
    polynomial this covers the sums and products of every order of
    evaluation. *)
Class DoubleLaws (D : Doubles) : Prop := {
  half_exact : is_half_of half 1;
  of_Integer_exact : forall z,
    Z.abs z < 2 ^ 52 -> is_half_of (of_Integer z) (2 * z);
  fadd_exact : forall x y a b,
    is_half_of x a -> is_half_of y b -> Z.abs (a + b) < 2 ^ 53 ->
    is_half_of (fadd x y) (a + b);
  fsub_exact : forall x y a b,
    is_half_of x a -> is_half_of y b -> Z.abs (a - b) < 2 ^ 53 ->
    is_half_of (fsub x y) (a - b);
  fmul_exact : forall x y a z,
    is_half_of x a -> is_half_of y (2 * z) -> Z.abs (a * z) < 2 ^ 53 ->
    is_half_of (fmul x y) (a * z);
  call_exact : forall a2 a1 a0 p q r n,
    is_half_of a2 p -> is_half_of a1 q -> is_half_of a0 r ->
    n ^ 2 < 2 ^ 52 ->
    Z.abs p * n ^ 2 + Z.abs q * Z.abs n + Z.abs r < 2 ^ 53 ->
    is_half_of (call a2 a1 a0 n) (p * n ^ 2 + q * n + r);
  Integer_exact : forall x k,
    is_half_of x (2 * k) -> Integer_of_double x = Ok k;
}.

(** *** Doubles to compute with *)

(** Finite doubles: a double is a number [numerator / 2^scale], and every
    operation rounds its exact result to 53 significant bits, to the
    nearest such number and, of two nearest ones, to the one whose last
    bit is 0, as IEEE 754 prescribes for binary64.  The overflow of
    binary64 at [2^1024] and its gradual underflow below [2^-1022] are
    not part of this arithmetic. *)
Module Binary64.

Record number := Number { numerator : Z; scale : nat }.

(** [m / 2^k] rounded to the nearest integer, ties to even, for [0 < k] *)
Definition nearest_even (m k : Z) : Z :=
  let q := m / 2 ^ k in
  let r := m mod 2 ^ k in
  let h := 2 ^ (k - 1) in
  if r <? h then q
  else if h <? r then q + 1
  else if Z.even q then q else q + 1.

Definition round (m : Z) (s : nat) : number :=
  let k := Z.log2 (Z.abs m) + 1 - 53 in
  if 0 <? k then Number (nearest_even m k * 2 ^ k) s else Number m s.

Definition of_Z (n : Z) : number := round n 0.

Definition mul (x y : number) : number :=
  round (numerator x * numerator y) (scale x + scale y).

Definition add (x y : number) : number :=
  let s := Nat.max (scale x) (scale y) in
  round (numerator x * 2 ^ Z.of_nat (s - scale x)
         + numerator y * 2 ^ Z.of_nat (s - scale y)) s.

Definition sub (x y : number) : number :=
  add x (Number (- numerator y) (scale y)).

(** Sage adds the terms [c * n^i] of a polynomial one after the other,
    the power [n^i] being an integer. *)
Definition value_at (a2 a1 a0 : number) (n : Z) : number :=
  add (add (mul a2 (of_Z (n ^ 2))) (mul a1 (of_Z n))) a0.

Definition to_Integer (x : number) : result Z :=
  if numerator x mod 2 ^ Z.of_nat (scale x) =? 0
  then Ok (numerator x / 2 ^ Z.of_nat (scale x))
  else Raise (TypeError "cannot convert non-integral float to integer").

Definition ratio (x : number) : option Q :=
  Some (Qmake (numerator x) (Z.to_pos (2 ^ Z.of_nat (scale x)))).

#[export] Instance doubles : Doubles := {|
  double := number;
  half := Number 1 1;
  of_Integer := of_Z;
  fmul := mul;
  fadd := add;
  fsub := sub;
  call := value_at;
  Integer_of_double := to_Integer;
  as_integer_ratio := ratio;
|}.

End Binary64.

(** The virtual surfaces of the docstrings. *)
Module Docstring_surfaces.

Definition surface_4_8 := virtual_surface 4 [8] (Some 5%nat) None.
Definition surface_10_0_0_10 := virtual_surface 10 [0; 0; 10] None None.
Definition surface_5_7_0_1 := virtual_surface 5 [7; 0; 1] None None.
Definition surface_5_8_0_1 := virtual_surface 5 [8; 0; 1] None None.

(** what the first three are expected to be *)
Definition S_4_8 : _Virtual_projective_surface :=
  Virtual_projective_surface 5 8 3 1 11 (Some [4; 8]).
Definition S_10_0_0_10 : _Virtual_projective_surface :=
  Virtual_projective_surface 5 10 6 1 13 (Some [10; 0; 0; 10]).
Definition S_5_7_0_1 : _Virtual_projective_surface :=
  Virtual_projective_surface 7 9 3 1 11 (Some [5; 7; 0; 1]).

End Docstring_surfaces.

(** ** The sectional genus *)

(** [Embedded_projective_variety.sectional_genus]: the Hilbert polynomial
    is given by its values, the attribute [_sectional_genus] by the
    value it holds, if any. *)
Fixpoint differences (k : nat) (P : Z -> Q) : Z -> Q :=
  match k with
  | O => P
  | S k' => differences k' (fun t => (P t - P (t - 1)%Z)%Q)
  end.

Definition sectional_genus (cached : option Z) (dimension : Z)
    (P : Z -> Q) : result Z :=
  match cached with
  | Some g => Ok g
  | None =>
      if negb (1 <=? dimension)
      then Raise (ValueError "expected a positive dimensional scheme")
      else Integer (1 - differences (Z.to_nat (dimension - 1)) P 0)%Q
  end.

(** ** Hodge-special fourfolds *)

Section Special_fourfold.
Context `{B : Backend}.

(** the generators of [self.Jacobian()], computed by Sage from the
    defining polynomials *)
Variable Jacobian : space -> list poly -> list poly.

(** [singular_locus()], as it is computed the first time *)
Definition singular_locus (X : Embedded_projective_variety)
  : M Embedded_projective_variety :=
  __init__ (ambient_space X)
    (_minbase (ambient_space X)
       (Jacobian (ambient_space X) (defining_polynomials X))).

(** A fourfold as a variety, with the attributes [_ambient_fivefold],
    absent until assigned, and [_surface]. *)
Record Hodge_special_fourfold := Special_fourfold {
  fourfold_variety : Embedded_projective_variety;
  _ambient_fivefold : option Embedded_projective_variety;
  surface_of_fourfold : Embedded_projective_variety;
}.

(** [Hodge_special_fourfold.__init__(S, X, V, check)] for varieties [S],
    [X] and [V], with [S0] for [S]; the object is first built as a variety
    with the space and the polynomials of [X]. *)
Definition Hodge_special_fourfold__init__
    (S0 X : Embedded_projective_variety)
    (V : option Embedded_projective_variety) (check : bool)
  : M Hodge_special_fourfold :=
  self <- __init__ (ambient_space X) (defining_polynomials X) ;;
  let '(d, self) := dimension self in
  if negb (d =? 4) then raise (ValueError "expected a fourfold")
  else
    let '(dS, S1) := dimension S0 in
    if negb (dS =? 2) then raise (ValueError "expected a surface")
    else if negb (is_subset S1 X)
    then raise (ValueError "the surface must be contained in the fourfold")
    else
      let V := match V with
               | None => if dim (ambient self) =? 5
                         then Some (ambient self) else None
               | Some V => Some V
               end in
      V <- match V with
           | None => ret None
           | Some V =>
               let '(dV, V) := dimension V in
               if negb (dV =? 5) then raise (ValueError "expected a fivefold")
               else if negb (is_subset X V)
               then raise (ValueError
                      "the fourfold must be contained in the fivefold")
               else
                 _ <- (if check
                       then Z <- singular_locus V ;;
                            if 0 <=? dim Z
                            then raise (ValueError
                                   "the ambient fivefold is not smooth")
                            else ret tt
                       else ret tt) ;;
                 ret (Some V)
           end ;;
      _ <- (if check
            then Z <- singular_locus self ;;
                 if 0 <=? dim Z
                 then raise (ValueError "the fourfold is not smooth")
                 else ret tt
            else ret tt) ;;
      ret (Special_fourfold self V S1).

(** [ambient_fivefold()] *)
Definition ambient_fivefold (F : Hodge_special_fourfold)
  : result Embedded_projective_variety :=
  match _ambient_fivefold F with
  | Some V => Ok V
  | None => Raise (Exception "cannot find ambient fivefold")
  end.

End Special_fourfold.

(** A backend that knows the coordinate subspaces of the projective
    space of dimension 5: its forms are [0], [1] and the variables
    [x0, ..., x5], and an ideal is generated by a list of them.  Sum,
    membership, minimal bases and dimensions are those of such ideals;
    intersections and saturations, which lead outside of them, are given
    by the ideal of [0]. *)
Module Coordinate_subspaces.

Inductive form := Zero | One | Var (i : nat).

Definition is_one (g : form) : bool :=
  match g with One => true | _ => false end.

Definition is_var (i : nat) (g : form) : bool :=
  match g with Var j => Nat.eqb i j | _ => false end.

Definition mem (g : form) (I : list form) : bool :=
  match g with
  | Zero => true
  | One => existsb is_one I
  | Var i => existsb is_one I || existsb (is_var i) I
  end.

(** the variables among [x0, ..., x5] that occur in [I] *)
Definition variables (I : list form) : list nat :=
  filter (fun i => existsb (is_var i) I = true) (seq 0 6).

Definition minbase (I : list form) : list form :=
  if existsb is_one I then [One] else map Var (variables I).

(** Sage: the ideal of [1] gives dimension -2 before clamping. *)
Definition dimension (I : list form) : Z :=
  if existsb is_one I then -2 else 5 - Z.of_nat (length (variables I)).

Definition degree (g : form) : Z :=
  match g with Zero => -1 | One => 0 | Var _ => 1 end.

Definition backend : Backend := {|
  space := unit;
  space_eqb := fun _ _ => true;
  space_dimension := fun _ => 5;
  base_ring_in_fields := fun _ => true;
  poly := form;
  coef := Z;
  pzero := Zero;
  pone := One;
  poly_degree := degree;
  ideal_mem := fun _ => mem;
  ideal_sum := fun _ I J => I ++ J;
  ideal_intersection := fun _ _ _ => [Zero];
  ideal_saturation := fun _ _ _ => [Zero];
  irrelevant_ideal := fun _ => map Var (seq 0 6);
  _minbase := fun _ => minbase;
  scheme_dimension := fun _ => dimension;
  monomial_multiples := fun _ g _ => [g];
  random_element := fun _ s => Z.of_nat s + 1;
  linear_combination := fun _ _ Bs => hd Zero Bs;
  base_ring_is := fun _ _ => true;
  polys_ring_ngens := fun _ => 6;
  subs_into := fun _ ps => ps;
  scheme_morphism_init := fun _ _ _ => None;
  poly_is_zero := fun g => match g with Zero => true | _ => false end;
  form_degree := degree;
  composition_polys := fun _ _ => Raise (TypeError "the maps do not compose");
|}.

(** A coordinate subspace is smooth: its Jacobian ideal is that of [1]. *)
Definition Jacobian (R : unit) (ps : list form) : list form := One :: ps.

(** The plane [x0 = x1 = x2 = 0] in the hyperplane [x0 = 0]. *)
Definition the_plane : @Embedded_projective_variety backend :=
  Variety (B := backend) (Fresh 0) tt [Var 0; Var 1; Var 2] None None ∅.
Definition the_hyperplane : @Embedded_projective_variety backend :=
  Variety (B := backend) (Fresh 1) tt [Var 0] None None ∅.

Definition w2 : world := World 2 0.

End Coordinate_subspaces.

(** Maps of the projective space of dimension 5, given by variables: the
    identity map, the inclusion of the plane [x0 = x1 = x2 = 0], and the
    map [(x0 : x0 : x2 : x3 : x4 : x5)], whose image lies in the
    hyperplane [y0 = y1], so that it is neither dominant nor birational. *)
Module PP5_maps.
Import Coordinate_subspaces.

Definition the_space : @Embedded_projective_variety backend :=
  Variety (B := backend) (Fresh 2) tt [] None None ∅.

Definition coordinates : list form :=
  [Var 0; Var 1; Var 2; Var 3; Var 4; Var 5].
Definition collapsing : list form :=
  [Var 0; Var 0; Var 2; Var 3; Var 4; Var 5].

Definition s0 : @store backend := Store (World 3 0) ∅.

(** The store after the three constructor calls: the maps are at the
    addresses 3, 4 and 5. *)
Definition s3 : @store backend :=
  snd ((_ <- Rational_map__init__ the_space the_space coordinates ;;
        _ <- Rational_map__init__ the_plane the_space coordinates ;;
        Rational_map__init__ the_space the_space collapsing) s0).

Definition identity_map
  : @Rational_map_between_embedded_projective_varieties backend :=
  Rational_map (B := backend) the_space the_space coordinates 1
    None None None None None.
Definition inclusion_map
  : @Rational_map_between_embedded_projective_varieties backend :=
  Rational_map (B := backend) the_plane the_space coordinates 1
    None None None None None.
Definition collapsing_map
  : @Rational_map_between_embedded_projective_varieties backend :=
  Rational_map (B := backend) the_space the_space collapsing 1
    None None None None None.

(** The points [(0 : 0 : 0 : 0 : 0 : 1)] and [(1 : 0 : 0 : 0 : 0 : 0)]. *)
Definition last_point : @Embedded_projective_variety backend :=
  Variety (B := backend) (Fresh 7) tt [Var 0; Var 1; Var 2; Var 3; Var 4]
    None None ∅.
Definition first_point : @Embedded_projective_variety backend :=
  Variety (B := backend) (Fresh 8) tt [Var 1; Var 2; Var 3; Var 4; Var 5]
    None None ∅.

(** For the identity map Macaulay2 answers with the identity map, and
    both round trips on the sampled points succeed. *)
Definition identity_answers : @inverse_oracle backend :=
  Inverse_oracle (B := backend)
    (Ok (M2_forms (B := backend) coordinates (Some true) (Some true)))
    (Ok last_point) (Ok true) (Ok first_point) (Ok true).

(** For the collapsing map Macaulay2, which is asked not to verify
    anything, is taken to answer with the identity map.  The first point
    is not in the image, so the round trip through it fails. *)
Definition collapsing_answers : @inverse_oracle backend :=
  Inverse_oracle (B := backend)
    (Ok (M2_forms (B := backend) coordinates (Some true) (Some true)))
    (Ok last_point) (Ok true) (Ok first_point) (Ok false).

End PP5_maps.

(** Sage's [Jacobian()] on the projective space of dimension 0: the
    generators of the ideal, then the minors of the Jacobian matrix of
    the size of the codimension, each reduced modulo the ideal.  The
    codimension is 0 for the whole space, whose only minor is [1], and 1
    otherwise, where the minors are the derivatives. *)
Module P0_singular_loci.

Definition derivative (g : P0.form) : P0.form :=
  (fst g * Z.of_nat (snd g), Nat.pred (snd g)).

Definition reduce (I : list P0.form) (g : P0.form) : P0.form :=
  if P0.below (P0.lowest I) (snd g) then (0, O) else g.

Definition Jacobian (R : unit) (ps : list P0.form) : list P0.form :=
  let minors := match P0.lowest ps with
                | None => [(1, O)]
                | Some _ => map derivative ps
                end in
  ps ++ map (reduce ps) minors.

End P0_singular_loci.

(** * Properties *)

Lemma oid_eqb_eq (a b : oid) : oid_eqb a b = true <-> a = b.
Proof.
  revert b. induction a as [n | a IH]; intros [m | b]; simpl;
    try (split; [discriminate | congruence]).
  - rewrite Nat.eqb_eq. split; congruence.
  - rewrite IH. split; congruence.
Qed.

Lemma oid_eqb_refl (a : oid) : oid_eqb a a = true.
Proof. by apply oid_eqb_eq. Qed.

Lemma oid_eqb_fresh (a : oid) (n : nat) :
  (oid_base a < n)%nat -> oid_eqb (Fresh n) a = false.
Proof.
  intros Hlt. destruct (oid_eqb (Fresh n) a) eqn:E; [|done].
  apply oid_eqb_eq in E. subst a. simpl in Hlt. lia.
Qed.


Lemma oid_eqb_ambient (a : oid) : oid_eqb a (AmbientOf a) = false.
Proof.
  destruct (oid_eqb a (AmbientOf a)) eqn:E; [|done].
  apply oid_eqb_eq in E. apply (f_equal oid_depth) in E. simpl in E. lia.
Qed.

Lemma oid_eqb_sym (a b : oid) : oid_eqb a b = oid_eqb b a.
Proof.
  destruct (oid_eqb a b) eqn:E1, (oid_eqb b a) eqn:E2; try done.
  - apply oid_eqb_eq in E1. subst. by rewrite oid_eqb_refl in E2.
  - apply oid_eqb_eq in E2. subst. by rewrite oid_eqb_refl in E1.
Qed.

Section Variety_properties.
Context `{B : Backend} {L : BackendLaws B}.

Implicit Types X Y Z : Embedded_projective_variety.

Lemma defining_ideal_mem X (h : poly) :
  In h (defining_ideal X) ->
  ideal_mem (ambient_space X) h (defining_ideal X) = true.
Proof. apply gens_mem. Qed.

Lemma gens_in_spec X Y :
  gens_in X Y = true <->
  forall g, In g (defining_ideal Y) ->
            ideal_mem (ambient_space X) g (defining_ideal X) = true.
Proof. unfold gens_in. by rewrite forallb_forall. Qed.

Lemma is_subset_gens_in X Y :
  ambient_space X = ambient_space Y -> same_object_coherent X Y ->
  is_subset X Y = gens_in X Y.
Proof.
  intros Hsp Hco. unfold is_subset.
  destruct (oid_eqb (vid X) (vid Y)) eqn:E.
  - apply oid_eqb_eq in E. destruct (Hco E) as [_ Hp].
    symmetry. apply gens_in_spec. intros g Hg.
    apply gens_mem. unfold defining_ideal in *. by rewrite Hp.
  - unfold gens_in. rewrite Hsp, space_eqb_refl. reflexivity.
Qed.

End Variety_properties.

(** ** The backend of dimension 0 satisfies the laws *)

Module P0_facts.
Import P0.


Lemma existsb_lowest (I : list form) (e : nat) :
  existsb (fun h => nonzero h && (snd h <=? e)%nat) I = below (lowest I) e.
Proof.
  induction I as [| h I IH]; simpl; [done|].
  rewrite IH. destruct (nonzero h); simpl; [|done].
  destruct (lowest I) as [m|]; simpl.
  - destruct (Nat.leb_spec (snd h) e), (Nat.leb_spec m e),
      (Nat.leb_spec (Nat.min (snd h) m) e); simpl; try done; lia.
  - by rewrite orb_false_r.
Qed.

Lemma mem_lowest (g : form) (I : list form) :
  mem g I = (fst g =? 0) || below (lowest I) (snd g).
Proof. unfold mem. by rewrite existsb_lowest. Qed.

Lemma lowest_principal (o : option nat) : lowest (principal o) = o.
Proof. by destruct o. Qed.

Lemma lowest_app (I J : list form) :
  lowest (I ++ J) =
  match lowest I, lowest J with
  | Some a, Some b => Some (Nat.min a b)
  | Some a, None => Some a
  | None, o => o
  end.
Proof.
  induction I as [| h I IH]; simpl.
  - by destruct (lowest J).
  - destruct (nonzero h); [|done]. rewrite IH.
    destruct (lowest I) as [a|], (lowest J) as [b|]; try done.
    f_equal. lia.
Qed.

Lemma lowest_none_zero (I : list form) (g : form) :
  lowest I = None -> In g I -> (fst g =? 0) = true.
Proof.
  induction I as [| h I IH]; simpl; [done|].
  destruct (nonzero h) eqn:E; [done|].
  intros Hn [-> | Hin]; [|by apply IH].
  unfold nonzero in E. by destruct (fst g =? 0).
Qed.

Lemma lowest_some_in (I : list form) (m : nat) :
  lowest I = Some m -> exists h, In h I /\ nonzero h = true /\ snd h = m.
Proof.
  revert m. induction I as [| h I IH]; simpl; [done|]. intros m.
  destruct (nonzero h) eqn:E.
  - destruct (lowest I) as [a|] eqn:Ea.
    + intros [= <-]. destruct (Nat.min_spec (snd h) a) as [[_ ->] | [_ ->]].
      * exists h. auto.
      * destruct (IH a eq_refl) as (h' & ? & ? & ?). exists h'. auto.
    + intros [= <-]. exists h. auto.
  - intros Hm. destruct (IH m Hm) as (h' & ? & ? & ?). exists h'. auto.
Qed.

(** containment of ideals, read on the least exponents *)
Lemma contained_lowest (I I' : list form) :
  (forall h, mem h I = true -> mem h I' = true) ->
  forall a, lowest I = Some a -> below (lowest I') a = true.
Proof.
  intros Hc a Ha. specialize (Hc (1, a)).
  rewrite !mem_lowest, Ha in Hc. simpl in Hc.
  apply Hc. by rewrite Nat.leb_refl.
Qed.

Lemma below_trans (o : option nat) (a e : nat) :
  below o a = true -> (a <=? e)%nat = true -> below o e = true.
Proof.
  destruct o as [m|]; simpl; [|done].
  rewrite !Nat.leb_le. lia.
Qed.

Lemma mem_of_gens (I J : list form) :
  (forall h, In h J -> mem h I = true) ->
  forall b, lowest J = Some b -> below (lowest I) b = true.
Proof.
  intros Hg b Hb. destruct (lowest_some_in J b Hb) as (h & Hin & Hnz & <-).
  specialize (Hg h Hin). rewrite mem_lowest in Hg.
  unfold nonzero in Hnz. by destruct (fst h =? 0).
Qed.

Lemma first_exponent_in (Bs : list form) (cs : list Z) :
  fst (combination cs Bs) <> 0 ->
  exists b, In b Bs /\ nonzero b = true /\ snd b = first_exponent Bs.
Proof.
  unfold combination, first_exponent. simpl.
  destruct (List.find nonzero Bs) as [b|] eqn:E.
  - intros _. apply find_some in E as [? ?]. exists b. auto.
  - intros Hne. exfalso. apply Hne. clear Hne.
    assert (Hz : forall b, In b Bs -> fst b = 0).
    { intros b Hb. pose proof (find_none _ _ E b Hb) as Hn.
      unfold nonzero in Hn. destruct (Z.eqb_spec (fst b) 0); [done|done]. }
    clear E. revert cs. induction Bs as [| b Bs IH]; intros [| c cs];
      simpl; try done.
    rewrite (Hz b) by (by left). rewrite IH by (intros; apply Hz; by right).
    destruct (Nat.eqb (snd b) 0); lia.
Qed.

Lemma laws : BackendLaws backend.
Proof.
  split; simpl.
  - done.
  - done.
  - (* gens_mem *)
    intros _ I g Hin. unfold mem. destruct (fst g =? 0) eqn:E; [done|].
    simpl. apply existsb_exists. exists g. split; [done|].
    unfold nonzero. by rewrite E, Nat.leb_refl.
  - done.
  - (* mem_least *)
    intros _ I J g Hg. rewrite !mem_lowest.
    destruct (fst g =? 0); [done|]. simpl.
    destruct (lowest J) as [b|] eqn:Hb; simpl; [|done].
    intros Hle. eapply below_trans; [|exact Hle]. by eapply mem_of_gens.
  - (* sum_mem_l *)
    intros _ I J g. unfold sum. rewrite !mem_lowest, lowest_app.
    destruct (fst g =? 0); [done|]. simpl.
    destruct (lowest I) as [a|]; simpl; [|done].
    destruct (lowest J) as [b|]; simpl; [|done].
    rewrite !Nat.leb_le. lia.
  - (* sum_least *)
    intros _ I J K g HI HJ. unfold sum. rewrite !mem_lowest, lowest_app.
    destruct (fst g =? 0); [done|]. simpl.
    pose proof (mem_of_gens K I HI) as HI'.
    pose proof (mem_of_gens K J HJ) as HJ'.
    destruct (lowest I) as [a|], (lowest J) as [b|]; simpl; try done.
    + intros Hle. destruct (Nat.min_spec a b) as [[_ E] | [_ E]];
        rewrite E in Hle.
      * eapply below_trans; [apply (HI' a eq_refl) | exact Hle].
      * eapply below_trans; [apply (HJ' b eq_refl) | exact Hle].
    + intros Hle. eapply below_trans; [apply (HI' a eq_refl) | exact Hle].
    + intros Hle. eapply below_trans; [apply (HJ' b eq_refl) | exact Hle].
  - (* intersection_mem *)
    intros _ I J g. unfold inter. rewrite !mem_lowest, lowest_principal.
    destruct (fst g =? 0); [done|]. simpl.
    destruct (lowest I) as [a|], (lowest J) as [b|]; simpl; try done.
    + destruct (Nat.leb_spec a (snd g)), (Nat.leb_spec b (snd g)),
        (Nat.leb_spec (Nat.max a b) (snd g)); simpl; try done; lia.
    + by rewrite andb_false_r.
  - (* saturation_extensive *)
    intros _ I J g. unfold sat. rewrite mem_lowest.
    destruct (lowest J) as [[| j]|]; rewrite mem_lowest.
    + by rewrite lowest_principal.
    + destruct (lowest I); simpl; [by rewrite orb_true_r | done].
    + simpl. by rewrite orb_true_r.
  - (* saturation_monotone *)
    intros _ I I' J g Hc. pose proof (contained_lowest I I' Hc) as Hl.
    unfold sat. destruct (lowest J) as [[| j]|]; rewrite !mem_lowest.
    + rewrite !lowest_principal. destruct (fst g =? 0); [done|]. simpl.
      destruct (lowest I) as [a|]; simpl; [|done].
      intros Hle. eapply below_trans; eauto.
    + destruct (fst g =? 0); [done|]. simpl.
      destruct (lowest I) as [a|]; simpl; [|done].
      specialize (Hl a eq_refl). destruct (lowest I'); [done|done].
    + done.
  - (* minbase_mem *)
    intros _ I g. unfold minbase. by rewrite !mem_lowest, lowest_principal.
  - done.
  - done.
  - (* dimension_full *)
    intros _ I g. unfold dimension.
    destruct (lowest I) as [[| m]|] eqn:E; try done.
    intros _ Hin. rewrite mem_lowest.
    by rewrite (lowest_none_zero I g E Hin).
  - (* multiples_mem *)
    intros _ I g k h. unfold multiples. intros Hg [<- | []].
    rewrite mem_lowest in *. simpl.
    destruct (fst g =? 0); [done|]. simpl in *.
    eapply below_trans; [exact Hg|]. apply Nat.leb_le. lia.
  - (* combination_mem *)
    intros _ I cs Bs Hg. rewrite mem_lowest.
    destruct (Z.eqb_spec (fst (combination cs Bs)) 0) as [|Hne]; [done|].
    simpl. destruct (first_exponent_in Bs cs Hne) as (b & Hin & Hnz & He).
    specialize (Hg b Hin). rewrite mem_lowest in Hg.
    unfold nonzero in Hnz. destruct (fst b =? 0); [done|].
    simpl in Hg. by rewrite <- He.
Qed.

End P0_facts.

Section Variety_algebra.
Context `{B : Backend} {L : BackendLaws B}.

Implicit Types X Y Z : Embedded_projective_variety.

(** C2. For varieties of one ambient space, [X.is_subset(Y)] is true
    exactly when every generator of the ideal of [Y] lies in the ideal of
    [X], and [X == Y] is true exactly when [X.is_subset(Y)] and
    [Y.is_subset(X)] both are. *)
Theorem is_subset_iff_generators_eq_iff_mutual X Y :
  ambient_space X = ambient_space Y ->
  same_object_coherent X Y ->
  (is_subset X Y = true <->
     forall g, In g (defining_ideal Y) ->
               ideal_mem (ambient_space X) g (defining_ideal X) = true)
  /\ (__eq__ X Y = true <-> is_subset X Y = true /\ is_subset Y X = true).
Proof.
  intros Hsp Hco. split.
  - rewrite (is_subset_gens_in X Y Hsp Hco). apply gens_in_spec.
  - unfold __eq__. destruct (is_subset X Y); simpl; intuition congruence.
Qed.

(** *** Facts used for the set operations *)

Lemma init_ok (R : space) (ps : list poly) (w : world) :
  base_ring_in_fields R = true ->
  __init__ R ps w
  = (Ok (Variety (Fresh (next_id w)) R ps None None ∅),
     World (S (next_id w)) (rng_pos w)).
Proof. intros HR. unfold __init__. rewrite HR. reflexivity. Qed.

Lemma dim_computed X :
  caches_computed X ->
  dim X = Z.max (scheme_dimension (ambient_space X) (defining_ideal X)) (-1).
Proof.
  intros [Hd _]. unfold dim, dimension.
  destruct (_dimension X) as [d|] eqn:E; simpl; [by apply Hd | done].
Qed.

Lemma codim_computed X :
  caches_computed X ->
  codim X = space_dimension (ambient_space X)
            - Z.max (scheme_dimension (ambient_space X) (defining_ideal X))
                    (-1).
Proof.
  intros [Hd Hc]. unfold codim, codimension.
  destruct (_codimension X) as [c|] eqn:E; simpl; [by apply Hc|].
  unfold dimension. destruct (_dimension X) as [d|] eqn:E'; simpl; [|done].
  by rewrite (Hd d eq_refl).
Qed.

Lemma zero_ideal_least (R : space) (I : list poly) (g : poly) :
  ideal_mem R g [pzero] = true -> ideal_mem R g I = true.
Proof.
  apply mem_least. intros h [<- | []]. apply zero_mem.
Qed.

Lemma mem_nil_zero (R : space) (g : poly) :
  ideal_mem R g [] = ideal_mem R g [pzero].
Proof.
  destruct (ideal_mem R g []) eqn:E1, (ideal_mem R g [pzero]) eqn:E2;
    try done.
  - rewrite <- E2. symmetry. eapply mem_least; [|exact E1]. by intros h [].
  - rewrite <- E1. by apply zero_ideal_least.
Qed.

Lemma mem_defining_ideal (o : oid) (R : space) (ps : list poly)
    (d c : option Z) (m : gmap Z (list poly)) (g : poly) :
  ideal_mem R g (defining_ideal (Variety o R ps d c m)) = ideal_mem R g ps.
Proof.
  unfold defining_ideal. simpl. destruct ps; [|done].
  by rewrite mem_nil_zero.
Qed.

Lemma is_subset_of_whole X Y :
  ambient_space X = ambient_space Y -> whole Y -> is_subset X Y = true.
Proof.
  intros Hsp HY. unfold is_subset.
  destruct (oid_eqb (vid X) (vid Y)); [done|].
  rewrite Hsp, space_eqb_refl. simpl. apply forallb_forall.
  intros g Hg. apply zero_ideal_least. by apply HY.
Qed.

Lemma ambient_space_ambient X : ambient_space (ambient X) = ambient_space X.
Proof. unfold ambient. by destruct (codim X =? 0). Qed.

Lemma whole_ambient X : caches_computed X -> whole (ambient X).
Proof.
  intros HX. unfold ambient.
  destruct (Z.eqb_spec (codim X) 0) as [Hc | Hc].
  - intros g Hg. eapply dimension_full; [|exact Hg].
    rewrite (codim_computed X HX) in Hc.
    pose proof (space_dimension_nonneg (ambient_space X)). lia.
  - intros g [<- | []]. apply zero_mem.
Qed.

Lemma ambients_equal X Y :
  ambient_space X = ambient_space Y ->
  caches_computed X -> caches_computed Y ->
  __ne__ (ambient X) (ambient Y) = false.
Proof.
  intros Hsp HX HY. unfold __ne__, __eq__.
  rewrite !is_subset_of_whole; try done; try by apply whole_ambient.
  all: by rewrite !ambient_space_ambient.
Qed.

Lemma union_runs X Y (w : world) :
  ambient_space X = ambient_space Y ->
  base_ring_in_fields (ambient_space X) = true ->
  caches_computed X -> caches_computed Y ->
  union X Y w
  = (Ok (Variety (Fresh (next_id w)) (ambient_space X)
           (_minbase (ambient_space X)
              (ideal_intersection (ambient_space X)
                 (defining_ideal X) (defining_ideal Y)))
           None None ∅),
     World (S (next_id w)) (rng_pos w)).
Proof.
  intros Hsp HR HX HY. unfold union.
  rewrite (ambients_equal X Y Hsp HX HY). by apply init_ok.
Qed.

Lemma intersection_runs X Y (w : world) :
  ambient_space X = ambient_space Y ->
  base_ring_in_fields (ambient_space X) = true ->
  caches_computed X -> caches_computed Y ->
  intersection X Y w
  = (Ok (Variety (Fresh (next_id w)) (ambient_space X)
           (_minbase (ambient_space X)
              (ideal_saturation (ambient_space X)
                 (ideal_sum (ambient_space X)
                    (defining_ideal X) (defining_ideal Y))
                 (irrelevant_ideal (ambient_space X))))
           None None ∅),
     World (S (next_id w)) (rng_pos w)).
Proof.
  intros Hsp HR HX HY. unfold intersection.
  rewrite (ambients_equal X Y Hsp HX HY). by apply init_ok.
Qed.

(** [is_subset] from a newly built object *)
Lemma is_subset_new (n : nat) (R : space) (ps : list poly) Z :
  (oid_base (vid Z) < n)%nat -> R = ambient_space Z ->
  is_subset (Variety (Fresh n) R ps None None ∅) Z
  = forallb (fun g => ideal_mem R g ps) (defining_ideal Z).
Proof.
  intros Hlt ->. unfold is_subset. cbn [vid ambient_space].
  rewrite (oid_eqb_fresh _ _ Hlt), space_eqb_refl. cbn [negb].
  generalize (defining_ideal Z). intros l.
  induction l as [| g l IH]; simpl; [done|].
  rewrite IH. f_equal.
  apply (mem_defining_ideal (Fresh n) (ambient_space Z) ps None None ∅).
Qed.

(** C4. For varieties of one ambient space, [X.union(Y).is_subset(Z)] is
    true exactly when [X.is_subset(Z)] and [Y.is_subset(Z)] both are. *)
Theorem union_is_subset_iff X Y Z (w : world) :
  object_of w X -> object_of w Y -> object_of w Z ->
  ambient_space X = ambient_space Y ->
  ambient_space X = ambient_space Z ->
  same_object_coherent X Z -> same_object_coherent Y Z ->
  exists U w',
    union X Y w = (Ok U, w')
    /\ (is_subset U Z = true <->
        is_subset X Z = true /\ is_subset Y Z = true).
Proof.
  intros (HRX & _ & HcX) (_ & _ & HcY) (_ & HltZ & _) HXY HXZ HcoX HcoY.
  eexists _, _. split; [by apply union_runs|].
  rewrite (is_subset_new _ _ _ Z HltZ HXZ).
  rewrite (is_subset_gens_in X Z HXZ HcoX).
  rewrite (is_subset_gens_in Y Z) by (done || congruence).
  unfold gens_in. rewrite !forallb_forall. rewrite <- HXY.
  split.
  - intros H. split; intros g Hg; specialize (H g Hg);
      rewrite minbase_mem, intersection_mem in H;
      apply andb_true_iff in H; tauto.
  - intros [H1 H2] g Hg.
    rewrite minbase_mem, intersection_mem, H1, H2; done.
Qed.

End Variety_algebra.

Section Ambient_space_laws.
Context `{B : Backend} {L : BackendLaws B}.

Implicit Types X Y Z : Embedded_projective_variety.

Lemma caches_computed_ambient X :
  caches_computed X -> caches_computed (ambient X).
Proof.
  intros HX. unfold ambient. destruct (codim X =? 0); [done|].
  split; intros ? [=].
Qed.

Lemma oid_base_ambient X : oid_base (vid (ambient X)) = oid_base (vid X).
Proof. unfold ambient. by destruct (codim X =? 0). Qed.

(** [is_subset] into a newly built object *)
Lemma is_subset_to_new (n : nat) (R : space) (ps : list poly) Z :
  (oid_base (vid Z) < n)%nat -> ambient_space Z = R ->
  is_subset Z (Variety (Fresh n) R ps None None ∅) = true <->
  forall g, In g ps -> ideal_mem R g (defining_ideal Z) = true.
Proof.
  intros Hlt <-. unfold is_subset. cbn [vid ambient_space].
  rewrite oid_eqb_sym, (oid_eqb_fresh _ _ Hlt), space_eqb_refl. cbn [negb].
  rewrite forallb_forall. unfold defining_ideal at 2. cbn [defining_polynomials].
  destruct ps as [| p ps]; [|done].
  split; [by intros _ g [] | intros _ g [<- | []]; apply zero_mem].
Qed.

(** C3 (amended). For every variety [X], [X.union(X.ambient()) ==
    X.ambient()] holds and [X.intersection(X.ambient())] is contained in
    [X]; [X.intersection(X.ambient()) == X] holds exactly when the ideal
    of [X] is saturated with respect to the irrelevant ideal. *)
Theorem ambient_absorbs_union_and_intersection_of_saturated X (w : world) :
  object_of w X ->
  exists U V w1 w2,
    union X (ambient X) w = (Ok U, w1)
    /\ __eq__ U (ambient X) = true
    /\ intersection X (ambient X) w = (Ok V, w2)
    /\ is_subset V X = true
    /\ (__eq__ V X = true <-> saturated X).
Proof.
  intros (HR & Hlt & HcX).
  pose proof (caches_computed_ambient X HcX) as HcA.
  pose proof (whole_ambient X HcX) as HwA.
  pose proof (ambient_space_ambient X) as HsA.
  assert (HltA : (oid_base (vid (ambient X)) < next_id w)%nat)
    by (by rewrite oid_base_ambient).
  eexists _, _, _, _.
  split; [apply union_runs; done|].
  split.
  { unfold __eq__. rewrite is_subset_of_whole by done. cbn [negb].
    apply is_subset_to_new; [done | done |].
    intros g Hg. apply (gens_mem (ambient_space X)) in Hg.
    rewrite minbase_mem, intersection_mem in Hg.
    apply andb_true_iff in Hg as [_ Hg]. exact Hg. }
  split; [apply intersection_runs; done|].
  assert (Hsub : is_subset
            (Variety (Fresh (next_id w)) (ambient_space X)
               (_minbase (ambient_space X)
                  (ideal_saturation (ambient_space X)
                     (ideal_sum (ambient_space X) (defining_ideal X)
                        (defining_ideal (ambient X)))
                     (irrelevant_ideal (ambient_space X)))) None None ∅) X
            = true).
  { rewrite is_subset_new by done. apply forallb_forall. intros g Hg.
    rewrite minbase_mem. apply saturation_extensive, sum_mem_l.
    by apply gens_mem. }
  split; [exact Hsub|].
  unfold __eq__. rewrite Hsub. cbn [negb].
  rewrite is_subset_to_new by done.
  split.
  - intros Hin g Hg. eapply mem_least; [exact Hin|].
    rewrite minbase_mem. eapply saturation_monotone; [|exact Hg].
    intros h. apply sum_mem_l.
  - intros Hsat g Hg. apply Hsat. apply (gens_mem (ambient_space X)) in Hg.
    rewrite minbase_mem in Hg. eapply saturation_monotone; [|exact Hg].
    intros h. apply sum_least.
    + intros h' Hh'. by apply gens_mem.
    + intros h' Hh'. apply zero_ideal_least.
      rewrite <- HsA. by apply HwA.
Qed.

End Ambient_space_laws.

Section Dimension_properties.
Context `{B : Backend} {L : BackendLaws B} {Dl : DimensionLaws B}.

Implicit Types X : Embedded_projective_variety.

(** C10 (amended). For a variety [X] whose caches, if filled, were
    filled by the methods, [X.dimension()] is the dimension of the scheme
    clamped at -1, so never below -1, and it is cached; [X.codimension()]
    is the dimension of the ambient space minus it; [X.dimension() < 0]
    holds exactly when the scheme has no points; and the empty subscheme
    [X.empty()] has dimension -1, codimension the dimension of the
    ambient space plus 1, and no points. *)
Theorem dimension_at_least_minus_one_and_empty X (w : world) :
  caches_computed X ->
  base_ring_in_fields (ambient_space X) = true ->
  fst (dimension X)
  = Z.max (scheme_dimension (ambient_space X) (defining_ideal X)) (-1)
  /\ -1 <= fst (dimension X)
  /\ dimension (snd (dimension X)) = dimension X
  /\ caches_computed (snd (dimension X))
  /\ fst (codimension X)
     = space_dimension (ambient_space X) - fst (dimension X)
  /\ (fst (dimension X) < 0 <-> no_points X)
  /\ exists E w',
       empty X w = (Ok E, w')
       /\ fst (dimension E) = -1
       /\ (fst (dimension E) <? 0) = true
       /\ fst (codimension E) = space_dimension (ambient_space X) + 1
       /\ no_points E.
Proof.
  intros HcX HR.
  pose proof (dim_computed X HcX) as Hdim. unfold dim in Hdim.
  split; [exact Hdim|]. split; [lia|]. split; [|split; [|split; [|split]]].
  - unfold dimension. destruct (_dimension X) as [d|] eqn:E; simpl.
    + by rewrite E.
    + reflexivity.
  - unfold dimension.
    destruct (_dimension X) as [d|] eqn:E; simpl; [exact HcX|].
    destruct HcX as [_ Hc]. split; [by intros d [= <-] | exact Hc].
  - rewrite Hdim. destruct HcX as [Hd Hc]. unfold codimension.
    destruct (_codimension X) as [c|] eqn:E; simpl; [by apply Hc|].
    unfold dimension. destruct (_dimension X) as [d|] eqn:E'; simpl.
    + by rewrite (Hd d eq_refl).
    + reflexivity.
  - rewrite Hdim. unfold no_points. rewrite <- dimension_negative. lia.
  - eexists _, _. split; [unfold empty; by apply init_ok|].
    pose proof (dimension_unit_ideal (ambient_space X)) as Hu.
    unfold codimension, dimension, defining_ideal, no_points. simpl.
    split; [lia|]. split; [apply Z.ltb_lt; lia|]. split; [lia|].
    apply saturation_extensive, gens_mem. by left.
Qed.

End Dimension_properties.

Section Random_complete_intersection.
Context `{B : Backend} {L : BackendLaws B}.

Implicit Types X Y : Embedded_projective_variety.

Lemma draws_runs (n : nat) (w : world) :
  exists ss w', draws n w = (Ok ss, w') /\ next_id w' = next_id w.
Proof.
  revert w. induction n as [| n IH]; intros w; simpl.
  - by eexists _, _.
  - unfold bind at 1. simpl.
    destruct (IH (World (next_id w) (S (rng_pos w)))) as (ss & w' & E & Hn).
    unfold bind. rewrite E. by eexists _, _.
Qed.

Lemma random_combinations_runs (R : space) (I Bs : list poly) (k : nat)
    (w : world) :
  (forall h, In h Bs -> ideal_mem R h I = true) ->
  exists l w',
    random_combinations R Bs k w = (Ok l, w')
    /\ next_id w' = next_id w
    /\ forall h, In h l -> ideal_mem R h I = true.
Proof.
  intros HBs. revert w. induction k as [| k IH]; intros w; simpl.
  - eexists _, _. repeat split. by intros h [].
  - unfold bind at 1, random_combination. unfold bind at 1.
    destruct (draws_runs (length Bs) w) as (ss & w1 & E1 & Hn1).
    rewrite E1. cbn [ret].
    destruct (IH w1) as (l & w2 & E2 & Hn2 & Hl).
    unfold bind. rewrite E2. eexists _, _. repeat split; [congruence|].
    intros h [<- | Hin]; [by apply combination_mem | by apply Hl].
Qed.

Lemma homogeneous_component_in_ideal X (n : Z) (h : poly) :
  components_in_ideal X ->
  In h (fst (_homogeneous_component X n false)) ->
  ideal_mem (ambient_space X) h (defining_ideal X) = true.
Proof.
  intros Hc. unfold _homogeneous_component.
  destruct (_homogeneous_components_ideal X !! n) as [Bs|] eqn:E; simpl.
  - by apply (Hc n Bs h).
  - rewrite andb_false_r. intros Hin.
    apply in_flat_map in Hin as (g & Hg & Hin).
    destruct (poly_degree g <=? n); [|done].
    eapply multiples_mem; [|exact Hin]. by apply gens_mem.
Qed.

Lemma random_loop_in_ideal X (args degs : list Z) (Ls : list poly)
    (w : world) :
  components_in_ideal X ->
  (forall h, In h Ls -> ideal_mem (ambient_space X) h (defining_ideal X) = true) ->
  exists Ls' w',
    random_loop X args degs Ls w = (Ok Ls', w')
    /\ next_id w' = next_id w
    /\ forall h, In h Ls' ->
         ideal_mem (ambient_space X) h (defining_ideal X) = true.
Proof.
  intros Hc. revert Ls w. induction degs as [| i degs IH]; intros Ls w HLs.
  - simpl. by eexists _, _.
  - simpl.
    destruct (random_combinations_runs (ambient_space X) (defining_ideal X)
                (fst (_homogeneous_component X i false)) (count i args) w)
      as (l & w1 & E1 & Hn1 & Hl).
    { intros h. by apply homogeneous_component_in_ideal. }
    unfold bind. rewrite E1.
    destruct (IH (Ls ++ l) w1) as (Ls' & w2 & E2 & Hn2 & HLs').
    { intros h Hin. apply in_app_or in Hin as [? | ?]; auto. }
    rewrite E2. eexists _, _. repeat split; [congruence | done].
Qed.

Lemma random_cut_runs X (args : list Z) (w : world) :
  base_ring_in_fields (ambient_space X) = true ->
  components_in_ideal X ->
  exists Ls w',
    random_cut X args w
    = (Ok (Variety (Fresh (next_id w)) (ambient_space X) Ls None None ∅), w')
    /\ forall h, In h Ls ->
         ideal_mem (ambient_space X) h (defining_ideal X) = true.
Proof.
  intros HR Hc. unfold random_cut.
  destruct (random_loop_in_ideal X args (remove_dups args) [] w Hc)
    as (Ls & w1 & E & Hn & HLs); [by intros h []|].
  unfold bind. rewrite E, (init_ok _ _ _ HR), Hn. by eexists _, _.
Qed.

Lemma codim_ambient X : caches_computed X -> codim (ambient X) = 0.
Proof.
  intros HX. unfold ambient.
  destruct (Z.eqb_spec (codim X) 0) as [E | E]; [done|].
  unfold codim, codimension, dimension, defining_ideal. simpl.
  rewrite dimension_zero_ideal.
  pose proof (space_dimension_nonneg (ambient_space X)). lia.
Qed.

Lemma is_subset_ambient X : caches_computed X -> is_subset X (ambient X) = true.
Proof.
  intros HX. apply is_subset_of_whole; [|by apply whole_ambient].
  by rewrite ambient_space_ambient.
Qed.

(** C9. [X.random(d1, ..., dk)] raises when [k] exceeds the codimension
    of [X], and when the variety cut out by the [k] random combinations
    does not have codimension [k]; when it returns, the result has
    codimension [k] and contains [X]. *)
Theorem random_raises_or_returns_complete_intersection X (args : list Z)
    (w : world) :
  object_of w X -> components_in_ideal X ->
  let k := Z.of_nat (length args) in
  (0 < k -> codim X < k -> exists e w', random X args w = (Raise e, w'))
  /\ (forall Y w1,
        0 < k -> forallb (fun i => 0 <? i) args = true ->
        codim X <> 0 -> k <= codim X ->
        random_cut X args w = (Ok Y, w1) -> codim Y <> k ->
        exists e, random X args w = (Raise e, w1))
  /\ (forall Y w',
        random X args w = (Ok Y, w') ->
        codim Y = k /\ is_subset X Y = true).
Proof.
  intros (HR & Hlt & HcX) Hc k. unfold random. fold k.
  split; [|split].
  - intros Hk Hlt'. destruct (Z.eqb_spec k 0); [lia|].
    destruct (forallb _ args); simpl; [|by eexists _, _].
    destruct (codim X =? 0); [by eexists _, _|].
    destruct (Z.ltb_spec (codim X) k); [by eexists _, _ | lia].
  - intros Y w1 Hk Hpos Hne Hle Hcut HY.
    destruct (Z.eqb_spec k 0); [lia|]. rewrite Hpos. simpl.
    destruct (Z.eqb_spec (codim X) 0); [done|].
    destruct (Z.ltb_spec (codim X) k); [lia|].
    unfold bind. rewrite Hcut. unfold codim in HY.
    destruct (codimension Y) as [c Y']. simpl in HY.
    destruct (Z.eqb_spec c k); [done|]. by eexists.
  - intros Y w'. destruct (Z.eqb_spec k 0) as [Hk | Hk].
    + intros [= <- <-]. rewrite Hk.
      split; [by apply codim_ambient | by apply is_subset_ambient].
    + destruct (forallb _ args); simpl; [|done].
      destruct (codim X =? 0); [done|].
      destruct (codim X <? k); [done|].
      destruct (random_cut_runs X args w HR Hc) as (Ls & w1 & E & HLs).
      unfold bind. rewrite E.
      destruct (codimension _) as [c Y'] eqn:Ec.
      destruct (Z.eqb_spec c k) as [-> | ?]; [|done]. simpl.
      intros [= <- <-].
      unfold codimension, dimension in Ec. simpl in Ec.
      injection Ec as <- <-.
      split; [reflexivity|].
      unfold is_subset. cbn [vid set_codimension set_dimension ambient_space].
      rewrite oid_eqb_sym, (oid_eqb_fresh _ _ Hlt), space_eqb_refl.
      cbn [negb]. apply forallb_forall.
      unfold defining_ideal at 1. cbn [defining_polynomials].
      destruct Ls as [| p Ls]; [intros g [<- | []]; apply zero_mem|].
      intros g Hg. by apply HLs.
Qed.

End Random_complete_intersection.

(** ** The set algebra at concrete subschemes of the space of dimension 0 *)

Module P0_variety_facts.
Import P0_varieties.

Ltac object_of_world :=
  split; [reflexivity | split; [simpl; lia | split; intros ? [=]]].

Lemma is_subset_iff_generators_eq_iff_mutual_witness :
  (is_subset cut_by_x0_squared cut_by_x0_squared_and_cubed = true <->
     forall g, In g (defining_ideal cut_by_x0_squared_and_cubed) ->
               ideal_mem (ambient_space cut_by_x0_squared) g
                         (defining_ideal cut_by_x0_squared) = true)
  /\ (__eq__ cut_by_x0_squared cut_by_x0_squared_and_cubed = true <->
        is_subset cut_by_x0_squared cut_by_x0_squared_and_cubed = true
        /\ is_subset cut_by_x0_squared_and_cubed cut_by_x0_squared = true).
Proof.
  apply (is_subset_iff_generators_eq_iff_mutual (L := P0_facts.laws)
           cut_by_x0_squared cut_by_x0_squared_and_cubed).
  - reflexivity.
  - intros [=].
Defined.

(** The two presentations of the double point are equal varieties. *)
Example eq_is_independent_of_generators :
  __eq__ cut_by_x0_squared cut_by_x0_squared_and_cubed = true
  /\ defining_polynomials cut_by_x0_squared <> defining_polynomials cut_by_x0_squared_and_cubed.
Proof. split; [reflexivity | discriminate]. Qed.

Lemma union_is_subset_iff_witness :
  exists U w',
    union cut_by_x0_squared cut_by_x0 w4 = (Ok U, w')
    /\ (is_subset U cut_by_x0_squared_and_cubed = true <->
        is_subset cut_by_x0_squared cut_by_x0_squared_and_cubed = true
        /\ is_subset cut_by_x0 cut_by_x0_squared_and_cubed = true).
Proof.
  apply (union_is_subset_iff (L := P0_facts.laws)
           cut_by_x0_squared cut_by_x0 cut_by_x0_squared_and_cubed w4).
  - object_of_world.
  - object_of_world.
  - object_of_world.
  - reflexivity.
  - reflexivity.
  - intros [=].
  - intros [=].
Defined.

Lemma ambient_absorbs_union_and_intersection_of_saturated_witness :
  exists U V' w1 w2,
    union cut_by_x0 (ambient cut_by_x0) w4 = (Ok U, w1)
    /\ __eq__ U (ambient cut_by_x0) = true
    /\ intersection cut_by_x0 (ambient cut_by_x0) w4 = (Ok V', w2)
    /\ is_subset V' cut_by_x0 = true
    /\ (__eq__ V' cut_by_x0 = true <-> saturated cut_by_x0).
Proof.
  apply (ambient_absorbs_union_and_intersection_of_saturated
           (L := P0_facts.laws) cut_by_x0 w4).
  object_of_world.
Defined.

(** C3, as stated, fails for a defining ideal that is not saturated: the
    intersection of [x0^2 = 0] with its ambient space has the ideal of
    [1], and [1] does not lie in the ideal of [x0^2]. *)
Lemma intersection_with_ambient_not_equal_when_not_saturated :
  exists V' w',
    intersection cut_by_x0_squared (ambient cut_by_x0_squared) w4 = (Ok V', w')
    /\ __eq__ V' cut_by_x0_squared = false.
Proof.
  eexists _, _. split; [vm_compute; reflexivity|]. vm_compute. reflexivity.
Qed.

(** For the whole space, whose ideal is saturated, the intersection with
    the ambient space is the variety again. *)
Example intersection_with_ambient_equal_when_saturated :
  exists V' w',
    intersection whole_space (ambient whole_space) w4 = (Ok V', w')
    /\ __eq__ V' whole_space = true.
Proof.
  eexists _, _. split; [vm_compute; reflexivity|]. vm_compute. reflexivity.
Qed.

Lemma p0_dimension_laws : DimensionLaws P0.backend.
Proof.
  split. intros [] I. simpl. unfold P0.dimension, P0.sat, P0.mem. simpl.
  destruct (P0.lowest I) as [[| e] |]; simpl; split; (done || lia).
Qed.

Lemma dimension_at_least_minus_one_and_empty_witness :
  let X := cut_by_x0_squared in
  fst (dimension X)
  = Z.max (scheme_dimension (ambient_space X) (defining_ideal X)) (-1)
  /\ -1 <= fst (dimension X)
  /\ dimension (snd (dimension X)) = dimension X
  /\ caches_computed (snd (dimension X))
  /\ fst (codimension X)
     = space_dimension (ambient_space X) - fst (dimension X)
  /\ (fst (dimension X) < 0 <-> no_points X)
  /\ exists E w',
       empty X w4 = (Ok E, w')
       /\ fst (dimension E) = -1
       /\ (fst (dimension E) <? 0) = true
       /\ fst (codimension E) = space_dimension (ambient_space X) + 1
       /\ no_points E.
Proof.
  apply (dimension_at_least_minus_one_and_empty (L := P0_facts.laws)
           (Dl := p0_dimension_laws) cut_by_x0_squared w4).
  - split; intros ? [=].
  - reflexivity.
Defined.

(** The subscheme cut out by [x0^2] has no points and dimension -1; the
    whole space has a point and dimension 0. *)
Example dimension_tells_emptiness :
  fst (dimension cut_by_x0_squared) = -1
  /\ no_points cut_by_x0_squared
  /\ fst (dimension whole_space) = 0
  /\ ~ no_points whole_space.
Proof. repeat split; vm_compute; congruence. Qed.

Lemma random_raises_or_returns_complete_intersection_witness :
  (0 < 1 -> codim cut_by_x0 < 1 ->
     exists e w', random cut_by_x0 [1] w4 = (Raise e, w'))
  /\ (forall Y w1,
        0 < 1 -> forallb (fun i => 0 <? i) [1] = true ->
        codim cut_by_x0 <> 0 -> 1 <= codim cut_by_x0 ->
        random_cut cut_by_x0 [1] w4 = (Ok Y, w1) -> codim Y <> 1 ->
        exists e, random cut_by_x0 [1] w4 = (Raise e, w1))
  /\ (forall Y w',
        random cut_by_x0 [1] w4 = (Ok Y, w') ->
        codim Y = 1 /\ is_subset cut_by_x0 Y = true).
Proof.
  apply (random_raises_or_returns_complete_intersection
           (L := P0_facts.laws) cut_by_x0 [1] w4).
  - object_of_world.
  - intros n Bs h Hn. simpl in Hn. rewrite lookup_empty in Hn. discriminate Hn.
Defined.

(** [random] does return at this input, and raises for two degrees. *)
Example random_returns :
  exists Y w', random cut_by_x0 [1] w4 = (Ok Y, w')
               /\ defining_polynomials Y = [(1, 1%nat)].
Proof. eexists _, _. split; vm_compute; reflexivity. Qed.

Example random_raises_for_too_many_degrees :
  fst (random cut_by_x0 [1; 1] w4)
  = Raise (ValueError "too many degrees are given").
Proof. vm_compute. reflexivity. Qed.

End P0_variety_facts.

(** A virtual surface in the projective space of dimension 5. *)
Module Virtual_surface_facts.

(** C10, as stated, fails for a virtual surface: its constructor builds
    it from the empty subscheme and sets [_dimension] to 2, so
    [dimension()] returns 2, not below 0, for an object that is equal to
    its empty subscheme, whose scheme has dimension -1. *)
Lemma virtual_surface_has_dimension_two_and_no_points :
  exists S E w1 w',
    _Virtual_projective_surface__init__ (B := Coordinate_subspaces.backend) tt
      Coordinate_subspaces.w2 = (Ok S, w1)
    /\ defining_polynomials S = [Coordinate_subspaces.One]
    /\ fst (dimension S) = 2
    /\ (fst (dimension S) <? 0) = false
    /\ Z.max (scheme_dimension (ambient_space S) (defining_ideal S)) (-1)
       = -1
    /\ empty S w1 = (Ok E, w')
    /\ __eq__ S E = true
    /\ fst (dimension E) = -1.
Proof.
  eexists _, _, _, _.
  split; [vm_compute; reflexivity|].
  repeat split; vm_compute; reflexivity.
Qed.

End Virtual_surface_facts.

(** ** Composition and inversion of rational maps *)

Section Rational_map_properties.
Context `{B : Backend}.

Implicit Types f g m : Rational_map_between_embedded_projective_varieties.
Implicit Types s : store.



Lemma Rational_map_init_returns (X Y : Embedded_projective_variety)
    (polys : list poly) s (l : nat) s' :
  Rational_map__init__ X Y polys s = (Ok l, s') ->
  l = next_id (st_world s)
  /\ exists m,
       s' = Store (World (S l) (rng_pos (st_world s))) (<[l := m]> (st_maps s))
       /\ _source m = X /\ _target m = Y
       /\ _is_isomorphism m = None
       /\ _is_birational m = None
       /\ _is_dominant m = (if dim Y <? 0 then Some true else None)
       /\ _is_morphism m = None
       /\ _inverse_rational_map m = None.
Proof.
  unfold Rational_map__init__.
  destruct (negb (base_ring_is _ _)); [discriminate|].
  destruct (negb (_ =? dim (ambient Y) + 1)); [discriminate|].
  destruct (negb (polys_ring_ngens polys =? _)); [discriminate|].
  destruct (scheme_morphism_init _ _ _); [discriminate|].
  destruct (map form_degree _) as [| d ds]; [discriminate|].
  destruct (negb (list_max d ds =? list_min d ds)); [discriminate|].
  unfold new_map. intros [= <- <-]. split; [done|].
  eexists. split; [reflexivity|]. simpl. repeat split.
Qed.

(** C5 (amended). When [self.compose(f)] returns, the flags
    [_is_isomorphism], [_is_birational] and [_is_morphism] of the new map
    are [True] exactly when the flag is [True] on both [self] and [f], and
    unknown otherwise; [_is_dominant] is [True] exactly when it is [True]
    on both or the target of [f] has negative dimension, and unknown
    otherwise; the new map is a new object and no attribute of an object
    that existed before the call has changed. *)
Theorem compose_conjoins_flags_and_keeps_operands
    (self fl : nat) s sm fm (l : nat) s' :
  next_free s ->
  st_maps s !! self = Some sm ->
  st_maps s !! fl = Some fm ->
  compose self (Rat fl) s = (Ok l, s') ->
  st_maps s !! l = None
  /\ (forall l' m, st_maps s !! l' = Some m -> st_maps s' !! l' = Some m)
  /\ exists g,
       st_maps s' !! l = Some g
       /\ _is_isomorphism g = both_true (_is_isomorphism sm) (_is_isomorphism fm)
       /\ _is_birational g = both_true (_is_birational sm) (_is_birational fm)
       /\ _is_morphism g = both_true (_is_morphism sm) (_is_morphism fm)
       /\ _is_dominant g
          = if (is_true (_is_dominant sm) && is_true (_is_dominant fm))
               || (dim (_target fm) <? 0)
            then Some true else None.
Proof.
  intros Hfree Hs Hf. unfold compose, bind, the_map. rewrite Hs, Hf.
  destruct (composition_polys _ _) as [gpolys | e]; [|discriminate].
  destruct (Rational_map__init__ _ _ _ s) as [[l0 | e] s1] eqn:E;
    [|discriminate].
  apply Rational_map_init_returns in E
    as (-> & m & -> & _ & _ & Hi & Hb & Hd & Hm & _).
  simpl. rewrite lookup_insert_eq. unfold put_map, ret. simpl.
  intros [= <- <-]. simpl.
  split; [exact Hfree|]. split.
  - intros l' m' Hl'. rewrite insert_insert_eq.
    rewrite lookup_insert_ne; [done|]. intros <-.
    unfold next_free in Hfree. congruence.
  - eexists. split; [apply lookup_insert_eq|].
    unfold both_true.
    destruct (is_true (_is_isomorphism sm) && is_true (_is_isomorphism fm)),
      (is_true (_is_birational sm) && is_true (_is_birational fm)),
      (is_true (_is_dominant sm) && is_true (_is_dominant fm)),
      (is_true (_is_morphism sm) && is_true (_is_morphism fm)),
      (dim (_target fm) <? 0); simpl; rewrite ?Hi, ?Hb, ?Hd, ?Hm; done.
Qed.

End Rational_map_properties.

Section Inverse_properties.
Context `{B : Backend}.

Implicit Types f g m : Rational_map_between_embedded_projective_varieties.
Implicit Types s : store.

Lemma from_macaulay2map_keeps (g2 : macaulay2_map)
    (X Y : Embedded_projective_variety) s (l : nat) s' (a : nat) f :
  next_free s -> st_maps s !! a = Some f ->
  _from_macaulay2map_to_sagemap g2 X Y s = (Ok l, s') ->
  st_maps s' !! a = Some f.
Proof.
  intros Hfree Ha. destruct g2 as [k | polys d b]; simpl.
  - by intros [= <- <-].
  - unfold bind.
    destruct (Rational_map__init__ X Y polys s) as [[l0 | e] s1] eqn:E;
      [|discriminate].
    apply Rational_map_init_returns in E as (-> & m & -> & _).
    unfold the_map. simpl. rewrite lookup_insert_eq.
    unfold put_map, ret. simpl. intros [= <- <-]. simpl.
    rewrite insert_insert_eq, lookup_insert_ne; [done|].
    intros <-. unfold next_free in Hfree. congruence.
Qed.

(** A cached inverse is returned as it is, before any test. *)
Lemma inverse_returns_cached (env : inverse_oracle) (self g : nat)
    (check : bool) (algorithm : string) s f :
  st_maps s !! self = Some f ->
  _inverse_rational_map f = Some g ->
  inverse env self check algorithm s = (Ok g, s).
Proof.
  intros Hs Hg. unfold inverse, bind, the_map. by rewrite Hs, Hg.
Qed.

(** The store is not changed by writing back what it holds. *)
Lemma put_map_same (self : nat) s f :
  st_maps s !! self = Some f ->
  Store (st_world s) (<[self := f]> (st_maps s)) = s.
Proof. intros Hs. rewrite insert_id by done. by destruct s. Qed.

(** C6 (amended). For a map with no cached inverse, [inverse()] raises
    [ValueError] when birationality is not resolved to true and the
    dimensions of source and target differ, and when birationality or
    dominance is resolved to false.  These are all the tests of
    birationality the method makes itself.  For a map that passes them
    Macaulay2 is asked: its error is raised again as [Exception]; with
    [check=False] the outcome depends on nothing but its answer, so the
    map it returns is returned untested; and where [check=False] returns,
    [check=True] raises [AssertionError] if one of the two round trips at
    the sampled points fails.  When [inverse()] returns with
    [check=True], both round trips were true, and the map and the
    returned map hold each other in [_inverse_rational_map]. *)
Theorem inverse_raises_when_not_birational_and_caches_both_ways
    (env : inverse_oracle) (algorithm : string) s :
  next_free s ->
  (forall (self : nat) f (check : bool),
     st_maps s !! self = Some f ->
     _inverse_rational_map f = None ->
     (_is_birational f <> Some true
      /\ dim (_source f) <> dim (_target f))
     \/ _is_birational f = Some false \/ _is_dominant f = Some false ->
     exists s',
       inverse env self check algorithm s
       = (Raise (ValueError "the rational map is not birational"), s'))
  /\ (forall (self : nat) f,
        st_maps s !! self = Some f ->
        _inverse_rational_map f = None ->
        _is_birational f <> Some false ->
        _is_dominant f <> Some false ->
        _is_birational f = Some true
        \/ dim (_source f) = dim (_target f) ->
        algorithm = "macaulay2" ->
        (forall err (check : bool),
           m2_inverse env = Raise err ->
           inverse env self check algorithm s
           = (Raise (Exception (exn_message err)), s))
        /\ (forall env' : inverse_oracle,
              m2_inverse env' = m2_inverse env ->
              inverse env' self false algorithm s
              = inverse env self false algorithm s)
        /\ (forall (g : nat) s',
              inverse env self false algorithm s = (Ok g, s') ->
              (forall p,
                 point_on_source env = Ok p ->
                 round_trip_source env = Ok false ->
                 inverse env self true algorithm s
                 = (Raise AssertionError, s'))
              /\ (forall p q,
                    point_on_source env = Ok p ->
                    round_trip_source env = Ok true ->
                    point_on_target env = Ok q ->
                    round_trip_target env = Ok false ->
                    inverse env self true algorithm s
                    = (Raise AssertionError, s'))))
  /\ (forall (self : nat) f (g : nat) s',
        st_maps s !! self = Some f ->
        _inverse_rational_map f = None ->
        inverse env self true algorithm s = (Ok g, s') ->
        round_trip_source env = Ok true
        /\ round_trip_target env = Ok true
        /\ exists f' g',
             st_maps s' !! self = Some f'
             /\ st_maps s' !! g = Some g'
             /\ _is_birational f' = Some true
             /\ _inverse_rational_map f' = Some g
             /\ _inverse_rational_map g' = Some self).
Proof.
  intros Hfree. split; [|split].
  - intros self f check Hs Hinv Hnot.
    unfold inverse, bind, the_map. rewrite Hs, Hinv.
    unfold put_map. simpl.
    destruct Hnot as [[Hb Hdim] | [Hb | Hd]].
    + destruct (Z.eqb_spec (dim (_source f)) (dim (_target f))); [done|].
      destruct (_is_birational f) as [[|]|] eqn:Eb; try done; simpl;
        rewrite ?Eb; simpl; unfold raise; by eexists.
    + rewrite Hb. simpl. rewrite Hb. simpl. unfold raise. by eexists.
    + destruct (is_none (_is_birational f) && _); simpl;
        rewrite ?Hd, ?orb_true_r; unfold raise; by eexists.
  - intros self f Hs Hinv Hb Hd Hpass ->.
    assert (Hsame : (if is_none (_is_birational f)
                        && negb (dim (_source f) =? dim (_target f))
                     then set_is_birational f (Some false) else f) = f).
    { destruct Hpass as [-> | ->]; [done|].
      by rewrite Z.eqb_refl, andb_false_r. }
    assert (Hflags : is_false (_is_birational f)
                     || is_false (_is_dominant f) = false).
    { destruct (_is_birational f) as [[|]|], (_is_dominant f) as [[|]|];
        done. }
    assert (Hhead : forall (env0 : inverse_oracle) (check : bool),
              inverse env0 self check "macaulay2" s
              = match m2_inverse env0 with
                | Raise err => (Raise (Exception (exn_message err)), s)
                | Ok g2 =>
                    (g <- _from_macaulay2map_to_sagemap g2
                            (_target f) (_source f) ;;
                     gm <- the_map g ;;
                     _ <- assert (oid_eqb (vid (_source gm)) (vid (_target f))
                                  && oid_eqb (vid (_target gm))
                                             (vid (_source f))) ;;
                     if check then
                       p <- of_result (point_on_source env0) ;;
                       b <- of_result (round_trip_source env0) ;;
                       _ <- assert b ;;
                       q <- of_result (point_on_target env0) ;;
                       b <- of_result (round_trip_target env0) ;;
                       _ <- assert b ;;
                       s <- the_map self ;;
                       _ <- put_map self (set_is_birational s (Some true)) ;;
                       gm <- the_map g ;;
                       _ <- assert (is_true (_is_birational gm)) ;;
                       _ <- put_map g
                              (set_inverse_rational_map gm (Some self)) ;;
                       s <- the_map self ;;
                       _ <- put_map self
                              (set_inverse_rational_map s (Some g)) ;;
                       ret g
                     else ret g) s
                end).
    { intros env0 check. unfold inverse, bind at 1, the_map.
      rewrite Hs, Hinv, Hsame. unfold bind at 1, put_map.
      rewrite (put_map_same self s f Hs), Hflags. cbn [String.eqb negb].
      replace (String.eqb "macaulay2" "macaulay2") with true
        by (symmetry; apply String.eqb_refl).
      cbn [negb]. by destruct (m2_inverse env0). }
    split; [|split].
    + intros err check Herr. by rewrite Hhead, Herr.
    + intros env' Henv. by rewrite !Hhead, Henv.
    + intros g s'. rewrite !Hhead.
      destruct (m2_inverse env) as [g2 | err]; [|discriminate].
      unfold bind, of_result.
      destruct (_from_macaulay2map_to_sagemap g2 (_target f) (_source f) s)
        as [[l | e] s1]; [|discriminate].
      destruct (the_map l s1) as [[gm | e] s1']; [|discriminate].
      destruct (assert _ s1') as [[[] | e] s1'']; [|discriminate].
      unfold ret at 1. intros [= <- <-].
      split.
      * intros p Hp Hr. rewrite Hp, Hr. reflexivity.
      * intros p q Hp Hr Hq Hr'. rewrite Hp, Hr, Hq, Hr'. reflexivity.
  - intros self f g s' Hs Hinv.
    unfold inverse, bind at 1, the_map. rewrite Hs, Hinv.
    set (f1 := if is_none (_is_birational f)
                  && negb (dim (_source f) =? dim (_target f))
               then set_is_birational f (Some false) else f).
    unfold bind at 1, put_map. cbn [st_world st_maps].
    destruct (is_false (_is_birational f1) || is_false (_is_dominant f1));
      [discriminate|].
    destruct (negb (String.eqb algorithm "macaulay2")); [discriminate|].
    destruct (m2_inverse env) as [g2 | err]; [|discriminate].
    unfold bind at 1.
    destruct (_from_macaulay2map_to_sagemap g2 _ _ _) as [[l | e] s1] eqn:E;
      [|discriminate].
    assert (Hs1 : st_maps s1 !! self = Some f1).
    { eapply from_macaulay2map_keeps; [| |exact E].
      - unfold next_free in *. cbn [st_world st_maps].
        rewrite lookup_insert_ne; [done|]. intros Heq.
        rewrite Heq in Hs. congruence.
      - cbn [st_maps]. apply lookup_insert_eq. }
    unfold bind at 1. cbv beta.
    destruct (st_maps s1 !! l) as [gm|] eqn:Hl; [|discriminate].
    unfold bind at 1, assert.
    destruct (oid_eqb _ _ && oid_eqb _ _); [|discriminate]. cbn [ret].
    unfold bind at 1, of_result.
    destruct (point_on_source env) as [p | e]; [|discriminate].
    unfold bind at 1.
    destruct (round_trip_source env) as [[|] | e]; try discriminate.
    unfold bind at 1. cbn [ret].
    unfold bind at 1.
    destruct (point_on_target env) as [q | e]; [|discriminate].
    unfold bind at 1.
    destruct (round_trip_target env) as [[|] | e]; try discriminate.
    unfold bind at 1. cbn [ret].
    unfold bind at 1. cbv beta. rewrite Hs1.
    unfold bind at 1. cbv beta. cbn [st_world st_maps].
    unfold bind at 1. cbv beta. cbn [st_maps].
    destruct (decide (l = self)) as [-> | Hne].
    + rewrite lookup_insert_eq. unfold bind at 1.
      cbn [is_true set_is_birational _is_birational ret].
      unfold bind, put_map, ret. cbn [st_maps st_world].
      rewrite lookup_insert_eq. intros [= <- <-]. cbn [st_maps].
      split; [done|]. split; [done|].
      eexists _, _. split; [apply lookup_insert_eq|].
      split; [apply lookup_insert_eq|]. done.
    + rewrite lookup_insert_ne by done. rewrite Hl.
      unfold bind at 1.
      destruct (is_true (_is_birational gm)); [|discriminate]. cbn [ret].
      unfold bind, put_map, ret. cbn [st_maps st_world].
      rewrite lookup_insert_ne by done. rewrite lookup_insert_eq.
      intros [= <- <-]. cbn [st_maps].
      split; [done|]. split; [done|].
      eexists _, _. split; [apply lookup_insert_eq|].
      split; [rewrite lookup_insert_ne by done; apply lookup_insert_eq|]. done.
Qed.

End Inverse_properties.

(** ** Maps of the space of dimension 0 *)

Module P0_map_facts.
Import P0_maps.

Example s2_holds_the_two_maps :
  st_maps s2 !! 2%nat = Some identity_map
  /\ st_maps s2 !! 3%nat = Some empty_map.
Proof. split; vm_compute; reflexivity. Qed.

Lemma compose_conjoins_flags_and_keeps_operands_witness :
  st_maps s2 !! 4%nat = None
  /\ (forall l' m, st_maps s2 !! l' = Some m -> st_maps s3 !! l' = Some m)
  /\ exists g,
       st_maps s3 !! 4%nat = Some g
       /\ _is_isomorphism g
          = both_true (_is_isomorphism identity_map) (_is_isomorphism empty_map)
       /\ _is_birational g
          = both_true (_is_birational identity_map) (_is_birational empty_map)
       /\ _is_morphism g
          = both_true (_is_morphism identity_map) (_is_morphism empty_map)
       /\ _is_dominant g
          = if (is_true (_is_dominant identity_map)
                && is_true (_is_dominant empty_map))
               || (dim (_target empty_map) <? 0)
            then Some true else None.
Proof.
  apply (compose_conjoins_flags_and_keeps_operands 2%nat 3%nat s2
           identity_map empty_map 4%nat s3).
  - vm_compute. reflexivity.
  - vm_compute. reflexivity.
  - vm_compute. reflexivity.
  - vm_compute. reflexivity.
Defined.

(** C5, as stated, fails for the dominance flag: composing the identity
    map, whose dominance is unknown, with the empty map gives a map whose
    dominance is resolved to true by the constructor. *)
Lemma compose_resolves_dominance_for_an_empty_target :
  exists (c : nat) s' g,
    st_maps s2 !! 2%nat = Some identity_map
    /\ st_maps s2 !! 3%nat = Some empty_map
    /\ _is_dominant identity_map = None
    /\ compose 2%nat (Rat 3%nat) s2 = (Ok c, s')
    /\ st_maps s' !! c = Some g
    /\ _is_dominant g = Some true.
Proof.
  eexists _, _, _.
  split; [vm_compute; reflexivity|].
  split; [vm_compute; reflexivity|].
  split; [reflexivity|].
  split; [vm_compute; reflexivity|].
  split; [vm_compute; reflexivity|].
  reflexivity.
Qed.

(** The call returns at this input, and raises for the empty map, whose
    source and target have different dimensions. *)
Example inverse_returns :
  fst (inverse answers 2%nat true "macaulay2" s2) = Ok 4%nat.
Proof. vm_compute. reflexivity. Qed.

Example inverse_raises_for_different_dimensions :
  fst (inverse answers 3%nat true "macaulay2" s2)
  = Raise (ValueError "the rational map is not birational").
Proof. vm_compute. reflexivity. Qed.

End P0_map_facts.

(** Maps of the projective space of dimension 5. *)
Module PP5_map_facts.
Import PP5_maps.

Example s3_holds_the_three_maps :
  st_maps s3 !! 3%nat = Some identity_map
  /\ st_maps s3 !! 4%nat = Some inclusion_map
  /\ st_maps s3 !! 5%nat = Some collapsing_map
  /\ next_free s3.
Proof. repeat split; vm_compute; reflexivity. Qed.

(** The inverse of the identity map is computed and returned. *)
Example inverse_of_the_identity_returns :
  fst (inverse identity_answers 3%nat true "macaulay2" s3) = Ok 6%nat.
Proof. vm_compute. reflexivity. Qed.

Lemma inverse_raises_when_not_birational_and_caches_both_ways_witness :
  (forall check : bool,
     exists s',
       inverse identity_answers 4%nat check "macaulay2" s3
       = (Raise (ValueError "the rational map is not birational"), s'))
  /\ (forall env' : inverse_oracle,
        m2_inverse env' = m2_inverse identity_answers ->
        inverse env' 3%nat false "macaulay2" s3
        = inverse identity_answers 3%nat false "macaulay2" s3)
  /\ (forall (g : nat) s',
        inverse identity_answers 3%nat true "macaulay2" s3 = (Ok g, s') ->
        round_trip_source identity_answers = Ok true
        /\ round_trip_target identity_answers = Ok true
        /\ exists f' g',
             st_maps s' !! 3%nat = Some f'
             /\ st_maps s' !! g = Some g'
             /\ _is_birational f' = Some true
             /\ _inverse_rational_map f' = Some g
             /\ _inverse_rational_map g' = Some 3%nat).
Proof.
  destruct (inverse_raises_when_not_birational_and_caches_both_ways
              identity_answers "macaulay2" s3) as (Hraise & Hpass & Hret).
  { vm_compute. reflexivity. }
  split; [|split].
  - intros check. apply (Hraise 4%nat inclusion_map check).
    + vm_compute. reflexivity.
    + reflexivity.
    + left. split; [discriminate | vm_compute; discriminate].
  - apply (Hpass 3%nat identity_map).
    + vm_compute. reflexivity.
    + reflexivity.
    + discriminate.
    + discriminate.
    + right. reflexivity.
    + reflexivity.
  - intros g s'. apply (Hret 3%nat identity_map).
    + vm_compute. reflexivity.
    + reflexivity.
Defined.

(** C6, as stated, fails: the collapsing map is not birational, its
    source and target have the same dimension and none of its flags is
    resolved, so the method makes no test of its own; with [check=False]
    the map that Macaulay2 answers with is returned, although the round
    trip [f(g(q)) == q] is false, and no error is raised.  With
    [check=True] the same call raises [AssertionError]. *)
Lemma inverse_returns_untested_when_unchecked :
  exists (g : nat) s',
    st_maps s3 !! 5%nat = Some collapsing_map
    /\ _inverse_rational_map collapsing_map = None
    /\ _is_birational collapsing_map = None
    /\ _is_dominant collapsing_map = None
    /\ dim (_source collapsing_map) = dim (_target collapsing_map)
    /\ round_trip_target collapsing_answers = Ok false
    /\ inverse collapsing_answers 5%nat false "macaulay2" s3 = (Ok g, s')
    /\ (exists f', st_maps s' !! 5%nat = Some f'
                   /\ _is_birational f' = None
                   /\ _inverse_rational_map f' = None)
    /\ fst (inverse collapsing_answers 5%nat true "macaulay2" s3)
       = Raise AssertionError.
Proof.
  eexists _, _.
  split; [vm_compute; reflexivity|].
  do 5 (split; [reflexivity|]).
  split; [vm_compute; reflexivity|].
  split; [|vm_compute; reflexivity].
  eexists. split; [vm_compute; reflexivity|]. split; reflexivity.
Qed.

End PP5_map_facts.

(** ** Projective degrees *)

Section Projective_degrees_properties.
Context {T : Type}.
Variable source_dimension : T -> Z.
Variable source_degree : T -> Z.
Variable _0th_projective_degree : T -> M Z.
Variable _restriction_to_general_hyperplane : T -> M T.

Abbreviation loop :=
  (projective_degrees_loop _0th_projective_degree
     _restriction_to_general_hyperplane).
Abbreviation degrees :=
  (projective_degrees source_dimension source_degree _0th_projective_degree
     _restriction_to_general_hyperplane).

Lemma projective_degrees_loop_appends (n : nat) (psi : T) (s s' : pd_state) :
  loop n psi s = (Ok tt, s') ->
  exists ds,
    length ds = n
    /\ _projective_degrees_list s'
       = (if Nat.eqb n 0 then _projective_degrees_list s
          else Some (default [] (_projective_degrees_list s) ++ ds))
    /\ (n <> O ->
        forall d w1, _0th_projective_degree psi (pd_world s) = (Ok d, w1) ->
                     head ds = Some d).
Proof.
  revert psi s. induction n as [| n IH]; intros psi s; simpl.
  - intros [= <-]. exists []. repeat split. intros Hn. by destruct Hn.
  - unfold bind at 1, pd_lift at 1.
    destruct (_0th_projective_degree psi (pd_world s)) as [[d | e] w1] eqn:E0;
      [|discriminate].
    unfold bind at 1, pd_append at 1. cbn [pd_world _projective_degrees_list].
    unfold bind at 1, pd_lift at 1. cbn [pd_world _projective_degrees_list].
    destruct (_restriction_to_general_hyperplane psi w1) as [[psi' | e] w2];
      [|discriminate].
    intros Hl. apply IH in Hl as (ds & Hlen & Hc & _).
    exists (d :: ds). split; [simpl; congruence|]. split.
    + rewrite Hc. cbn [_projective_degrees_list].
      destruct n; simpl.
      * destruct ds; [done | discriminate].
      * by rewrite <- app_assoc.
    + intros _ d' w1' [= <- <-]. reflexivity.
Qed.

(** C1 (amended). When [projective_degrees()] computes its list (nothing
    was cached and no call it makes raises), the first entry of the list is
    [source().degree()] and the list has one entry more than the dimension
    of the source.  The last entry is [source().degree()] when that
    dimension is at most 0; when it is positive, the last entry is the
    value [_0th_projective_degree()] returned for the map itself, so it is
    [source().degree()] exactly when that value is.  The list is cached. *)
Theorem projective_degrees_first_entry_is_source_degree
    (self : T) (s s' : pd_state) (l : list Z) :
  _projective_degrees_list s = None ->
  degrees self s = (Ok l, s') ->
  head l = Some (source_degree self)
  /\ length l = S (Z.to_nat (source_dimension self))
  /\ (source_dimension self <= 0 -> last l = Some (source_degree self))
  /\ (0 < source_dimension self ->
      forall d w1, _0th_projective_degree self (pd_world s) = (Ok d, w1) ->
                   last l = Some d
                   /\ (last l = Some (source_degree self)
                       <-> d = source_degree self))
  /\ _projective_degrees_list s' = Some l
  /\ degrees self s' = (Ok l, s').
Proof.
  intros Hnone. unfold projective_degrees. rewrite Hnone.
  unfold bind at 1, pd_assign at 1. unfold bind at 1.
  destruct (loop _ self _) as [[[] | e] s1] eqn:El; [|discriminate].
  apply projective_degrees_loop_appends in El as (ds & Hlen & Hc & Hd).
  cbn [_projective_degrees_list pd_world] in Hc, Hd.
  unfold bind, pd_append, pd_reverse, pd_read.
  cbn [_projective_degrees_list pd_world]. intros [= <- <-].
  cbn [_projective_degrees_list].
  assert (Hs1 : default [] (_projective_degrees_list s1) = ds).
  { rewrite Hc. destruct (Nat.eqb_spec (Z.to_nat (source_dimension self)) 0)
      as [E | E]; [|done].
    rewrite E in Hlen. by destruct ds. }
  rewrite Hs1. rewrite rev_app_distr. cbn [rev app].
  split; [done|]. split; [simpl; rewrite length_rev; congruence|].
  split; [|split; [|split; [done|done]]].
  - intros Hle. assert (Z.to_nat (source_dimension self) = O) as E by lia.
    rewrite E in Hlen. by destruct ds.
  - intros Hpos d w1 E0.
    assert (Hn : Z.to_nat (source_dimension self) <> O) by lia.
    specialize (Hd Hn d w1 E0).
    destruct ds as [| d0 ds]; [done|]. injection Hd as ->.
    assert (Hlast : last (source_degree self :: rev (d :: ds)) = Some d).
    { cbn [rev]. rewrite app_comm_cons. apply last_snoc. }
    split; [exact Hlast|]. rewrite Hlast. split; congruence.
Qed.

End Projective_degrees_properties.

Module Docstring_map_facts.
Import Docstring_map.

(** C1, as stated, fails: the last entry is 5, the degree of the source
    is 1. *)
Lemma last_projective_degree_is_not_the_source_degree :
  exists l s',
    projective_degrees 0%nat before = (Ok l, s')
    /\ l = [1; 3; 9; 17; 21; 15; 5]
    /\ source_degree 0%nat = 1
    /\ last l = Some 5.
Proof.
  eexists _, _. split; [vm_compute; reflexivity|]. repeat split.
Qed.

Lemma projective_degrees_first_entry_is_source_degree_witness :
  head [1; 3; 9; 17; 21; 15; 5] = Some (source_degree 0%nat)
  /\ length [1; 3; 9; 17; 21; 15; 5] = S (Z.to_nat (source_dimension 0%nat))
  /\ (source_dimension 0%nat <= 0 ->
      last [1; 3; 9; 17; 21; 15; 5] = Some (source_degree 0%nat))
  /\ (0 < source_dimension 0%nat ->
      forall d w1,
        _0th_projective_degree 0%nat (pd_world before) = (Ok d, w1) ->
        last [1; 3; 9; 17; 21; 15; 5] = Some d
        /\ (last [1; 3; 9; 17; 21; 15; 5] = Some (source_degree 0%nat)
            <-> d = source_degree 0%nat))
  /\ _projective_degrees_list after = Some [1; 3; 9; 17; 21; 15; 5]
  /\ projective_degrees 0%nat after = (Ok [1; 3; 9; 17; 21; 15; 5], after).
Proof.
  apply (projective_degrees_first_entry_is_source_degree
           source_dimension source_degree _0th_projective_degree
           _restriction_to_general_hyperplane 0%nat before after).
  - reflexivity.
  - vm_compute. reflexivity.
Defined.

End Docstring_map_facts.

(** ** Point sampling *)

Section Raw_point_properties.
Context {V : Type}.
Variable dimension_of : V -> Z.
Variable codimension_of : V -> Z.
Variable hyperplane_section_at : nat -> V -> result V.
Variable embedding_as_hyperplane_section : V -> V -> result V.
Variable irreducible_components : V -> list V.
Variable _is_point : V -> bool.
Variable random_linear_section : V -> M V.
Variable projection_image : V -> M V.
Variable projection_inverse_image : V -> V -> result V.

Abbreviation attempts :=
  (_raw_point_attempts hyperplane_section_at embedding_as_hyperplane_section
     irreducible_components _is_point).
Abbreviation raw_point :=
  (_raw_point dimension_of codimension_of hyperplane_section_at
     embedding_as_hyperplane_section irreducible_components _is_point
     random_linear_section projection_image projection_inverse_image).
Abbreviation points := (points_of irreducible_components _is_point).
Abbreviation no_point :=
  (no_point_at hyperplane_section_at irreducible_components _is_point).
Abbreviation decided :=
  (decided_at hyperplane_section_at embedding_as_hyperplane_section
     irreducible_components _is_point).


Lemma raw_point_attempts_spec (k : nat) (self : V) (w : world) :
  exists r w',
    attempts k self w = (r, w')
    /\ next_id w' = next_id w
    /\ ((rng_pos w' = (rng_pos w + k)%nat
         /\ r = Raise failure
         /\ forall i, (i < k)%nat -> no_point self (rng_pos w + i))
        \/ exists n,
             (n < k)%nat
             /\ rng_pos w' = (rng_pos w + S n)%nat
             /\ (forall i, (i < n)%nat -> no_point self (rng_pos w + i))
             /\ decided self (rng_pos w + n) r).
Proof.
  revert w. induction k as [| k IH]; intros w.
  - eexists _, _. split; [reflexivity|]. split; [done|]. left.
    split; [simpl; lia|]. split; [done|]. intros i Hi. lia.
  - cbn [_raw_point_attempts]. unfold bind at 1, hyperplane_section.
    unfold bind at 1, draw at 1, of_result.
    destruct (hyperplane_section_at (rng_pos w) self) as [X | e] eqn:EX.
    + change (filter (fun q => _is_point q = true) (irreducible_components X))
        with (points X).
      destruct (points X) as [| q rest] eqn:EL.
      * destruct (IH (World (next_id w) (S (rng_pos w))))
          as (r & w' & E & Hn & Hcase).
        exists r, w'. split; [exact E|]. split; [exact Hn|].
        cbn [rng_pos] in Hcase.
        destruct Hcase as [(Hr & -> & Hno) | (n & Hlt & Hr & Hno & Hdec)].
        -- left. split; [lia|]. split; [done|].
           intros [| i] Hi.
           ++ rewrite Nat.add_0_r. by exists X.
           ++ replace (rng_pos w + S i)%nat with (S (rng_pos w) + i)%nat by lia.
              apply Hno. lia.
        -- right. exists (S n). split; [lia|]. split; [lia|]. split.
           ++ intros [| i] Hi.
              ** rewrite Nat.add_0_r. by exists X.
              ** replace (rng_pos w + S i)%nat
                   with (S (rng_pos w) + i)%nat by lia.
                 apply Hno. lia.
           ++ by replace (rng_pos w + S n)%nat
                with (S (rng_pos w) + n)%nat by lia.
      * unfold bind, assert, ret.
        destruct (embedding_as_hyperplane_section X q) as [p | e] eqn:Ep.
        -- destruct (_is_point p) eqn:Ei.
           all: eexists _, _; split; [reflexivity|]; split; [done|]; right.
           all: exists O; split; [lia|]; split; [simpl; lia|].
           all: split; [intros i Hi; lia|]; rewrite Nat.add_0_r.
           all: right; exists X, q, rest; repeat split; try done.
           all: right; exists p; split; [done|]; by rewrite Ei.
        -- eexists _, _. split; [reflexivity|]. split; [done|]. right.
           exists O. split; [lia|]. split; [simpl; lia|].
           split; [intros i Hi; lia|]. rewrite Nat.add_0_r.
           right. exists X, q, rest. repeat split; try done.
           left. by exists e.
    + eexists _, _. split; [reflexivity|]. split; [done|]. right.
      exists O. split; [lia|]. split; [simpl; lia|].
      split; [intros i Hi; lia|]. rewrite Nat.add_0_r.
      left. by exists e.
Qed.

(** C8. On a variety of dimension 1 and codimension 1, [_raw_point] makes
    at most 10 attempts, each with a hyperplane section of a new random
    draw; either all 10 sections have no point among their components and
    it raises its exception of failure, or the first attempt whose section
    has such a point (or raises) decides the result, and no further attempt
    is made. *)
Theorem raw_point_makes_at_most_ten_attempts (depth : nat) (self : V)
    (w : world) :
  dimension_of self = 1 ->
  codimension_of self = 1 ->
  exists r w',
    raw_point (S depth) self w = (r, w')
    /\ next_id w' = next_id w
    /\ (rng_pos w < rng_pos w' <= rng_pos w + 10)%nat
    /\ ((rng_pos w' = (rng_pos w + 10)%nat
         /\ r = Raise failure
         /\ forall i, (i < 10)%nat -> no_point self (rng_pos w + i))
        \/ exists n,
             (n < 10)%nat
             /\ rng_pos w' = (rng_pos w + S n)%nat
             /\ (forall i, (i < n)%nat -> no_point self (rng_pos w + i))
             /\ decided self (rng_pos w + n) r).
Proof.
  intros Hd Hc. cbn [_raw_point]. rewrite Hd, Hc. cbn [Z.leb Z.ltb Z.eqb Z.compare Pos.compare Pos.compare_cont].
  unfold bind at 1. cbn [ret].
  destruct (raw_point_attempts_spec 10 self w) as (r & w' & E & Hn & Hcase).
  exists r, w'. split; [exact E|]. split; [exact Hn|].
  split; [|exact Hcase].
  destruct Hcase as [(Hr & _) | (n & Hlt & Hr & _)]; lia.
Qed.

End Raw_point_properties.

Module Conic_scenario_facts.
Import Conic_scenario.

Lemma raw_point_makes_at_most_ten_attempts_witness :
  exists r w',
    _raw_point 1%nat Conic w0 = (r, w')
    /\ next_id w' = next_id w0
    /\ (rng_pos w0 < rng_pos w' <= rng_pos w0 + 10)%nat
    /\ ((rng_pos w' = (rng_pos w0 + 10)%nat
         /\ r = Raise failure
         /\ forall i, (i < 10)%nat ->
              no_point_at hyperplane_section_at irreducible_components
                _is_point Conic (rng_pos w0 + i))
        \/ exists n,
             (n < 10)%nat
             /\ rng_pos w' = (rng_pos w0 + S n)%nat
             /\ (forall i, (i < n)%nat ->
                   no_point_at hyperplane_section_at irreducible_components
                     _is_point Conic (rng_pos w0 + i))
             /\ decided_at hyperplane_section_at
                  embedding_as_hyperplane_section irreducible_components
                  _is_point Conic (rng_pos w0 + n) r).
Proof.
  apply (raw_point_makes_at_most_ten_attempts dimension_of codimension_of
           hyperplane_section_at embedding_as_hyperplane_section
           irreducible_components _is_point random_linear_section
           projection_image projection_inverse_image 0%nat Conic w0).
  - reflexivity.
  - reflexivity.
Defined.

(** On the conic the second attempt finds a point; on the curve without
    rational points of sections the tenth attempt is the last. *)
Example raw_point_returns_at_the_second_attempt :
  _raw_point 1%nat Conic w0 = (Ok (Rational_point 1), World 0 2).
Proof. vm_compute. reflexivity. Qed.

Example raw_point_raises_after_ten_attempts :
  _raw_point 1%nat Pointless w0 = (Raise failure, World 0 10).
Proof. vm_compute. reflexivity. Qed.

End Conic_scenario_facts.

(** ** Congruences: which failures are remembered *)

Section Congruence_properties.
Variable _degree_as_hypersurface : Z.
Variable sampled : nat -> result trial.

(** Once the set of possible degrees is empty, a call without a degree
    raises before it looks at the point. *)
Lemma function_congruence_raises_on_empty_memo (depth : nat) (p : trial)
    (s : cstate) :
  _possible_degrees_for_curves_of_congruence s = Some ∅ ->
  function_congruence _degree_as_hypersurface sampled (S depth) p None s
  = (Raise (Exception "function 'congruence' failed (with previous runs)"), s).
Proof.
  intros Hs. cbn [function_congruence]. unfold bind, get_possible.
  rewrite Hs. reflexivity.
Qed.

(** The failure "no line in the decomposition" is remembered. *)
Lemma function_congruence_remembers_empty_decomposition (depth : nat)
    (s : cstate) :
  _possible_degrees_for_curves_of_congruence s = None ->
  exists s',
    function_congruence _degree_as_hypersurface sampled (S depth)
      (Trial true (Ok [])) None s
    = (Raise (Exception "function 'congruence' failed"), s')
    /\ _possible_degrees_for_curves_of_congruence s' = Some ∅.
Proof.
  intros Hs. cbn [function_congruence]. unfold bind, get_possible.
  rewrite Hs. simpl. by eexists.
Qed.

End Congruence_properties.

Module Cubic_scenario_facts.
Import Cubic_scenario.

(** C7 fails on the code.  The first call finds that no candidate curve
    passes the filters and raises, but nothing is recorded on the fourfold;
    the next call does the whole computation again (here it even returns a
    congruence of conics). *)
Lemma failure_without_candidate_is_not_memoized :
  exists s1 s2,
    congruence fresh_fourfold
    = (Raise (Exception "function 'congruence' failed"), s1)
    /\ _possible_degrees_for_curves_of_congruence s1 = None
    /\ congruence s1 = (Ok 2, s2)
    /\ points_sampled s2 = 5%nat.
Proof.
  eexists _, _. split; [vm_compute; reflexivity|].
  split; [reflexivity|]. split; [vm_compute; reflexivity|]. reflexivity.
Qed.

End Cubic_scenario_facts.

(** * Further properties *)

(** ** The order and the equality of varieties *)

Section Variety_order.
Context `{B : Backend} {L : BackendLaws B} {U : SpaceLaws B}.

Implicit Types X Y Z : Embedded_projective_variety.

Lemma same_object_coherent_sym X Y :
  same_object_coherent X Y -> same_object_coherent Y X.
Proof. intros Hco E. destruct (Hco (eq_sym E)). by split. Qed.

Lemma is_subset_inv X Y :
  same_object_coherent X Y -> is_subset X Y = true ->
  ambient_space X = ambient_space Y
  /\ forall g, In g (defining_ideal Y) ->
               ideal_mem (ambient_space X) g (defining_ideal X) = true.
Proof.
  intros Hco. unfold is_subset.
  destruct (oid_eqb (vid X) (vid Y)) eqn:E.
  - intros _. apply oid_eqb_eq in E. destruct (Hco E) as [Hs Hp].
    split; [done|]. intros g Hg. apply gens_mem.
    unfold defining_ideal in *. by rewrite Hp.
  - destruct (space_eqb (ambient_space X) (ambient_space Y)) eqn:Es;
      [|done]. cbn [negb]. rewrite forallb_forall.
    intros Hg. split; [by apply space_eqb_true | done].
Qed.

Lemma is_subset_intro X Y :
  ambient_space X = ambient_space Y ->
  (forall g, In g (defining_ideal Y) ->
             ideal_mem (ambient_space X) g (defining_ideal X) = true) ->
  is_subset X Y = true.
Proof.
  intros Hs Hg. unfold is_subset.
  destruct (oid_eqb (vid X) (vid Y)); [done|].
  rewrite Hs, space_eqb_refl. cbn [negb]. rewrite forallb_forall.
  intros g Hin. rewrite <- Hs. by apply Hg.
Qed.

Lemma is_subset_trans X Y Z :
  same_object_coherent X Y -> same_object_coherent Y Z ->
  is_subset X Y = true -> is_subset Y Z = true -> is_subset X Z = true.
Proof.
  intros HXY HYZ H1 H2.
  destruct (is_subset_inv X Y HXY H1) as [Hs1 Hg1].
  destruct (is_subset_inv Y Z HYZ H2) as [Hs2 Hg2].
  apply is_subset_intro; [congruence|].
  intros g Hg. eapply mem_least; [exact Hg1|].
  rewrite Hs1. by apply Hg2.
Qed.

(** X1. [is_subset] is reflexive, without any computation, and
    transitive. *)
Theorem is_subset_reflexive_and_transitive X Y Z :
  same_object_coherent X Y -> same_object_coherent Y Z ->
  is_subset X X = true
  /\ (is_subset X Y = true -> is_subset Y Z = true -> is_subset X Z = true).
Proof.
  intros HXY HYZ. split.
  - unfold is_subset. by rewrite oid_eqb_refl.
  - by apply is_subset_trans.
Qed.

(** X2. [==] on varieties is reflexive, symmetric and transitive. *)
Theorem eq_is_an_equivalence X Y Z :
  same_object_coherent X Y -> same_object_coherent Y Z ->
  __eq__ X X = true
  /\ __eq__ X Y = __eq__ Y X
  /\ (__eq__ X Y = true -> __eq__ Y Z = true -> __eq__ X Z = true).
Proof.
  intros HXY HYZ. unfold __eq__. split; [|split].
  - unfold is_subset. by rewrite oid_eqb_refl.
  - destruct (is_subset X Y), (is_subset Y X); done.
  - destruct (is_subset X Y) eqn:E1; [|done].
    destruct (is_subset Y Z) eqn:E2; [|done]. cbn [negb].
    intros E3 E4.
    rewrite (is_subset_trans X Y Z HXY HYZ E1 E2). cbn [negb].
    apply (is_subset_trans Z Y X); try done;
      by apply same_object_coherent_sym.
Qed.

End Variety_order.

Section Different_spaces.
Context `{B : Backend} {U : SpaceLaws B}.

Implicit Types X Y : Embedded_projective_variety.

Lemma is_subset_different_spaces X Y :
  ambient_space X <> ambient_space Y -> same_object_coherent X Y ->
  is_subset X Y = false.
Proof.
  intros Hne Hco. unfold is_subset.
  destruct (oid_eqb (vid X) (vid Y)) eqn:E.
  - apply oid_eqb_eq in E. by destruct (Hco E).
  - destruct (space_eqb (ambient_space X) (ambient_space Y)) eqn:Es; [|done].
    by apply space_eqb_true in Es.
Qed.

(** X3. Varieties of different ambient spaces: neither is a subset of
    the other, they are not equal, and [intersection], [union] and
    [difference] raise [ValueError]. *)
Theorem operations_reject_different_ambient_spaces X Y (w : world) :
  ambient_space X <> ambient_space Y ->
  same_object_coherent X Y ->
  same_object_coherent (ambient X) (ambient Y) ->
  let e := ValueError
             "expected varieties in the same ambient projective space" in
  is_subset X Y = false
  /\ is_subset Y X = false
  /\ __eq__ X Y = false
  /\ fst (intersection X Y w) = Raise e
  /\ fst (union X Y w) = Raise e
  /\ fst (difference X Y w) = Raise e.
Proof.
  intros Hne Hco HcoA e.
  pose proof (is_subset_different_spaces X Y Hne Hco) as E.
  assert (E' : is_subset Y X = false).
  { apply is_subset_different_spaces; [congruence|].
    intros Hv. symmetry in Hv. destruct (Hco Hv). by split. }
  assert (EA : __ne__ (ambient X) (ambient Y) = true).
  { unfold __ne__, __eq__. rewrite is_subset_different_spaces; try done.
    by rewrite !ambient_space_ambient. }
  unfold __eq__, intersection, union, difference. rewrite E, E', EA. done.
Qed.

End Different_spaces.

Module Two_spaces_facts.
Import Two_spaces.

Lemma two_spaces_laws : SpaceLaws backend.
Proof. split. intros [] []; simpl; done. Qed.

Lemma operations_reject_different_ambient_spaces_witness :
  let e := ValueError
             "expected varieties in the same ambient projective space" in
  is_subset point_of_first point_of_second = false
  /\ is_subset point_of_second point_of_first = false
  /\ __eq__ point_of_first point_of_second = false
  /\ fst (intersection point_of_first point_of_second (World 2 0)) = Raise e
  /\ fst (union point_of_first point_of_second (World 2 0)) = Raise e
  /\ fst (difference point_of_first point_of_second (World 2 0)) = Raise e.
Proof.
  apply (operations_reject_different_ambient_spaces (U := two_spaces_laws)
           point_of_first point_of_second (World 2 0)).
  - discriminate.
  - intros [=].
  - intros [=].
Defined.

End Two_spaces_facts.

(** ** Intersection, union and difference *)

Section Set_operations.
Context `{B : Backend} {L : BackendLaws B} {IL : IdealLaws B}.

Implicit Types X Y Z : Embedded_projective_variety.

Lemma difference_runs X Y (w : world) :
  ambient_space X = ambient_space Y ->
  base_ring_in_fields (ambient_space X) = true ->
  caches_computed X -> caches_computed Y ->
  difference X Y w
  = (Ok (Variety (Fresh (next_id w)) (ambient_space X)
           (_minbase (ambient_space X)
              (ideal_saturation (ambient_space X)
                 (defining_ideal X) (defining_ideal Y)))
           None None ∅),
     World (S (next_id w)) (rng_pos w)).
Proof.
  intros Hsp HR HX HY. unfold difference.
  rewrite (ambients_equal X Y Hsp HX HY). by apply init_ok.
Qed.

Lemma object_of_later (w w' : world) X :
  (next_id w <= next_id w')%nat -> object_of w X -> object_of w' X.
Proof. intros Hle (HR & Hlt & Hc). repeat split; try done; try apply Hc. lia. Qed.

Lemma object_of_new (R : space) (ps : list poly) (w : world) :
  base_ring_in_fields R = true ->
  object_of (World (S (next_id w)) (rng_pos w))
            (Variety (Fresh (next_id w)) R ps None None ∅).
Proof. intros HR. split; [done|]. split; [simpl; lia|]. split; intros ? [=]. Qed.

(** X4. The intersection of two varieties of one ambient space is
    contained in both of them. *)
Theorem intersection_is_subset_of_both X Y (w : world) :
  object_of w X -> object_of w Y ->
  ambient_space X = ambient_space Y ->
  exists V w',
    intersection X Y w = (Ok V, w')
    /\ is_subset V X = true /\ is_subset V Y = true.
Proof.
  intros (HR & HltX & HcX) (_ & HltY & HcY) Hsp.
  eexists _, _. split; [by apply intersection_runs|].
  split.
  - rewrite is_subset_new by done. apply forallb_forall. intros g Hg.
    rewrite minbase_mem. apply saturation_extensive, sum_mem_l.
    by apply gens_mem.
  - rewrite is_subset_new by done. apply forallb_forall. intros g Hg.
    rewrite minbase_mem. apply saturation_extensive, sum_mem_r.
    rewrite Hsp. by apply gens_mem.
Qed.

(** X5. The union of two varieties of one ambient space contains both
    of them. *)
Theorem union_contains_both X Y (w : world) :
  object_of w X -> object_of w Y ->
  ambient_space X = ambient_space Y ->
  exists V w',
    union X Y w = (Ok V, w')
    /\ is_subset X V = true /\ is_subset Y V = true.
Proof.
  intros (HR & HltX & HcX) (_ & HltY & HcY) Hsp.
  eexists _, _. split; [by apply union_runs|].
  split.
  - apply is_subset_to_new; [done | done |]. intros g Hg.
    apply (gens_mem (ambient_space X)) in Hg.
    rewrite minbase_mem, intersection_mem in Hg.
    by apply andb_true_iff in Hg as [Hg _].
  - apply is_subset_to_new; [done | done |]. intros g Hg.
    apply (gens_mem (ambient_space X)) in Hg.
    rewrite minbase_mem, intersection_mem in Hg.
    by apply andb_true_iff in Hg as [_ Hg].
Qed.

(** [==] between two newly built objects *)
Lemma eq_new (n m : nat) (R : space) (ps qs : list poly) :
  (forall g, ideal_mem R g ps = ideal_mem R g qs) ->
  __eq__ (Variety (Fresh n) R ps None None ∅)
         (Variety (Fresh m) R qs None None ∅) = true.
Proof.
  intros Heq.
  assert (Hsub : forall a b ps' qs',
    (forall g, ideal_mem R g ps' = ideal_mem R g qs') ->
    is_subset (Variety (Fresh a) R ps' None None ∅)
              (Variety (Fresh b) R qs' None None ∅) = true).
  { intros a b ps' qs' He. unfold is_subset. cbn [vid ambient_space].
    destruct (oid_eqb (Fresh a) (Fresh b)); [done|].
    rewrite space_eqb_refl. cbn [negb]. apply forallb_forall.
    intros g Hg. rewrite mem_defining_ideal, He, <- (mem_defining_ideal
      (Fresh b) R qs' None None ∅). by apply gens_mem. }
  unfold __eq__. rewrite !Hsub; done.
Qed.

(** X6. [union] and [intersection] do not depend on the order of their
    operands, up to [==]; and [X.union(X) == X]. *)
Theorem union_and_intersection_commute X Y (w : world) :
  object_of w X -> object_of w Y ->
  ambient_space X = ambient_space Y ->
  (exists U1 U2 w1 w2,
     union X Y w = (Ok U1, w1) /\ union Y X w1 = (Ok U2, w2)
     /\ __eq__ U1 U2 = true)
  /\ (exists V1 V2 w1 w2,
        intersection X Y w = (Ok V1, w1) /\ intersection Y X w1 = (Ok V2, w2)
        /\ __eq__ V1 V2 = true)
  /\ (exists U w1, union X X w = (Ok U, w1) /\ __eq__ U X = true).
Proof.
  intros (HR & HltX & HcX) (_ & HltY & HcY) Hsp.
  split; [|split].
  - eexists _, _, _, _.
    split; [by apply union_runs|].
    split; [apply union_runs; try done; by rewrite <- Hsp|].
    rewrite <- Hsp. apply eq_new. intros g.
    rewrite !minbase_mem, !intersection_mem. apply andb_comm.
  - eexists _, _, _, _.
    split; [by apply intersection_runs|].
    split; [apply intersection_runs; try done; by rewrite <- Hsp|].
    rewrite <- Hsp. apply eq_new. intros g. rewrite !minbase_mem.
    apply eq_true_iff_eq. split; apply saturation_monotone; intros h;
      apply sum_least; intros h' Hh';
      first [by apply sum_mem_l, gens_mem | by apply sum_mem_r, gens_mem].
  - eexists _, _. split; [by apply union_runs|].
    unfold __eq__.
    assert (E : forall g,
      ideal_mem (ambient_space X) g
        (_minbase (ambient_space X)
           (ideal_intersection (ambient_space X) (defining_ideal X)
              (defining_ideal X)))
      = ideal_mem (ambient_space X) g (defining_ideal X)).
    { intros g. rewrite minbase_mem, intersection_mem. apply andb_diag. }
    rewrite is_subset_new by done.
    assert (E1 : forallb
      (fun g => ideal_mem (ambient_space X) g
         (_minbase (ambient_space X)
            (ideal_intersection (ambient_space X) (defining_ideal X)
               (defining_ideal X)))) (defining_ideal X) = true).
    { apply forallb_forall. intros g Hg. rewrite E. by apply gens_mem. }
    rewrite E1. cbn [negb]. apply is_subset_to_new; [done | done |].
    intros g Hg. rewrite <- E. by apply gens_mem.
Qed.

(** X7. The closure of the difference [X.difference(Y)] is contained in
    [X]. *)
Theorem difference_is_subset X Y (w : world) :
  object_of w X -> object_of w Y ->
  ambient_space X = ambient_space Y ->
  exists D w',
    difference X Y w = (Ok D, w') /\ is_subset D X = true.
Proof.
  intros (HR & HltX & HcX) (_ & HltY & HcY) Hsp.
  eexists _, _. split; [by apply difference_runs|].
  rewrite is_subset_new by done. apply forallb_forall. intros g Hg.
  rewrite minbase_mem. apply saturation_extensive. by apply gens_mem.
Qed.

(** X8. The empty subscheme [X.empty()] is a subset of every variety of
    the ambient space of [X]. *)
Theorem empty_is_subset_of_all X Y (w : world) :
  object_of w X -> object_of w Y ->
  ambient_space X = ambient_space Y ->
  exists E w', empty X w = (Ok E, w') /\ is_subset E Y = true.
Proof.
  intros (HR & HltX & HcX) (_ & HltY & HcY) Hsp.
  eexists _, _. split; [unfold empty; by apply init_ok|].
  rewrite is_subset_new by done. apply forallb_forall. intros g Hg.
  apply unit_mem.
Qed.

End Set_operations.

(** ** The ambient space, homogeneous components and the linear span *)

Section Ambient_and_components.
Context `{B : Backend} {L : BackendLaws B}.

Implicit Types X Y : Embedded_projective_variety.

(** X9. [X.ambient()] contains [X], has codimension 0 and the dimension
    of the projective space, and is its own ambient. *)
Theorem ambient_is_the_whole_space X :
  caches_computed X ->
  is_subset X (ambient X) = true
  /\ codim (ambient X) = 0
  /\ dim (ambient X) = space_dimension (ambient_space X)
  /\ ambient (ambient X) = ambient X.
Proof.
  intros HX. pose proof (codim_ambient X HX) as Hc.
  split; [by apply is_subset_ambient|]. split; [done|]. split.
  - pose proof (space_dimension_nonneg (ambient_space X)) as Hn.
    unfold ambient in *. destruct (Z.eqb_spec (codim X) 0) as [E | E].
    + rewrite (codim_computed X HX) in E. rewrite (dim_computed X HX). lia.
    + unfold dim, dimension, defining_ideal. simpl.
      rewrite dimension_zero_ideal. lia.
  - unfold ambient at 1. by rewrite Hc.
Qed.

Lemma homogeneous_component_mem X (n : Z) (trim : bool) (h : poly) :
  components_in_ideal X ->
  In h (fst (_homogeneous_component X n trim)) ->
  ideal_mem (ambient_space X) h (defining_ideal X) = true.
Proof.
  intros Hc. unfold _homogeneous_component.
  destruct (_homogeneous_components_ideal X !! n) as [Bs|] eqn:E; simpl.
  - by apply (Hc n Bs h).
  - set (Bs := flat_map _ (defining_ideal X)).
    assert (HBs : forall g, In g Bs ->
              ideal_mem (ambient_space X) g (defining_ideal X) = true).
    { intros g Hin. apply in_flat_map in Hin as (g0 & Hg0 & Hin).
      destruct (poly_degree g0 <=? n); [|done].
      eapply multiples_mem; [|exact Hin]. by apply gens_mem. }
    destruct ((0 <? Z.of_nat (length Bs)) && trim); [|by apply HBs].
    intros Hin. apply (gens_mem (ambient_space X)) in Hin.
    rewrite minbase_mem in Hin. eapply mem_least; [exact HBs | exact Hin].
Qed.

Lemma homogeneous_component_object X (n : Z) (trim : bool) :
  vid (snd (_homogeneous_component X n trim)) = vid X
  /\ ambient_space (snd (_homogeneous_component X n trim)) = ambient_space X
  /\ defining_polynomials (snd (_homogeneous_component X n trim))
     = defining_polynomials X
  /\ _dimension (snd (_homogeneous_component X n trim)) = _dimension X
  /\ _codimension (snd (_homogeneous_component X n trim)) = _codimension X.
Proof.
  unfold _homogeneous_component.
  destruct (_homogeneous_components_ideal X !! n); [done|].
  by destruct trim.
Qed.

(** X10. [_homogeneous_component(n)] is memoized: after a call with
    [trim=True] every further call for [n] returns the same basis and
    changes nothing; a call with [trim=False] never writes the
    dictionary; and the dictionary keeps holding elements of the ideal. *)
Theorem homogeneous_component_is_memoized X (n : Z) :
  let Bs := fst (_homogeneous_component X n true) in
  let X1 := snd (_homogeneous_component X n true) in
  (forall trim, _homogeneous_component X1 n trim = (Bs, X1))
  /\ snd (_homogeneous_component X n false) = X
  /\ (components_in_ideal X -> components_in_ideal X1).
Proof.
  split; [|split].
  - intros trim.
    destruct (_homogeneous_component X n true) as [Bs X1] eqn:E0.
    cbn [fst snd]. unfold _homogeneous_component in E0 |- *.
    destruct (_homogeneous_components_ideal X !! n) as [Bs0|] eqn:E.
    + injection E0 as <- <-. by rewrite E.
    + injection E0 as <- <-.
      cbn [_homogeneous_components_ideal set_homogeneous_components_ideal].
      by rewrite lookup_insert_eq.
  - unfold _homogeneous_component.
    by destruct (_homogeneous_components_ideal X !! n).
  - intros Hc m Bs h Hm Hin.
    destruct (homogeneous_component_object X n true) as (_ & Hs & Hp & _).
    assert (Hi : defining_ideal (snd (_homogeneous_component X n true))
                 = defining_ideal X) by (unfold defining_ideal; by rewrite Hp).
    rewrite Hs, Hi.
    pose proof (homogeneous_component_mem X n true h Hc) as Hmem.
    unfold _homogeneous_component in Hm, Hmem.
    destruct (_homogeneous_components_ideal X !! n) as [Bs0|] eqn:E.
    + by apply (Hc m Bs h).
    + cbn [fst snd _homogeneous_components_ideal
           set_homogeneous_components_ideal] in Hm, Hmem.
      destruct (decide (m = n)) as [-> | Hne].
      * rewrite lookup_insert_eq in Hm. injection Hm as <-. by apply Hmem.
      * rewrite lookup_insert_ne in Hm by done. by apply (Hc m Bs h).
Qed.

(** X11. [X.linear_span()] returns a variety that contains [X]. *)
Theorem linear_span_contains X (w : world) :
  object_of w X -> components_in_ideal X ->
  exists Sp X1 w',
    linear_span X w = (Ok (Sp, X1), w')
    /\ vid X1 = vid X
    /\ is_subset X Sp = true /\ is_subset X1 Sp = true.
Proof.
  intros (HR & Hlt & HcX) Hc. unfold linear_span.
  destruct (homogeneous_component_object X 1 true)
    as (Hv & Hs & Hp & Hd & Hcd).
  pose proof (homogeneous_component_mem X 1 true) as Hmem.
  destruct (_homogeneous_component X 1 true) as [Ls X1] eqn:E.
  cbn [fst snd] in *.
  assert (Hi : defining_ideal X1 = defining_ideal X)
    by (unfold defining_ideal; by rewrite Hp).
  assert (HcX1 : caches_computed X1).
  { destruct HcX as [H1 H2]. split; intros v Hv'.
    - rewrite Hs, Hi. apply H1. congruence.
    - rewrite Hs, Hi. apply H2. congruence. }
  assert (Hsame : forall Y, is_subset X Y = is_subset X1 Y).
  { intros Y. unfold is_subset. by rewrite Hv, Hs, Hi. }
  destruct (Z.of_nat (length Ls) =? 0).
  - eexists _, _, _. split; [reflexivity|]. split; [done|].
    rewrite Hsame. split; by apply is_subset_ambient.
  - unfold bind. rewrite Hs, (init_ok _ _ _ HR).
    eexists _, _, _. split; [reflexivity|]. split; [done|].
    rewrite <- Hsame.
    assert (is_subset X (Variety (Fresh (next_id w)) (ambient_space X) Ls
                           None None ∅) = true); [|done].
    apply is_subset_to_new; [done | done |].
    intros g Hg. by apply Hmem.
Qed.

End Ambient_and_components.

(** ** The further laws and the operations in the space of dimension 0 *)

Module P0_operations_facts.
Import P0 P0_varieties.

Lemma p0_space_laws : SpaceLaws backend.
Proof. split. by intros [] []. Qed.

Lemma p0_ideal_laws : IdealLaws backend.
Proof.
  split; simpl.
  - intros _ I J g. unfold sum. rewrite !P0_facts.mem_lowest, P0_facts.lowest_app.
    destruct (fst g =? 0); [done|]. simpl.
    destruct (lowest J) as [b|]; simpl; [|done].
    destruct (lowest I) as [a|]; simpl; [|done].
    rewrite !Nat.leb_le. lia.
  - intros _ g. unfold mem. simpl. by rewrite orb_true_r.
Qed.

Ltac object_of_world :=
  split; [reflexivity | split; [simpl; lia | split; intros ? [=]]].

Lemma is_subset_reflexive_and_transitive_witness :
  is_subset cut_by_x0 cut_by_x0 = true
  /\ (is_subset cut_by_x0 cut_by_x0_squared = true ->
      is_subset cut_by_x0_squared whole_space = true ->
      is_subset cut_by_x0 whole_space = true).
Proof.
  apply (is_subset_reflexive_and_transitive (L := P0_facts.laws)
           (U := p0_space_laws) cut_by_x0 cut_by_x0_squared whole_space).
  - intros [=].
  - intros [=].
Defined.

Lemma eq_is_an_equivalence_witness :
  __eq__ cut_by_x0_squared cut_by_x0_squared = true
  /\ __eq__ cut_by_x0_squared cut_by_x0_squared_and_cubed
     = __eq__ cut_by_x0_squared_and_cubed cut_by_x0_squared
  /\ (__eq__ cut_by_x0_squared cut_by_x0_squared_and_cubed = true ->
      __eq__ cut_by_x0_squared_and_cubed cut_by_x0_squared = true ->
      __eq__ cut_by_x0_squared cut_by_x0_squared = true).
Proof.
  apply (eq_is_an_equivalence (L := P0_facts.laws) (U := p0_space_laws)
           cut_by_x0_squared cut_by_x0_squared_and_cubed cut_by_x0_squared).
  - intros [=].
  - intros [=].
Defined.

Lemma intersection_is_subset_of_both_witness :
  exists V' w',
    intersection cut_by_x0_squared cut_by_x0 w4 = (Ok V', w')
    /\ is_subset V' cut_by_x0_squared = true /\ is_subset V' cut_by_x0 = true.
Proof.
  apply (intersection_is_subset_of_both (L := P0_facts.laws)
           (IL := p0_ideal_laws) cut_by_x0_squared cut_by_x0 w4).
  - object_of_world.
  - object_of_world.
  - reflexivity.
Defined.

Lemma union_contains_both_witness :
  exists V' w',
    union cut_by_x0_squared cut_by_x0 w4 = (Ok V', w')
    /\ is_subset cut_by_x0_squared V' = true /\ is_subset cut_by_x0 V' = true.
Proof.
  apply (union_contains_both (L := P0_facts.laws)
           cut_by_x0_squared cut_by_x0 w4).
  - object_of_world.
  - object_of_world.
  - reflexivity.
Defined.

Lemma union_and_intersection_commute_witness :
  (exists U1 U2 w1 w2,
     union cut_by_x0_squared cut_by_x0 w4 = (Ok U1, w1)
     /\ union cut_by_x0 cut_by_x0_squared w1 = (Ok U2, w2)
     /\ __eq__ U1 U2 = true)
  /\ (exists V1 V2 w1 w2,
        intersection cut_by_x0_squared cut_by_x0 w4 = (Ok V1, w1)
        /\ intersection cut_by_x0 cut_by_x0_squared w1 = (Ok V2, w2)
        /\ __eq__ V1 V2 = true)
  /\ (exists U w1, union cut_by_x0_squared cut_by_x0_squared w4 = (Ok U, w1)
                   /\ __eq__ U cut_by_x0_squared = true).
Proof.
  apply (union_and_intersection_commute (L := P0_facts.laws)
           (IL := p0_ideal_laws) cut_by_x0_squared cut_by_x0 w4).
  - object_of_world.
  - object_of_world.
  - reflexivity.
Defined.

Lemma difference_is_subset_witness :
  exists D w',
    difference cut_by_x0_squared cut_by_x0 w4 = (Ok D, w')
    /\ is_subset D cut_by_x0_squared = true.
Proof.
  apply (difference_is_subset (L := P0_facts.laws)
           cut_by_x0_squared cut_by_x0 w4).
  - object_of_world.
  - object_of_world.
  - reflexivity.
Defined.

Lemma empty_is_subset_of_all_witness :
  exists E w', empty cut_by_x0 w4 = (Ok E, w')
               /\ is_subset E cut_by_x0_squared = true.
Proof.
  apply (empty_is_subset_of_all (L := P0_facts.laws) (IL := p0_ideal_laws)
           cut_by_x0 cut_by_x0_squared w4).
  - object_of_world.
  - object_of_world.
  - reflexivity.
Defined.

Lemma ambient_is_the_whole_space_witness :
  is_subset cut_by_x0 (ambient cut_by_x0) = true
  /\ codim (ambient cut_by_x0) = 0
  /\ dim (ambient cut_by_x0) = 0
  /\ ambient (ambient cut_by_x0) = ambient cut_by_x0.
Proof.
  apply (ambient_is_the_whole_space (L := P0_facts.laws) cut_by_x0).
  split; intros ? [=].
Defined.

Lemma homogeneous_component_is_memoized_witness :
  let Bs := fst (_homogeneous_component cut_by_x0 2 true) in
  let X1 := snd (_homogeneous_component cut_by_x0 2 true) in
  (forall trim, _homogeneous_component X1 2 trim = (Bs, X1))
  /\ snd (_homogeneous_component cut_by_x0 2 false) = cut_by_x0
  /\ (components_in_ideal cut_by_x0 -> components_in_ideal X1).
Proof.
  apply (homogeneous_component_is_memoized (L := P0_facts.laws) cut_by_x0 2).
Defined.

(** The component of degree 2 of the ideal of [x0] is spanned by
    [x0^2]. *)
Example homogeneous_component_of_degree_two :
  fst (_homogeneous_component cut_by_x0 2 true) = [(1, 2%nat)].
Proof. vm_compute. reflexivity. Qed.

Lemma linear_span_contains_witness :
  exists Sp X1 w',
    linear_span cut_by_x0 w4 = (Ok (Sp, X1), w')
    /\ vid X1 = vid cut_by_x0
    /\ is_subset cut_by_x0 Sp = true /\ is_subset X1 Sp = true.
Proof.
  apply (linear_span_contains (L := P0_facts.laws) cut_by_x0 w4).
  - object_of_world.
  - intros n Bs h Hn. simpl in Hn. rewrite lookup_empty in Hn. discriminate Hn.
Defined.

End P0_operations_facts.

(** ** The constructor of rational maps, and inverses *)

Section Constructor_properties.
Context `{B : Backend}.

Implicit Types f g m : Rational_map_between_embedded_projective_varieties.
Implicit Types s : store.

Lemma list_min_max_bounds (d : Z) (ds : list Z) (x : Z) :
  In x (d :: ds) -> list_min d ds <= x <= list_max d ds.
Proof.
  unfold list_min, list_max. induction ds as [| a ds IH]; simpl.
  - intros [<- | []]. lia.
  - intros [<- | [<- | Hin]].
    + specialize (IH (or_introl eq_refl)). lia.
    + lia.
    + specialize (IH (or_intror Hin)). lia.
Qed.

(** X12. Every map the constructor returns has forms of one degree: the
    tuple it was given has as many forms as the ambient space of the
    target has coordinates, one of the stored forms is not zero, and every
    stored form that is not zero has the degree kept in [__degree_Forms].
    A tuple of another length is refused with [ValueError], and nothing is
    built. *)
Theorem constructor_keeps_forms_of_one_degree
    (X Y : Embedded_projective_variety) (polys : list poly) s :
  base_ring_is (ambient_space X) (ambient_space Y) = true ->
  (Z.of_nat (length polys) <> dim (ambient Y) + 1 ->
   Rational_map__init__ X Y polys s
   = (Raise (ValueError "got wrong number of polynomials"), s))
  /\ forall (l : nat) s',
       Rational_map__init__ X Y polys s = (Ok l, s') ->
       Z.of_nat (length polys) = dim (ambient Y) + 1
       /\ exists m,
            st_maps s' !! l = Some m
            /\ (exists p, In p (map_polys m) /\ poly_is_zero p = false)
            /\ forall p, In p (map_polys m) -> poly_is_zero p = false ->
                         form_degree p = __degree_Forms m.
Proof.
  intros Hb. unfold Rational_map__init__. rewrite Hb. cbn [negb]. split.
  - intros Hne. by destruct (Z.eqb_spec (Z.of_nat (length polys))
                               (dim (ambient Y) + 1)).
  - intros l s'.
    destruct (Z.eqb_spec (Z.of_nat (length polys)) (dim (ambient Y) + 1))
      as [Hlen | ?]; [|discriminate]. cbn [negb].
    destruct (negb (polys_ring_ngens polys =? _)); [discriminate|].
    destruct (scheme_morphism_init _ _ _); [discriminate|].
    set (ps := subs_into (ambient_space X) polys).
    destruct (map form_degree
                (filter (fun pol => poly_is_zero pol = false) ps))
      as [| d ds] eqn:Ed; [discriminate|].
    destruct (Z.eqb_spec (list_max d ds) (list_min d ds)) as [Heq | ?];
      [|discriminate]. cbn [negb].
    unfold new_map. intros [= <- <-]. split; [done|].
    eexists. split; [apply lookup_insert_eq|]. cbn [map_polys __degree_Forms].
    assert (Hin : forall p, In p ps -> poly_is_zero p = false ->
                            In (form_degree p) (d :: ds)).
    { intros p Hp Hz. rewrite <- Ed. apply in_map.
      apply list_elem_of_In, list_elem_of_filter. split; [done|].
      by apply list_elem_of_In. }
    split.
    + assert (Hd : In d (map form_degree
                 (filter (fun pol => poly_is_zero pol = false) ps)))
        by (rewrite Ed; by left).
      apply in_map_iff in Hd as (p & _ & Hp).
      apply list_elem_of_In, list_elem_of_filter in Hp as [Hz Hp].
      exists p. split; [by apply list_elem_of_In | done].
    + intros p Hp Hz.
      pose proof (list_min_max_bounds d ds _ (Hin p Hp Hz)). lia.
Qed.

(** X13. [inverse(check=False)] caches nothing: when it returns, the
    attributes of the map are what they were, so a further call asks
    Macaulay2 again. *)
Theorem inverse_unchecked_caches_nothing (env : inverse_oracle)
    (self : nat) (algorithm : string) s f (g : nat) s' :
  next_free s ->
  st_maps s !! self = Some f ->
  _inverse_rational_map f = None ->
  inverse env self false algorithm s = (Ok g, s') ->
  st_maps s' !! self = Some f.
Proof.
  intros Hfree Hs Hinv. unfold inverse, bind at 1, the_map.
  rewrite Hs, Hinv.
  set (f1 := if is_none (_is_birational f)
                && negb (dim (_source f) =? dim (_target f))
             then set_is_birational f (Some false) else f).
  assert (Hf1 : is_false (_is_birational f1) = false -> f1 = f).
  { unfold f1. destruct (is_none (_is_birational f) && _); [|done].
    simpl. discriminate. }
  unfold bind at 1, put_map. cbn [st_world st_maps].
  destruct (is_false (_is_birational f1)) eqn:Eb; [discriminate|].
  rewrite (Hf1 eq_refl). clear f1 Hf1 Eb. cbn [orb].
  destruct (is_false (_is_dominant f)); [discriminate|].
  destruct (negb (String.eqb algorithm "macaulay2")); [discriminate|].
  destruct (m2_inverse env) as [g2 | err]; [|discriminate].
  unfold bind at 1.
  destruct (_from_macaulay2map_to_sagemap g2 _ _ _) as [[l | e] s1] eqn:E;
    [|discriminate].
  assert (Hs1 : st_maps s1 !! self = Some f).
  { eapply from_macaulay2map_keeps; [| |exact E].
    - unfold next_free in *. cbn [st_world st_maps].
      rewrite lookup_insert_ne; [done|]. intros Heq.
      rewrite Heq in Hs. congruence.
    - cbn [st_maps]. apply lookup_insert_eq. }
  unfold bind at 1. cbv beta.
  destruct (st_maps s1 !! l) as [gm|] eqn:Hl; [|discriminate].
  unfold bind, assert.
  destruct (oid_eqb _ _ && oid_eqb _ _); [|discriminate]. cbn [ret].
  unfold ret. by intros [= <- <-].
Qed.

End Constructor_properties.

Section Inverse_round_trip.
Context `{B : Backend}.

Implicit Types f g m : Rational_map_between_embedded_projective_varieties.
Implicit Types s : store.

Lemma inverse_checked_links (env : inverse_oracle) (self : nat)
    (algorithm : string) s f (g : nat) s' :
  next_free s ->
  st_maps s !! self = Some f ->
  _inverse_rational_map f = None ->
  inverse env self true algorithm s = (Ok g, s') ->
  exists f' g',
    st_maps s' !! self = Some f' /\ st_maps s' !! g = Some g'
    /\ _inverse_rational_map f' = Some g
    /\ _inverse_rational_map g' = Some self.
Proof.
  intros Hfree Hs Hinv. unfold inverse, bind at 1, the_map.
  rewrite Hs, Hinv.
  set (f1 := if is_none (_is_birational f)
                && negb (dim (_source f) =? dim (_target f))
             then set_is_birational f (Some false) else f).
  unfold bind at 1, put_map. cbn [st_world st_maps].
  destruct (is_false (_is_birational f1) || is_false (_is_dominant f1));
    [discriminate|].
  destruct (negb (String.eqb algorithm "macaulay2")); [discriminate|].
  destruct (m2_inverse env) as [g2 | err]; [|discriminate].
  unfold bind at 1.
  destruct (_from_macaulay2map_to_sagemap g2 _ _ _) as [[l | e] s1] eqn:E;
    [|discriminate].
  assert (Hs1 : st_maps s1 !! self = Some f1).
  { eapply from_macaulay2map_keeps; [| |exact E].
    - unfold next_free in *. cbn [st_world st_maps].
      rewrite lookup_insert_ne; [done|]. intros Heq.
      rewrite Heq in Hs. congruence.
    - cbn [st_maps]. apply lookup_insert_eq. }
  unfold bind at 1. cbv beta.
  destruct (st_maps s1 !! l) as [gm|] eqn:Hl; [|discriminate].
  unfold bind at 1, assert.
  destruct (oid_eqb _ _ && oid_eqb _ _); [|discriminate]. cbn [ret].
  unfold bind at 1, of_result.
  destruct (point_on_source env) as [p | e]; [|discriminate].
  unfold bind at 1.
  destruct (round_trip_source env) as [[|] | e]; try discriminate.
  unfold bind at 1. cbn [ret].
  unfold bind at 1.
  destruct (point_on_target env) as [q | e]; [|discriminate].
  unfold bind at 1.
  destruct (round_trip_target env) as [[|] | e]; try discriminate.
  unfold bind at 1. cbn [ret].
  unfold bind at 1. cbv beta. rewrite Hs1.
  unfold bind at 1. cbv beta. cbn [st_world st_maps].
  unfold bind at 1. cbv beta. cbn [st_maps].
  destruct (decide (l = self)) as [-> | Hne].
  - rewrite lookup_insert_eq. unfold bind at 1.
    cbn [is_true set_is_birational _is_birational ret].
    unfold bind, put_map, ret. cbn [st_maps st_world].
    rewrite lookup_insert_eq. intros [= <- <-]. cbn [st_maps].
    eexists _, _. split; [apply lookup_insert_eq|].
    split; [apply lookup_insert_eq|]. done.
  - rewrite lookup_insert_ne by done. rewrite Hl.
    unfold bind at 1.
    destruct (is_true (_is_birational gm)); [|discriminate]. cbn [ret].
    unfold bind, put_map, ret. cbn [st_maps st_world].
    rewrite lookup_insert_ne by done. rewrite lookup_insert_eq.
    intros [= <- <-]. cbn [st_maps].
    eexists _, _. split; [apply lookup_insert_eq|].
    split; [rewrite lookup_insert_ne by done; apply lookup_insert_eq|]. done.
Qed.

(** X14. After [inverse()] has returned [g] with checking enabled, the
    inverse of [g] is the map itself and the inverse of the map is [g]
    again: both calls return at once, whatever Macaulay2 would answer and
    whatever the arguments, and change nothing. *)
Theorem inverse_of_inverse_is_the_map (env : inverse_oracle) (self : nat)
    (algorithm : string) s f (g : nat) s' :
  next_free s ->
  st_maps s !! self = Some f ->
  _inverse_rational_map f = None ->
  inverse env self true algorithm s = (Ok g, s') ->
  forall (env' : inverse_oracle) (check : bool) (algorithm' : string),
    inverse env' g check algorithm' s' = (Ok self, s')
    /\ inverse env' self check algorithm' s' = (Ok g, s').
Proof.
  intros Hfree Hs Hinv Hrun env' check algorithm'.
  destruct (inverse_checked_links env self algorithm s f g s'
              Hfree Hs Hinv Hrun) as (f' & g' & Hf' & Hg' & Hfg & Hgf).
  split; eapply inverse_returns_cached; eauto.
Qed.

End Inverse_round_trip.

Module P0_constructor_facts.
Import P0_maps.

Lemma constructor_keeps_forms_of_one_degree_witness :
  (Z.of_nat (length [(1, 1%nat)]) <> dim (ambient the_space) + 1 ->
   Rational_map__init__ the_space the_space [(1, 1%nat)] s0
   = (Raise (ValueError "got wrong number of polynomials"), s0))
  /\ forall (l : nat) s',
       Rational_map__init__ the_space the_space [(1, 1%nat)] s0 = (Ok l, s') ->
       Z.of_nat (length [(1, 1%nat)]) = dim (ambient the_space) + 1
       /\ exists m,
            st_maps s' !! l = Some m
            /\ (exists p, In p (map_polys m)
                          /\ poly_is_zero (Backend := P0.backend) p = false)
            /\ forall p, In p (map_polys m) ->
                         poly_is_zero (Backend := P0.backend) p = false ->
                         form_degree (Backend := P0.backend) p
                         = __degree_Forms m.
Proof.
  apply (constructor_keeps_forms_of_one_degree (B := P0.backend)
           the_space the_space [(1, 1%nat)] s0).
  reflexivity.
Defined.

(** The constructor returns at this input, and refuses two forms. *)
Example constructor_returns :
  fst (Rational_map__init__ the_space the_space [(1, 1%nat)] s0) = Ok 2%nat.
Proof. vm_compute. reflexivity. Qed.

Example constructor_refuses_two_forms :
  Rational_map__init__ the_space the_space [(1, 1%nat); (1, 1%nat)] s0
  = (Raise (ValueError "got wrong number of polynomials"), s0).
Proof. vm_compute. reflexivity. Qed.

Lemma inverse_unchecked_caches_nothing_witness :
  st_maps (snd (inverse answers 2%nat false "macaulay2" s2)) !! 2%nat
  = Some identity_map.
Proof.
  apply (inverse_unchecked_caches_nothing answers 2%nat "macaulay2" s2
           identity_map 4%nat).
  - vm_compute. reflexivity.
  - vm_compute. reflexivity.
  - reflexivity.
  - vm_compute. reflexivity.
Defined.

Lemma inverse_of_inverse_is_the_map_witness :
  fst (inverse answers 2%nat true "macaulay2" s2) = Ok 4%nat
  /\ forall (env' : inverse_oracle) (check : bool) (algorithm' : string),
       inverse env' 4%nat check algorithm'
         (snd (inverse answers 2%nat true "macaulay2" s2))
       = (Ok 2%nat, snd (inverse answers 2%nat true "macaulay2" s2))
       /\ inverse env' 2%nat check algorithm'
            (snd (inverse answers 2%nat true "macaulay2" s2))
          = (Ok 4%nat, snd (inverse answers 2%nat true "macaulay2" s2)).
Proof.
  split; [vm_compute; reflexivity|].
  apply (inverse_of_inverse_is_the_map answers 2%nat "macaulay2" s2
           identity_map 4%nat).
  - vm_compute. reflexivity.
  - vm_compute. reflexivity.
  - reflexivity.
  - vm_compute. reflexivity.
Defined.

End P0_constructor_facts.

(** ** Images and dominance *)

Section Image_properties.
Context `{B : Backend}.
Variable kernel_generators :
  Rational_map_between_embedded_projective_varieties -> result (list poly).
Variable elimination_generators :
  option string -> Rational_map_between_embedded_projective_varieties ->
  result (list poly).

Implicit Types m : Rational_map_between_embedded_projective_varieties.
Implicit Types s : xstore.

Abbreviation image' := (image kernel_generators elimination_generators).
Abbreviation is_dominant' :=
  (is_dominant kernel_generators elimination_generators).
Abbreviation make_dominant' :=
  (make_dominant kernel_generators elimination_generators).
Abbreviation super' := (super kernel_generators elimination_generators).

(** the attribute [_closure_of_image] of the object at an address *)
Abbreviation closure_at s l :=
  (_closure_of_image (default no_attributes (xs_attributes s !! l))).

Lemma in_store_the_map (l : nat) s m :
  st_maps (xs_store s) !! l = Some m ->
  in_store (the_map l) s = (Ok m, s).
Proof.
  intros Hl. unfold in_store, the_map. rewrite Hl. by destruct s.
Qed.

Lemma address_in_use s (l : nat) m :
  addresses_free s -> st_maps (xs_store s) !! l = Some m ->
  (l < next_id (st_world (xs_store s)))%nat.
Proof.
  intros Hfree Hl.
  destruct (Nat.lt_ge_cases l (next_id (st_world (xs_store s)))) as [|Hge];
    [done|].
  destruct (Hfree l Hge) as [Hn _]. congruence.
Qed.

(** A constructor call leaves a map without image as it is. *)
Lemma init_keeps (X Y : Embedded_projective_variety) (polys : list poly)
    (self : nat) m s (l : nat) s1 :
  without_image self m s ->
  in_store (Rational_map__init__ X Y polys) s = (Ok l, s1) ->
  without_image self m s1 /\ l <> self
  /\ exists gm, st_maps (xs_store s1) !! l = Some gm
                /\ _source gm = X /\ _target gm = Y
                /\ _is_dominant gm = (if dim Y <? 0 then Some true else None)
                /\ _is_morphism gm = None.
Proof.
  intros (Hfree & Hm & Hc). unfold in_store.
  destruct (Rational_map__init__ X Y polys (xs_store s)) as [[l0 | e] st] eqn:E;
    [|discriminate].
  intros [= <- <-].
  apply Rational_map_init_returns in E
    as (-> & gm & -> & HX & HY & _ & _ & Hd & Hmo & _).
  pose proof (address_in_use s self m Hfree Hm) as Hlt.
  split; [|split].
  - split; [|split]; cbn [xs_store xs_attributes st_maps st_world next_id].
    + intros l Hl. cbn [xs_store xs_attributes st_maps st_world next_id] in *.
      destruct (Hfree l) as [H1 H2]; [lia|].
      split; [|done]. rewrite lookup_insert_ne; [done | lia].
    + rewrite lookup_insert_ne; [done | lia].
    + done.
  - lia.
  - exists gm. cbn [xs_store st_maps]. by rewrite lookup_insert_eq.
Qed.

(** An assignment to an attribute other than the image, or to another
    object in use, leaves a map without image as it is. *)
Lemma assign_keeps (l self : nat) (set : map_attributes -> map_attributes)
    m s :
  without_image self m s ->
  (l < next_id (st_world (xs_store s)))%nat ->
  (l = self -> forall a, _closure_of_image (set a) = _closure_of_image a) ->
  without_image self m (snd (assign l set s)).
Proof.
  intros (Hfree & Hm & Hc) Hlt Hset. unfold assign. cbn [snd].
  split; [|split]; cbn [xs_store xs_attributes].
  - intros l' Hl'. cbn [xs_store xs_attributes st_maps st_world next_id] in *.
    destruct (Hfree l' Hl') as [H1 H2].
    split; [done|]. rewrite lookup_insert_ne; [done | lia].
  - done.
  - destruct (decide (l = self)) as [-> | Hne].
    + rewrite lookup_insert_eq. simpl. by rewrite Hset.
    + by rewrite lookup_insert_ne.
Qed.

Lemma put_keeps (l self : nat) m gm gm' s :
  without_image self m s -> l <> self ->
  st_maps (xs_store s) !! l = Some gm ->
  without_image self m (snd (in_store (put_map l gm') s)).
Proof.
  intros (Hfree & Hm & Hc) Hne Hl.
  pose proof (address_in_use s l gm Hfree Hl) as Hlt.
  unfold in_store, put_map. cbn [snd].
  split; [|split]; cbn [xs_store xs_attributes st_maps st_world].
  - intros l' Hl'. cbn [xs_store xs_attributes st_maps st_world next_id] in *.
    destruct (Hfree l' Hl') as [H1 H2].
    split; [|done]. rewrite lookup_insert_ne; [done | lia].
  - by rewrite lookup_insert_ne.
  - done.
Qed.

Lemma representatives_keep (X A : Embedded_projective_variety)
    (reps : list nat) (self : nat) m s (l : list nat) s1 :
  without_image self m s ->
  representatives_in_ambient X A reps s = (Ok l, s1) ->
  without_image self m s1
  /\ (next_id (st_world (xs_store s)) <= next_id (st_world (xs_store s1)))%nat
  /\ forall l' gm, l' <> self -> st_maps (xs_store s) !! l' = Some gm ->
                   st_maps (xs_store s1) !! l' = Some gm.
Proof.
  revert s l. induction reps as [| f reps IH]; intros s l Hw; simpl.
  - unfold ret. intros [= <- <-]. split; [done|]. split; [lia | auto].
  - unfold bind at 1.
    destruct (in_store (the_map f) s) as [[fm | e] s0] eqn:E0; [|discriminate].
    assert (s0 = s) as ->.
    { unfold in_store, the_map in E0.
      destruct (st_maps (xs_store s) !! f); [|discriminate].
      injection E0 as _ <-. by destruct s. }
    unfold bind at 1.
    destruct (in_store (Rational_map__init__ X A (map_polys fm)) s)
      as [[g | e] s2] eqn:E1; [|discriminate].
    pose proof E1 as E1'.
    apply (init_keeps X A _ self m s g s2 Hw) in E1 as (Hw2 & Hne & _).
    unfold bind at 1.
    destruct (representatives_in_ambient X A reps s2) as [[l0 | e] s3] eqn:E2;
      [|discriminate].
    intros [= <- <-].
    destruct (IH s2 l0 Hw2 E2) as (Hw3 & Hle & Hk).
    unfold in_store in E1'.
    destruct (Rational_map__init__ X A (map_polys fm) (xs_store s))
      as [[g' | e] st] eqn:E3; [|discriminate].
    injection E1' as -> <-.
    apply Rational_map_init_returns in E3 as (-> & gm & -> & _).
    cbn [xs_store st_world next_id st_maps] in *.
    split; [done|]. split; [lia|].
    intros l' gm' Hl' Hgm'. apply Hk; [done|].
    rewrite lookup_insert_ne; [done|]. intros <-.
    destruct Hw as (Hfree & _). destruct (Hfree _ (le_n _)) as [Hn _].
    congruence.
Qed.

Lemma assign_runs (l : nat) (set : map_attributes -> map_attributes) s :
  assign l set s = (Ok tt, snd (assign l set s)).
Proof. reflexivity. Qed.

Lemma assign_keeps_maps (l : nat) (set : map_attributes -> map_attributes) s :
  xs_store (snd (assign l set s)) = xs_store s.
Proof. reflexivity. Qed.

(** [super()] on a map that is not known to be dominant and has no image
    does not give it one. *)
Lemma super_keeps
    (img : nat -> option string -> ST xstore Embedded_projective_variety)
    (self : nat) m s (g : nat) s1 :
  without_image self m s ->
  is_true (_is_dominant m) = false ->
  super_with img self s = (Ok g, s1) ->
  without_image self m s1.
Proof.
  intros Hw Hd. pose proof Hw as (Hfree & Hm & Hc).
  pose proof (address_in_use s self m Hfree Hm) as Hlt.
  unfold super_with, bind at 1, attributes_of.
  destruct (_super_map _) as [g0|]; [unfold ret; by intros [= <- <-]|].
  unfold bind at 1. rewrite (in_store_the_map self s m Hm).
  destruct (oid_eqb _ _).
  { unfold bind, ret. rewrite assign_runs. intros [= <- <-].
    apply (assign_keeps self self (fun a => set_super_map a (Some self)) m s);
      done. }
  unfold bind at 1.
  destruct (in_store (Rational_map__init__ _ _ _) s) as [[l | e] s2] eqn:E;
    [|discriminate].
  apply (init_keeps _ _ _ self m s l s2 Hw) in E
    as (Hw2 & Hne & gm & Hgm & _).
  pose proof Hw2 as (Hfree2 & Hm2 & Hc2).
  unfold bind at 1. rewrite assign_runs.
  assert (Hw3 : without_image self m
            (snd (assign self (fun a => set_super_map a (Some l)) s2))).
  { apply assign_keeps; [done | | done].
    by apply (address_in_use s2 self m). }
  set (s3 := snd (assign self _ s2)) in *.
  assert (Hgm3 : st_maps (xs_store s3) !! l = Some gm) by done.
  rewrite Hd, Hc. cbn [orb]. rewrite bool_decide_eq_false_2 by (by intros [? ?]).
  unfold bind at 1. cbn [ret].
  assert (Hreps : forall s4 (gm4 : Rational_map_between_embedded_projective_varieties),
    without_image self m s4 -> st_maps (xs_store s4) !! l = Some gm4 ->
    (m0 <- in_store (the_map self);;
     _ <- assign_is_morphism l (_is_morphism m0);;
     _ <- match map_projective_degrees_list
                  (default no_attributes (xs_attributes s !! self)) with
          | Some l0 =>
              assign l (fun a => set_map_projective_degrees_list a (Some l0))
          | None => ret tt
          end;; ret l) s4 = (Ok g, s1) ->
    without_image self m s1).
  { intros s4 gm4 Hw4 Hgm4. pose proof Hw4 as (Hfree4 & Hm4 & Hc4).
    unfold bind at 1. rewrite (in_store_the_map self s4 m Hm4).
    unfold bind at 1, assign_is_morphism, bind at 1.
    rewrite (in_store_the_map l s4 gm4 Hgm4).
    pose proof (put_keeps l self m gm4 (set_is_morphism gm4 (_is_morphism m))
                  s4 Hw4 Hne Hgm4) as Hw5.
    destruct (in_store (put_map l _) s4) as [r5 s5] eqn:E5.
    assert (r5 = Ok tt) as -> by (unfold in_store, put_map in E5; congruence).
    cbn [snd] in Hw5.
    assert (Hlt5 : (l < next_id (st_world (xs_store s5)))%nat).
    { unfold in_store, put_map in E5. injection E5 as <-.
      cbn [xs_store st_world]. by apply (address_in_use s4 l gm4). }
    destruct (map_projective_degrees_list _).
    - unfold bind, ret. rewrite assign_runs. intros [= <- <-].
      apply (assign_keeps l self
               (fun a => set_map_projective_degrees_list a (Some l0)) m s5);
        [done | done | congruence].
    - unfold bind, ret. by intros [= <- <-]. }
  destruct (_list_of_representatives_of_map _) as [reps|].
  - unfold bind at 1, bind at 1.
    destruct (representatives_in_ambient _ _ reps s3) as [[l0 | e] s4] eqn:E4;
      [|discriminate].
    apply (representatives_keep _ _ reps self m s3 l0 s4 Hw3) in E4
      as (Hw4 & Hle & Hk).
    rewrite assign_runs. apply (Hreps _ gm).
    + apply assign_keeps; [done | | congruence].
      apply (address_in_use s4 l gm); [by destruct Hw4 | by apply Hk].
    + rewrite assign_keeps_maps. by apply Hk.
  - by apply (Hreps _ gm).
Qed.

Lemma eq_same_object (T : Embedded_projective_variety) : __eq__ T T = true.
Proof. unfold __eq__, is_subset. by rewrite oid_eqb_refl. Qed.

(** A map known to be dominant, or with an image already computed,
    answers [image()] at once. *)
Lemma image_known (d : nat) (self : nat) (algorithm : option string) s m :
  st_maps (xs_store s) !! self = Some m ->
  (_is_dominant m = Some true ->
   image' (S d) self algorithm s = (Ok (_target m), s))
  /\ (forall Z, is_true (_is_dominant m) = false ->
                closure_at s self = Some Z ->
                image' (S d) self algorithm s = (Ok Z, s)).
Proof.
  intros Hm. split.
  - intros Hd. cbn [image]. unfold bind.
    rewrite (in_store_the_map self s m Hm), Hd. reflexivity.
  - intros Z Hd Hc. cbn [image]. unfold bind at 1.
    rewrite (in_store_the_map self s m Hm), Hd.
    unfold bind, attributes_of. by rewrite Hc.
Qed.

(** What a call of [image()] that returns leaves behind. *)
Lemma image_runs
    (depth : nat) (self : nat) (algorithm : option string) s m
    (Z : Embedded_projective_variety) s' :
  addresses_free s ->
  st_maps (xs_store s) !! self = Some m ->
  image' depth self algorithm s = (Ok Z, s') ->
  exists m',
    st_maps (xs_store s') !! self = Some m'
    /\ _source m' = _source m /\ _target m' = _target m
      /\ map_polys m' = map_polys m
    /\ addresses_free s'
    /\ (_is_dominant m' = Some true /\ Z = _target m'
        \/ is_true (_is_dominant m') = false /\ closure_at s' self = Some Z)
    /\ (is_true (_is_dominant m) = true \/ is_Some (closure_at s self) ->
        s' = s)
    /\ (_is_dominant m <> Some true -> closure_at s self = None ->
        _is_dominant m' = Some (__eq__ Z (_target m))
        /\ closure_at s' self = Some Z
        /\ (_is_dominant m' = Some true -> Z = _target m)).
Proof.
  intros Hfree Hm. destruct depth as [| depth]; [discriminate|].
  cbn [image]. unfold bind at 1. rewrite (in_store_the_map self s m Hm).
  destruct (is_true (_is_dominant m)) eqn:Hd.
  { unfold ret. intros [= <- <-].
    assert (Hd' : _is_dominant m = Some true)
      by (by destruct (_is_dominant m) as [[|]|]).
    exists m. split; [done|]. split; [done|]. split; [done|].
    split; [done|]. split; [done|]. split; [by left|]. split; [done|].
    intros Hne. by destruct Hne. }
  unfold bind at 1, attributes_of.
  destruct (closure_at s self) as [Z0|] eqn:Hc.
  { unfold ret. intros [= <- <-].
    exists m. split; [done|]. split; [done|]. split; [done|].
    split; [done|]. split; [done|]. split; [by right|]. split; [done|].
    intros _ [=]. }
  assert (Hw : without_image self m s) by done.
  assert (Htail : forall gens s1,
    without_image self m s1 ->
    (Z <- in_store (lift (__init__ (ambient_space (_target m)) gens));;
     _ <- assign self (fun a => set_closure_of_image a (Some Z));;
     (if __eq__ Z (_target m)
      then
        _ <- assign self (fun a => set_closure_of_image a (Some (_target m)));;
        _ <- assign_is_dominant self (Some true);;
        ret (_target m)
      else _ <- assign_is_dominant self (Some false);; ret Z)) s1
    = (Ok Z, s') ->
    exists m',
      st_maps (xs_store s') !! self = Some m'
      /\ _source m' = _source m /\ _target m' = _target m
      /\ map_polys m' = map_polys m
      /\ addresses_free s'
      /\ (_is_dominant m' = Some true /\ Z = _target m'
          \/ is_true (_is_dominant m') = false /\ closure_at s' self = Some Z)
      /\ (false = true \/ is_Some (None (A := Embedded_projective_variety)) ->
          s' = s)
      /\ (_is_dominant m <> Some true ->
          None = None (A := Embedded_projective_variety) ->
          _is_dominant m' = Some (__eq__ Z (_target m))
          /\ closure_at s' self = Some Z
          /\ (_is_dominant m' = Some true -> Z = _target m))).
  { clear Hw Hfree Hm Hc. intros gens s1 (Hfree & Hm & Hc1).
    pose proof (address_in_use s1 self m Hfree Hm) as Hlt.
    unfold bind at 1, in_store at 1, lift, __init__.
    destruct (negb (base_ring_in_fields _)); [discriminate|].
    unfold bind at 1, alloc, ret at 1. cbn [xs_store xs_attributes st_world].
    set (Znew := Variety (Fresh _) _ gens None None ∅).
    unfold bind at 1. rewrite assign_runs.
    unfold assign. cbn [snd xs_store xs_attributes].
    assert (Hfin : forall sa v (Zr : Embedded_projective_variety),
      addresses_free sa ->
      st_maps (xs_store sa) !! self = Some m ->
      closure_at sa self = Some Zr ->
      (v = true -> Zr = _target m) -> __eq__ Zr (_target m) = v ->
      (_ <- assign_is_dominant self (Some v);; ret Zr) sa = (Ok Z, s') ->
      exists m',
        st_maps (xs_store s') !! self = Some m'
        /\ _source m' = _source m /\ _target m' = _target m
      /\ map_polys m' = map_polys m
        /\ addresses_free s'
        /\ (_is_dominant m' = Some true /\ Z = _target m'
            \/ is_true (_is_dominant m') = false
               /\ closure_at s' self = Some Z)
        /\ (false = true
            \/ is_Some (None (A := Embedded_projective_variety)) -> s' = s)
        /\ (_is_dominant m <> Some true ->
            None = None (A := Embedded_projective_variety) ->
            _is_dominant m' = Some (__eq__ Z (_target m))
            /\ closure_at s' self = Some Z
            /\ (_is_dominant m' = Some true -> Z = _target m))).
    { intros sa v Zr Hfa Hma Hca Hv Hev.
      pose proof (address_in_use sa self m Hfa Hma) as Hlta.
      unfold bind at 1, assign_is_dominant, bind at 1.
      rewrite (in_store_the_map self sa m Hma).
      unfold in_store, put_map, ret. intros [= <- <-].
      cbn [xs_store xs_attributes st_maps].
      eexists. split; [apply lookup_insert_eq|].
      split; [done|]. split; [done|]. split; [done|].
      split.
      { intros l Hl.
        cbn [xs_store xs_attributes st_maps st_world next_id] in *.
        destruct (Hfa l Hl) as [H1 H2]. split; [|done].
        rewrite lookup_insert_ne; [done | lia]. }
      cbn [_is_dominant set_is_dominant _target].
      split.
      { destruct v; [left | right]; [|done].
        split; [done|]. by apply Hv. }
      split; [by intros [[=] | [? [=]]]|].
      intros _ _. split; [by rewrite Hev|]. split; [done|].
      intros [= ->]. by apply Hv. }
    assert (Hfree2 : forall a, addresses_free
      {| xs_store :=
           {| st_world :=
                {| next_id := S (next_id (st_world (xs_store s1)));
                   rng_pos := rng_pos (st_world (xs_store s1)) |};
              st_maps := st_maps (xs_store s1) |};
         xs_attributes := <[self := a]> (xs_attributes s1) |}).
    { intros a l Hl. cbn [xs_store xs_attributes st_maps st_world next_id] in *.
      destruct (Hfree l) as [H1 H2]; [lia|]. split; [done|].
      rewrite lookup_insert_ne; [done | lia]. }
    destruct (__eq__ Znew (_target m)) eqn:Eb.
    - unfold bind at 1. cbn [snd xs_store xs_attributes]. apply Hfin.
      + rewrite insert_insert_eq. apply Hfree2.
      + done.
      + cbn [xs_attributes]. rewrite lookup_insert_eq. reflexivity.
      + done.
      + apply eq_same_object.
    - apply Hfin.
      + apply Hfree2.
      + done.
      + cbn [xs_attributes]. rewrite lookup_insert_eq. reflexivity.
      + discriminate.
      + exact Eb. }
  unfold bind at 1. destruct (is_kernel_ring_map algorithm).
  - unfold bind at 1.
    destruct (super_with _ self s) as [[g | e] s0] eqn:E0; [|discriminate].
    apply (super_keeps _ self m s g s0 Hw Hd) in E0.
    unfold bind at 1, in_store at 1, the_map at 1.
    destruct (st_maps (xs_store s0) !! g) as [gm|]; [|discriminate].
    unfold of_result. destruct (kernel_generators gm) as [gens | e];
      [|discriminate].
    apply Htail. by destruct s0.
  - unfold of_result.
    destruct (elimination_generators algorithm m) as [gens | e];
      [|discriminate].
    by apply Htail.
Qed.

(** X15. [image()] is computed once.  When the call returns [Z], every
    further call returns [Z] at once, whatever the algorithm asked for.
    When the image had to be computed, the call resolves dominance:
    [_is_dominant] becomes [Z == target], and [Z] is the target itself
    when that is true. *)
Theorem image_is_computed_once_and_resolves_dominance
    (depth : nat) (self : nat) (algorithm : option string) s m
    (Z : Embedded_projective_variety) s' :
  addresses_free s ->
  st_maps (xs_store s) !! self = Some m ->
  image' depth self algorithm s = (Ok Z, s') ->
  (forall d algorithm', image' (S d) self algorithm' s' = (Ok Z, s'))
  /\ exists m',
       st_maps (xs_store s') !! self = Some m'
       /\ _source m' = _source m /\ _target m' = _target m
       /\ (_is_dominant m <> Some true -> closure_at s self = None ->
           _is_dominant m' = Some (__eq__ Z (_target m))
           /\ closure_at s' self = Some Z
           /\ (_is_dominant m' = Some true -> Z = _target m)).
Proof.
  intros Hfree Hm Hrun.
  destruct (image_runs depth self algorithm s m Z s' Hfree Hm Hrun)
    as (m' & Hm' & Hs & Ht & _ & _ & Hk & _ & Hres).
  split.
  - intros d algorithm'. destruct Hk as [[Hd ->] | [Hd Hc]].
    + by apply (proj1 (image_known d self algorithm' s' m' Hm')).
    + by apply (proj2 (image_known d self algorithm' s' m' Hm')).
  - exists m'. split; [done|]. split; [done|]. split; [done|]. exact Hres.
Qed.

Lemma put_map_frees (l : nat) m gm s :
  addresses_free s -> st_maps (xs_store s) !! l = Some m ->
  addresses_free (snd (in_store (put_map l gm) s)).
Proof.
  intros Hfree Hl. pose proof (address_in_use s l m Hfree Hl) as Hlt.
  intros l' Hl'. unfold in_store, put_map in *.
  cbn [snd xs_store xs_attributes st_maps st_world next_id] in *.
  destruct (Hfree l' Hl') as [H1 H2]. split; [|done].
  rewrite lookup_insert_ne; [done | lia].
Qed.

Lemma assign_is_dominant_runs (l : nat) (v : option bool) s m :
  st_maps (xs_store s) !! l = Some m ->
  assign_is_dominant l v s
  = (Ok tt, Xstore (Store (st_world (xs_store s))
                      (<[l := set_is_dominant m v]> (st_maps (xs_store s))))
              (xs_attributes s)).
Proof.
  intros Hl. unfold assign_is_dominant, bind.
  by rewrite (in_store_the_map l s m Hl).
Qed.

(** What a call of [is_dominant()] that returns leaves behind. *)
Lemma is_dominant_runs (depth : nat) (self : nat) s m (b : bool) s' :
  addresses_free s ->
  st_maps (xs_store s) !! self = Some m ->
  is_dominant' depth self s = (Ok b, s') ->
  addresses_free s'
  /\ exists m',
       st_maps (xs_store s') !! self = Some m'
       /\ _is_dominant m' = Some b
       /\ _source m' = _source m /\ _target m' = _target m
       /\ map_polys m' = map_polys m
       /\ (_is_dominant m = None ->
           b = true
           \/ b = false /\ exists Z, closure_at s' self = Some Z
                                     /\ __eq__ Z (_target m) = false).
Proof.
  intros Hfree Hm. unfold is_dominant, bind at 1.
  rewrite (in_store_the_map self s m Hm).
  destruct (_is_dominant m) as [b0|] eqn:Hd.
  { unfold ret. intros [= <- <-]. split; [done|]. exists m.
    by repeat split. }
  unfold bind at 1.
  destruct (image' depth self None s) as [[Z | e] s1] eqn:E; [|discriminate].
  destruct (image_runs depth self None s m Z s1 Hfree Hm E)
    as (m1 & Hm1 & Hs1 & Ht1 & Hp1 & Hfree1 & Hk & _ & _).
  unfold bind at 1. rewrite (in_store_the_map self s1 m1 Hm1).
  unfold bind at 1. rewrite (assign_is_dominant_runs self _ s1 m1 Hm1).
  unfold ret. intros [= <- <-]. split.
  { apply (put_map_frees self m1 (set_is_dominant m1
             (Some (__eq__ Z (_target m1)))) s1 Hfree1 Hm1). }
  eexists. cbn [xs_store st_maps xs_attributes].
  split; [apply lookup_insert_eq|].
  cbn [_is_dominant set_is_dominant _source _target map_polys].
  split; [done|]. split; [done|]. split; [done|]. split; [done|].
  intros _. destruct (__eq__ Z (_target m1)) eqn:Eb; [by left | right].
  split; [done|]. destruct Hk as [[Hd1 ->] | [Hd1 Hc1]].
  - by rewrite eq_same_object in Eb.
  - exists Z. split; [done|]. by rewrite <- Ht1.
Qed.

(** X16. [is_dominant()] resolves the flag once: when it returns [b],
    the flag is [b] and every further call returns [b] at once.  When the
    flag was unknown before, [b] is the value of [image() == target] for
    the image that [image()] returns from then on. *)
Theorem is_dominant_is_resolved_once (depth : nat) (self : nat) s m
    (b : bool) s' :
  addresses_free s ->
  st_maps (xs_store s) !! self = Some m ->
  is_dominant' depth self s = (Ok b, s') ->
  (forall d, is_dominant' d self s' = (Ok b, s'))
  /\ (exists m', st_maps (xs_store s') !! self = Some m'
                 /\ _is_dominant m' = Some b)
  /\ (_is_dominant m = None ->
      forall d algorithm,
        exists Z, image' (S d) self algorithm s' = (Ok Z, s')
                  /\ __eq__ Z (_target m) = b).
Proof.
  intros Hfree Hm Hrun.
  destruct (is_dominant_runs depth self s m b s' Hfree Hm Hrun)
    as (Hfree' & m' & Hm' & Hd' & Hs' & Ht' & _ & Hres).
  split; [|split].
  - intros d. unfold is_dominant, bind.
    by rewrite (in_store_the_map self s' m' Hm'), Hd'.
  - by exists m'.
  - intros Hnone d algorithm. destruct (Hres Hnone) as [-> | [-> (Z & Hc & He)]].
    + exists (_target m'). split.
      * by apply (proj1 (image_known d self algorithm s' m' Hm')).
      * rewrite Ht'. apply eq_same_object.
    + exists Z. split; [|done].
      apply (proj2 (image_known d self algorithm s' m' Hm')); [|done].
      by rewrite Hd'.
Qed.

Lemma init_runs (X Y : Embedded_projective_variety) (polys : list poly)
    s (l : nat) s1 :
  addresses_free s ->
  in_store (Rational_map__init__ X Y polys) s = (Ok l, s1) ->
  l = next_id (st_world (xs_store s))
  /\ addresses_free s1
  /\ xs_attributes s1 = xs_attributes s
  /\ next_id (st_world (xs_store s1)) = S l
  /\ (forall l' m, st_maps (xs_store s) !! l' = Some m ->
                   st_maps (xs_store s1) !! l' = Some m)
  /\ exists gm, st_maps (xs_store s1) !! l = Some gm
                /\ _source gm = X /\ _target gm = Y
                /\ _is_morphism gm = None.
Proof.
  intros Hfree. unfold in_store.
  destruct (Rational_map__init__ X Y polys (xs_store s)) as [[l0 | e] st] eqn:E;
    [|discriminate].
  intros [= <- <-].
  apply Rational_map_init_returns in E
    as (-> & gm & -> & HX & HY & _ & _ & Hd & Hmo & _).
  cbn [xs_store xs_attributes st_maps st_world next_id].
  split; [done|]. split.
  { intros l Hl. cbn [xs_store xs_attributes st_maps st_world next_id] in *.
    destruct (Hfree l) as [H1 H2]; [lia|].
    split; [|done]. rewrite lookup_insert_ne; [done | lia]. }
  split; [done|]. split; [done|]. split.
  { intros l' m Hl'. pose proof (address_in_use s l' m Hfree Hl').
    rewrite lookup_insert_ne; [done | lia]. }
  exists gm. by rewrite lookup_insert_eq.
Qed.

(** X17. [make_dominant()] returns a map flagged dominant, with the source
    of the map it was called on, whose image is its target; the result
    is remembered, so every further call returns the same object; and the
    dominant map of the result is the result itself. *)
Theorem make_dominant_returns_a_dominant_map (depth : nat) (self : nat)
    s m (d : nat) s' :
  addresses_free s ->
  st_maps (xs_store s) !! self = Some m ->
  _dominant_map (default no_attributes (xs_attributes s !! self)) = None ->
  make_dominant' depth self s = (Ok d, s') ->
  (forall depth', make_dominant' depth' self s' = (Ok d, s'))
  /\ (exists dm,
        st_maps (xs_store s') !! d = Some dm
        /\ _is_dominant dm = Some true
        /\ _source dm = _source m
        /\ forall k algorithm,
             image' (S k) d algorithm s' = (Ok (_target dm), s')
             /\ image' (S k) self algorithm s' = (Ok (_target dm), s'))
  /\ forall depth', exists s'', make_dominant' depth' d s' = (Ok d, s'').
Proof.
  intros Hfree Hm Hnone. unfold make_dominant at 1, bind at 1, attributes_of.
  rewrite Hnone. unfold bind at 1.
  destruct (is_dominant' depth self s) as [[b | e] s1] eqn:E; [|discriminate].
  destruct (is_dominant_runs depth self s m b s1 Hfree Hm E)
    as (Hfree1 & m1 & Hm1 & Hd1 & Hs1 & Ht1 & Hp1 & _).
  assert (Hmemo : forall sa dd,
    _dominant_map (default no_attributes (xs_attributes sa !! self)) = Some dd ->
    forall depth', make_dominant' depth' self sa = (Ok dd, sa)).
  { intros sa dd Hdd depth'. unfold make_dominant, bind, attributes_of.
    by rewrite Hdd. }
  destruct b.
  - unfold bind, ret. rewrite assign_runs. intros [= <- <-].
    unfold assign. cbn [snd].
    assert (Hatt : _dominant_map (default no_attributes
              (<[self := set_dominant_map
                   (default no_attributes (xs_attributes s1 !! self))
                   (Some self)]> (xs_attributes s1) !! self)) = Some self)
      by (by rewrite lookup_insert_eq).
    split; [by apply Hmemo|]. split.
    + exists m1. cbn [xs_store]. split; [done|]. split; [done|].
      split; [done|]. intros k algorithm.
      match goal with
      | |- image _ _ _ _ _ ?sf = _ /\ _ =>
          split; by apply (proj1 (image_known k self algorithm sf m1 Hm1))
      end.
    + intros depth'. eexists. by apply Hmemo.
  - unfold bind at 1. rewrite (in_store_the_map self s1 m1 Hm1).
    unfold bind at 1.
    destruct (image' depth self None s1) as [[Z | e] s2] eqn:E2;
      [|discriminate].
    destruct (image_runs depth self None s1 m1 Z s2 Hfree1 Hm1 E2)
      as (m2 & Hm2 & _ & _ & _ & Hfree2 & Hk2 & _).
    unfold bind at 1.
    destruct (in_store (Rational_map__init__ _ _ _) s2) as [[l | e] s3] eqn:E3;
      [|discriminate].
    destruct (init_runs _ _ _ s2 l s3 Hfree2 E3)
      as (Hl & Hfree3 & Hatt3 & Hn3 & Hk3 & gm & Hgm & Hsg & Htg & _).
    pose proof (address_in_use s2 self m2 Hfree2 Hm2) as Hlt.
    assert (Hne : l <> self) by lia.
    unfold bind at 1. rewrite assign_runs. unfold assign. cbn [snd].
    unfold bind at 1.
    rewrite (assign_is_dominant_runs l _ _ gm) by done.
    unfold ret. intros [= <- <-]. cbn [xs_store xs_attributes st_maps st_world].
    assert (Hd : <[l := set_is_dominant gm (Some true)]> (st_maps (xs_store s3))
                 !! l = Some (set_is_dominant gm (Some true)))
      by apply lookup_insert_eq.
    split; [|split].
    + apply Hmemo. cbn [xs_attributes]. by rewrite lookup_insert_eq.
    + eexists. split; [exact Hd|]. split; [done|]. split.
      { cbn [_source set_is_dominant]. congruence. }
      intros k algorithm. cbn [_target set_is_dominant]. rewrite Htg.
      assert (Hself : <[l := set_is_dominant gm (Some true)]>
                        (st_maps (xs_store s3)) !! self = Some m2)
        by (rewrite lookup_insert_ne by done; by apply Hk3).
      match goal with
      | |- image _ _ _ _ _ ?sf = _ /\ _ =>
          split;
          [rewrite <- Htg;
           by apply (proj1 (image_known k l algorithm sf _ Hd))|];
          destruct Hk2 as [[Hd2 ->] | [Hd2 Hc2]];
          [by apply (proj1 (image_known k self algorithm sf m2 Hself))
          |apply (proj2 (image_known k self algorithm sf m2 Hself));
           [done|]]
      end.
      cbn [xs_attributes]. rewrite lookup_insert_eq, Hatt3.
      exact Hc2.
    + intros depth'. unfold make_dominant, bind at 1, attributes_of.
      cbn [xs_attributes]. rewrite lookup_insert_ne by done.
      destruct (Hfree2 l) as [_ Ha]; [lia|]. rewrite Hatt3, Ha.
      cbn [default no_attributes _dominant_map].
      unfold bind at 1, is_dominant, bind at 1.
      match goal with
      | |- context [in_store (the_map l) ?sf] =>
          rewrite (in_store_the_map l sf _ Hd)
      end.
      cbn [_is_dominant set_is_dominant ret].
      unfold bind, ret. rewrite assign_runs. by eexists.
Qed.

Lemma representatives_frame (X A : Embedded_projective_variety)
    (reps : list nat) s (l : list nat) s1 :
  addresses_free s ->
  representatives_in_ambient X A reps s = (Ok l, s1) ->
  addresses_free s1
  /\ xs_attributes s1 = xs_attributes s
  /\ forall l' gm, st_maps (xs_store s) !! l' = Some gm ->
                   st_maps (xs_store s1) !! l' = Some gm.
Proof.
  revert s l. induction reps as [| f reps IH]; intros s l Hfree; simpl.
  - unfold ret. intros [= <- <-]. auto.
  - unfold bind at 1.
    destruct (in_store (the_map f) s) as [[fm | e] s0] eqn:E0; [|discriminate].
    assert (s0 = s) as ->.
    { unfold in_store, the_map in E0.
      destruct (st_maps (xs_store s) !! f); [|discriminate].
      injection E0 as _ <-. by destruct s. }
    unfold bind at 1.
    destruct (in_store (Rational_map__init__ X A (map_polys fm)) s)
      as [[g | e] s2] eqn:E1; [|discriminate].
    destruct (init_runs _ _ _ s g s2 Hfree E1)
      as (_ & Hfree2 & Hatt2 & _ & Hk2 & _).
    unfold bind at 1.
    destruct (representatives_in_ambient X A reps s2) as [[l0 | e] s3] eqn:E2;
      [|discriminate].
    unfold ret. intros [= <- <-].
    destruct (IH s2 l0 Hfree2 E2) as (Hfree3 & Hatt3 & Hk3).
    split; [done|]. split; [congruence|]. auto.
Qed.

Lemma assign_builds (self g l : nat)
    (set : map_attributes -> map_attributes) m s :
  super_built self g m s ->
  (l < next_id (st_world (xs_store s)))%nat ->
  (forall a, _super_map (set a) = _super_map a) ->
  super_built self g m (snd (assign l set s)).
Proof.
  intros (Hfree & Hne & Hm & Hs & Hg & gm & Hgm) Hlt Hset.
  unfold assign. cbn [snd].
  split; [|split; [done|]; split; [done|]; split; [|split]];
    cbn [xs_store xs_attributes].
  - intros l' Hl'. cbn [xs_store xs_attributes st_maps st_world next_id] in *.
    destruct (Hfree l' Hl') as [H1 H2].
    split; [done|]. rewrite lookup_insert_ne; [done | lia].
  - destruct (decide (l = self)) as [-> | ?].
    + rewrite lookup_insert_eq. simpl. by rewrite Hset.
    + by rewrite lookup_insert_ne.
  - destruct (decide (l = g)) as [-> | ?].
    + rewrite lookup_insert_eq. simpl. by rewrite Hset.
    + by rewrite lookup_insert_ne.
  - by exists gm.
Qed.

Lemma super_built_frame (self g : nat) m s s1 :
  super_built self g m s ->
  addresses_free s1 ->
  xs_attributes s1 = xs_attributes s ->
  (forall l' gm, st_maps (xs_store s) !! l' = Some gm ->
                 st_maps (xs_store s1) !! l' = Some gm) ->
  super_built self g m s1.
Proof.
  intros (_ & Hne & Hm & Hs & Hg & gm & Hgm & Hsg & Htg) Hfree1 Hatt Hk.
  split; [done|]. split; [done|]. split; [by apply Hk|].
  rewrite Hatt. split; [done|]. split; [done|].
  exists gm. split; [by apply Hk | done].
Qed.

Lemma super_built_in_use (self g : nat) m s :
  super_built self g m s -> (g < next_id (st_world (xs_store s)))%nat.
Proof.
  intros (Hfree & _ & _ & _ & _ & gm & Hgm & _).
  by apply (address_in_use s g gm).
Qed.

(** The last steps of [super()]: the copy of [_is_morphism] and of the
    projective degrees. *)
Lemma super_tail (self l : nat) m (a0 : map_attributes) s4 (g : nat) s' :
  super_built self l m s4 ->
  (m0 <- in_store (the_map self);;
   _ <- assign_is_morphism l (_is_morphism m0);;
   _ <- match map_projective_degrees_list a0 with
        | Some l0 =>
            assign l (fun a => set_map_projective_degrees_list a (Some l0))
        | None => ret tt
        end;; ret l) s4 = (Ok g, s') ->
  g = l /\ super_built self l m s'
  /\ exists gm, st_maps (xs_store s') !! l = Some gm
                /\ _is_morphism gm = _is_morphism m.
Proof.
  intros Hb. pose proof Hb as (Hfree & Hne & Hm & Hs & Hg & gm & Hgm & Hsg & Htg).
  unfold bind at 1. rewrite (in_store_the_map self s4 m Hm).
  unfold bind at 1, assign_is_morphism, bind at 1.
  rewrite (in_store_the_map l s4 gm Hgm).
  unfold in_store at 1, put_map.
  set (s5 := Xstore (Store (st_world (xs_store s4))
                      (<[l := set_is_morphism gm (_is_morphism m)]>
                         (st_maps (xs_store s4)))) (xs_attributes s4)).
  assert (Hgm5 : st_maps (xs_store s5) !! l
                 = Some (set_is_morphism gm (_is_morphism m)))
    by apply lookup_insert_eq.
  assert (Hb5 : super_built self l m s5).
  { split.
    { apply (put_map_frees l gm (set_is_morphism gm (_is_morphism m)) s4
               Hfree Hgm). }
    split; [done|]. split.
    { unfold s5. cbn [xs_store st_maps]. by rewrite lookup_insert_ne. }
    split; [done|]. split; [done|]. eexists. split; [exact Hgm5|]. done. }
  destruct (map_projective_degrees_list a0) as [l0|].
  - unfold bind, ret. rewrite assign_runs. intros [= <- <-].
    split; [done|]. split.
    + apply (assign_builds self l l
               (fun a => set_map_projective_degrees_list a (Some l0)) m s5);
        [done | by apply (super_built_in_use self l m) | done].
    + eexists. split; [exact Hgm5 | done].
  - unfold bind, ret. intros [= <- <-]. split; [done|]. split; [done|].
    eexists. split; [exact Hgm5 | done].
Qed.

Context {L : BackendLaws B}.

Lemma ambient_of_ambient (T : Embedded_projective_variety) :
  caches_computed T -> ambient (ambient T) = ambient T.
Proof.
  intros HT. unfold ambient at 1. by rewrite (codim_ambient T HT).
Qed.

(** [super()] of a map that is its own [_super_map]-less image in the
    ambient space returns the map itself. *)
Lemma super_of_built (depth : nat) (self g : nat) m s :
  caches_computed (_target m) ->
  super_built self g m s ->
  exists s', super' depth g s = (Ok g, s').
Proof.
  intros HT (_ & _ & _ & _ & Hg & gm & Hgm & _ & Htg).
  unfold super, super_with, bind at 1, attributes_of. rewrite Hg.
  unfold bind at 1. rewrite (in_store_the_map g s gm Hgm).
  rewrite Htg, (ambient_of_ambient _ HT), oid_eqb_refl.
  unfold bind, ret. rewrite assign_runs. by eexists.
Qed.

(** X18. [super()] returns a map with the same source into the ambient
    space of the target, a variety of codimension 0, with the flag
    [_is_morphism] of the map; the result is remembered, and it is its own
    [super()]: [g.super() is g]. *)
Theorem super_of_super_is_itself (depth : nat) (self : nat) s m
    (g : nat) s' :
  addresses_free s ->
  st_maps (xs_store s) !! self = Some m ->
  caches_computed (_target m) ->
  _super_map (default no_attributes (xs_attributes s !! self)) = None ->
  super' depth self s = (Ok g, s') ->
  (forall depth', super' depth' self s' = (Ok g, s'))
  /\ (exists gm,
        st_maps (xs_store s') !! g = Some gm
        /\ _source gm = _source m
        /\ _target gm = ambient (_target m)
        /\ codim (_target gm) = 0
        /\ _is_morphism gm = _is_morphism m)
  /\ forall depth', exists s'', super' depth' g s' = (Ok g, s'').
Proof.
  intros Hfree Hm HT Hnone.
  pose proof (address_in_use s self m Hfree Hm) as Hlt.
  assert (Hmemo : forall sa gg,
    _super_map (default no_attributes (xs_attributes sa !! self)) = Some gg ->
    forall depth', super' depth' self sa = (Ok gg, sa)).
  { intros sa gg Hgg depth'. unfold super, super_with, bind, attributes_of.
    by rewrite Hgg. }
  unfold super at 1, super_with at 1, bind at 1, attributes_of.
  rewrite Hnone. unfold bind at 1. rewrite (in_store_the_map self s m Hm).
  destruct (oid_eqb (vid (ambient (_target m))) (vid (_target m))) eqn:Eo.
  { assert (Ea : ambient (_target m) = _target m).
    { unfold ambient in *. destruct (codim (_target m) =? 0); [done|].
      cbn [vid] in Eo. by rewrite oid_eqb_sym, oid_eqb_ambient in Eo. }
    unfold bind, ret. rewrite assign_runs. intros [= <- <-].
    assert (Hatt : _super_map (default no_attributes
              (xs_attributes (snd (assign self
                 (fun a => set_super_map a (Some self)) s)) !! self))
              = Some self).
    { unfold assign. cbn [snd xs_attributes]. by rewrite lookup_insert_eq. }
    split; [by apply Hmemo|]. split.
    - exists m. split; [done|]. split; [done|]. split; [done|].
      split; [|done]. rewrite <- Ea. by apply codim_ambient.
    - intros depth'. eexists. by apply Hmemo. }
  unfold bind at 1.
  destruct (in_store (Rational_map__init__ _ _ _) s) as [[l | e] s2] eqn:E2;
    [|discriminate].
  destruct (init_runs _ _ _ s l s2 Hfree E2)
    as (Hl & Hfree2 & Hatt2 & Hn2 & Hk2 & gm & Hgm & Hsg & Htg & _).
  assert (Hne : l <> self) by lia.
  unfold bind at 1. rewrite assign_runs.
  set (s3 := snd (assign self (fun a => set_super_map a (Some l)) s2)).
  assert (Hb3 : super_built self l m s3).
  { unfold s3, assign. cbn [snd].
    split.
    { intros l' Hl'. cbn [xs_store xs_attributes st_maps st_world next_id] in *.
      destruct (Hfree2 l' Hl') as [H1 H2]. split; [done|].
      rewrite lookup_insert_ne; [done | lia]. }
    split; [done|]. cbn [xs_store xs_attributes].
    split; [by apply Hk2|]. split; [by rewrite lookup_insert_eq|].
    split.
    { rewrite lookup_insert_ne by done. rewrite Hatt2.
      destruct (Hfree l) as [_ Ha]; [lia|]. by rewrite Ha. }
    by exists gm. }
  assert (Hc3 : _closure_of_image
                  (default no_attributes (xs_attributes s3 !! self))
                = _closure_of_image
                    (default no_attributes (xs_attributes s !! self))).
  { unfold s3, assign. cbn [snd xs_attributes].
    by rewrite lookup_insert_eq, Hatt2. }
  assert (Hrest : forall s4, super_built self l m s4 ->
    (_ <- match _list_of_representatives_of_map
                  (default no_attributes (xs_attributes s !! self)) with
          | Some reps =>
              l0 <- representatives_in_ambient (_source m)
                      (ambient (_target m)) reps;;
              assign l (fun a =>
                set_list_of_representatives_of_map a (Some l0))
          | None => ret tt
          end;;
     m0 <- in_store (the_map self);;
     _ <- assign_is_morphism l (_is_morphism m0);;
     _ <- match map_projective_degrees_list
                  (default no_attributes (xs_attributes s !! self)) with
          | Some l0 =>
              assign l (fun a => set_map_projective_degrees_list a (Some l0))
          | None => ret tt
          end;; ret l) s4 = (Ok g, s') ->
    g = l /\ super_built self l m s'
    /\ exists gm, st_maps (xs_store s') !! l = Some gm
                  /\ _is_morphism gm = _is_morphism m).
  { intros s4 Hb4. unfold bind at 1.
    destruct (_list_of_representatives_of_map _) as [reps|].
    - unfold bind at 1.
      destruct (representatives_in_ambient _ _ reps s4) as [[l0 | e] s5] eqn:E5;
        [|discriminate].
      destruct (representatives_frame (_source m) (ambient (_target m))
                  reps s4 l0 s5) as (Hf5 & Ha5 & Hk5);
        [by destruct Hb4 | done |].
      pose proof (super_built_frame self l m s4 s5 Hb4 Hf5 Ha5 Hk5) as Hb5.
      rewrite assign_runs. apply super_tail.
      apply assign_builds; [done | by apply (super_built_in_use self l m) | done].
    - cbn [ret]. by apply super_tail. }
  assert (Hend : forall s4, super_built self l m s4 ->
    g = l /\ super_built self l m s'
    /\ (exists gm, st_maps (xs_store s') !! l = Some gm
                   /\ _is_morphism gm = _is_morphism m) ->
    (forall depth', super' depth' self s' = (Ok g, s'))
    /\ (exists gm,
          st_maps (xs_store s') !! g = Some gm
          /\ _source gm = _source m
          /\ _target gm = ambient (_target m)
          /\ codim (_target gm) = 0
          /\ _is_morphism gm = _is_morphism m)
    /\ forall depth', exists s'', super' depth' g s' = (Ok g, s'')).
  { intros s4 _ (-> & Hb' & gm' & Hgm' & Hmo').
    pose proof Hb' as (_ & _ & _ & Hs' & _ & gm'' & Hgm'' & Hsg' & Htg').
    assert (gm'' = gm') as -> by congruence.
    split; [by apply Hmemo|]. split.
    - exists gm'. split; [done|]. split; [done|]. split; [done|].
      split; [|done]. rewrite Htg'. by apply codim_ambient.
    - intros depth'. by apply (super_of_built depth' self l m s'). }
  destruct (is_true (_is_dominant m)
            || bool_decide (is_Some (_closure_of_image
                 (default no_attributes (xs_attributes s !! self))))) eqn:Ec.
  - unfold bind at 1, bind at 1.
    destruct (image' depth self None s3) as [[Z | e] s4] eqn:E4;
      [|discriminate].
    pose proof Hb3 as (Hfree3 & _ & Hm3 & _).
    destruct (image_runs depth self None s3 m Z s4 Hfree3 Hm3 E4)
      as (_ & _ & _ & _ & _ & _ & _ & Hsame & _).
    assert (s4 = s3) as ->.
    { apply Hsame. apply orb_true_iff in Ec as [Ec | Ec]; [by left | right].
      rewrite Hc3. by apply bool_decide_eq_true in Ec. }
    rewrite assign_runs. intros Hrun.
    apply (Hend s3 Hb3). eapply Hrest; [|exact Hrun].
    apply assign_builds; [done | by apply (super_built_in_use self l m) | done].
  - unfold bind at 1. cbn [ret]. intros Hrun.
    apply (Hend s3 Hb3). by apply (Hrest s3).
Qed.

End Image_properties.

Module P0_image_facts.
Import P0_maps P0_images.

Lemma xs2_addresses_free : addresses_free xs2.
Proof.
  intros l Hl. simpl in Hl. split; [|apply lookup_empty].
  unfold xs2. cbn [xs_store st_maps].
  rewrite !lookup_insert_ne by lia. apply lookup_empty.
Defined.

Lemma xs2_identity_map : st_maps (xs_store xs2) !! 2%nat = Some identity_map.
Proof. vm_compute. reflexivity. Defined.

Lemma xs2_empty_map : st_maps (xs_store xs2) !! 3%nat = Some empty_map.
Proof. vm_compute. reflexivity. Defined.

Lemma image_is_computed_once_and_resolves_dominance_witness :
  let Z := the_space in
  let s' := snd (image 1 2%nat None xs2) in
  (forall d algorithm', image (S d) 2%nat algorithm' s' = (Ok Z, s'))
  /\ exists m',
       st_maps (xs_store s') !! 2%nat = Some m'
       /\ _source m' = _source identity_map
       /\ _target m' = _target identity_map
       /\ (_is_dominant identity_map <> Some true ->
           _closure_of_image
             (default (@no_attributes P0.backend) (xs_attributes xs2 !! 2%nat)) = None ->
           _is_dominant m' = Some (__eq__ Z (_target identity_map))
           /\ _closure_of_image
                (default (@no_attributes P0.backend) (xs_attributes s' !! 2%nat)) = Some Z
           /\ (_is_dominant m' = Some true -> Z = _target identity_map)).
Proof.
  apply (image_is_computed_once_and_resolves_dominance
           kernel_generators elimination_generators 1 2%nat None xs2
           identity_map).
  - exact xs2_addresses_free.
  - exact xs2_identity_map.
  - vm_compute. reflexivity.
Defined.

Lemma is_dominant_is_resolved_once_witness :
  let s' := snd (is_dominant 1 2%nat xs2) in
  (forall d, is_dominant d 2%nat s' = (Ok true, s'))
  /\ (exists m', st_maps (xs_store s') !! 2%nat = Some m'
                 /\ _is_dominant m' = Some true)
  /\ (_is_dominant identity_map = None ->
      forall d algorithm,
        exists Z, image (S d) 2%nat algorithm s' = (Ok Z, s')
                  /\ __eq__ Z (_target identity_map) = true).
Proof.
  apply (is_dominant_is_resolved_once
           kernel_generators elimination_generators 1 2%nat xs2
           identity_map true).
  - exact xs2_addresses_free.
  - exact xs2_identity_map.
  - vm_compute. reflexivity.
Defined.

Lemma make_dominant_returns_a_dominant_map_witness :
  let s' := snd (make_dominant 1 2%nat xs2) in
  (forall depth', make_dominant depth' 2%nat s' = (Ok 2%nat, s'))
  /\ (exists dm,
        st_maps (xs_store s') !! 2%nat = Some dm
        /\ _is_dominant dm = Some true
        /\ _source dm = _source identity_map
        /\ forall k algorithm,
             image (S k) 2%nat algorithm s' = (Ok (_target dm), s')
             /\ image (S k) 2%nat algorithm s' = (Ok (_target dm), s'))
  /\ forall depth', exists s'', make_dominant depth' 2%nat s' = (Ok 2%nat, s'').
Proof.
  apply (make_dominant_returns_a_dominant_map
           kernel_generators elimination_generators 1 2%nat xs2
           identity_map 2%nat).
  - exact xs2_addresses_free.
  - exact xs2_identity_map.
  - reflexivity.
  - vm_compute. reflexivity.
Defined.

Lemma super_of_super_is_itself_witness :
  let s' := snd (super 1 3%nat xs2) in
  (forall depth', super depth' 3%nat s' = (Ok 4%nat, s'))
  /\ (exists gm,
        st_maps (xs_store s') !! 4%nat = Some gm
        /\ _source gm = _source empty_map
        /\ _target gm = ambient (_target empty_map)
        /\ codim (_target gm) = 0
        /\ _is_morphism gm = _is_morphism empty_map)
  /\ forall depth', exists s'', super depth' 4%nat s' = (Ok 4%nat, s'').
Proof.
  apply (super_of_super_is_itself
           kernel_generators elimination_generators (L := P0_facts.laws)
           1 3%nat xs2 empty_map 4%nat).
  - exact xs2_addresses_free.
  - exact xs2_empty_map.
  - split; intros ? [=].
  - reflexivity.
  - vm_compute. reflexivity.
Defined.

(** The map into the ambient space is a new object, which holds the
    image of the map it was built from. *)
Example super_of_the_empty_map :
  fst (super 1 3%nat xs2) = Ok 4%nat
  /\ _closure_of_image
       (default (@no_attributes P0.backend)
          (xs_attributes (snd (super 1 3%nat xs2)) !! 4%nat))
     = Some empty_scheme.
Proof. split; vm_compute; reflexivity. Qed.

End P0_image_facts.

(** ** Congruences: what a detected congruence fixes *)

Section Congruence_results.
Variable _degree_as_hypersurface : Z.
Variable sampled : nat -> result trial.

Abbreviation function_congruence' :=
  (function_congruence _degree_as_hypersurface sampled).
Abbreviation congruence' := (congruence _degree_as_hypersurface sampled).
Abbreviation check' := (check _degree_as_hypersurface sampled).
Abbreviation passes C d := (dim_and_degree_is _degree_as_hypersurface C d).
Abbreviation possible_degrees := _possible_degrees_for_curves_of_congruence.

Lemma passes_degree (C : curve) (d : Z) :
  passes C d = true -> curve_degree C = d.
Proof.
  unfold dim_and_degree_is. rewrite !andb_true_iff, !Z.eqb_eq. tauto.
Qed.

Lemma select_spec (curves : list curve) (degs : list Z) (W0 : list curve)
    (C : curve) :
  In C (select _degree_as_hypersurface curves degs W0) ->
  In C W0 \/ exists d, In d degs /\ passes C d = true.
Proof.
  revert W0. induction degs as [| d degs IH]; intros W0; simpl; [auto|].
  intros Hin. apply IH in Hin as [Hin | (d' & Hd' & Hp)].
  - destruct (Nat.eqb _ 1); [|auto].
    apply in_app_or in Hin as [Hin | Hin]; [auto|]. right. exists d.
    split; [by left|].
    apply list_elem_of_In, list_elem_of_filter in Hin. tauto.
  - right. exists d'. auto.
Qed.

(** What a call of [function_congruence] that returns a curve has
    established. *)
Lemma function_congruence_returns (depth : nat) (p : trial)
    (degree : option Z) (s : cstate) (C : curve) (s' : cstate) :
  function_congruence' depth p degree s = (Ok C, s') ->
  passes C (curve_degree C) = true
  /\ through_point C = true
  /\ possible_degrees s' = Some {[curve_degree C]}
  /\ (forall d, degree = Some d -> curve_degree C = d)
  /\ (degree = None -> forall ds, possible_degrees s = Some ds ->
                                  curve_degree C ∈ ds)
  /\ (points_sampled s <= points_sampled s')%nat.
Proof.
  revert p degree s. induction depth as [| depth IH]; intros p degree s;
    [discriminate|].
  cbn [function_congruence]. unfold bind at 1, get_possible.
  set (possible := possible_degrees s).
  destruct (match degree with
            | Some _ => false
            | None => match possible with
                      | Some d => is_empty_set d
                      | None => false
                      end
            end); [discriminate|].
  destruct (negb (point_on_fivefold p)); [discriminate|].
  unfold bind at 1, of_result.
  destruct (curves_of_lines p) as [curves | e]; [|discriminate].
  unfold bind at 1.
  destruct (Nat.eqb (length curves) 0); [discriminate|]. cbn [ret].
  unfold bind at 1.
  set (degs0 := match degree with
                | Some d => [d]
                | None => map curve_degree curves
                end).
  assert (Hstep : forall degs,
    (forall d, In d degs -> In d degs0
               /\ (degree = None -> forall ds, possible = Some ds -> d ∈ ds)) ->
    (let W := select _degree_as_hypersurface curves degs [] in
     if match degree with None => true | Some _ => false end
        && (1 <? length W)%nat
     then
       _ <- match possible with
            | None => set_possible (degrees_of W)
            | Some d =>
                _ <- set_possible (d ∩ degrees_of W) ;;
                if is_empty_set (d ∩ degrees_of W)
                then raise (Exception
                  "function 'congruence' failed (with previous runs)")
                else ret tt
            end ;;
       q <- point sampled ;;
       function_congruence' depth q None
     else
       match W with
       | [] => raise (Exception "function 'congruence' failed")
       | C :: _ =>
           _ <- assert (through_point C) ;;
           _ <- set_possible (degrees_of W) ;;
           ret C
       end) s = (Ok C, s') ->
    passes C (curve_degree C) = true
    /\ through_point C = true
    /\ possible_degrees s' = Some {[curve_degree C]}
    /\ (forall d, degree = Some d -> curve_degree C = d)
    /\ (degree = None -> forall ds, possible = Some ds -> curve_degree C ∈ ds)
    /\ (points_sampled s <= points_sampled s')%nat).
  { intros degs Hdegs. cbv zeta.
    set (W := select _degree_as_hypersurface curves degs []).
    assert (HW : forall C', In C' W ->
              passes C' (curve_degree C') = true
              /\ In (curve_degree C') degs).
    { intros C' HC'. apply select_spec in HC' as [[] | (d & Hd & Hp)].
      pose proof (passes_degree C' d Hp) as ->. auto. }
    destruct (match degree with None => true | Some _ => false end
              && (1 <? length W)%nat) eqn:Eamb.
    - apply andb_true_iff in Eamb as [Hnone _].
      assert (degree = None) as -> by (by destruct degree).
      unfold bind at 1.
      assert (Hrec : forall memo,
        (forall ds, possible = Some ds -> forall d, d ∈ memo -> d ∈ ds) ->
        (q <- point sampled;; function_congruence' depth q None)
          (Cstate (Some memo) (points_sampled s)) = (Ok C, s') ->
        passes C (curve_degree C) = true
        /\ through_point C = true
        /\ possible_degrees s' = Some {[curve_degree C]}
        /\ (forall d, None = Some d -> curve_degree C = d)
        /\ (None = None (A := Z) -> forall ds, possible = Some ds ->
                                    curve_degree C ∈ ds)
        /\ (points_sampled s <= points_sampled s')%nat).
      { intros memo Hmemo. unfold bind, point.
        cbn [points_sampled possible_degrees].
        destruct (sampled (points_sampled s)) as [q | e]; [|discriminate].
        intros Hrun. apply IH in Hrun as (H1 & H2 & H3 & _ & H5 & H6).
        cbn [points_sampled possible_degrees] in *.
        split; [done|]. split; [done|]. split; [done|].
        split; [discriminate|]. split; [|lia].
        intros _ ds Hds. apply (Hmemo ds Hds). by apply H5. }
      destruct possible as [ds|] eqn:Ep.
      + unfold bind at 1, set_possible.
        destruct (is_empty_set _); [discriminate|]. cbn [ret].
        apply Hrec. intros ds' [= <-] d Hd.
        by apply elem_of_intersection in Hd as [Hd _].
      + unfold set_possible. apply Hrec. intros ds' [=].
    - destruct W as [| C0 W'] eqn:EW; [discriminate|].
      unfold bind at 1, assert.
      destruct (through_point C0) eqn:Et; [|discriminate]. cbn [ret].
      unfold bind, set_possible, ret. intros [= <- <-].
      cbn [possible_degrees points_sampled].
      destruct (HW C0 (or_introl eq_refl)) as [Hp0 Hd0].
      destruct (Hdegs _ Hd0) as [Hin0 Hposs].
      split; [done|]. split; [done|]. split.
      { f_equal. unfold degrees_of. destruct degree as [d|].
        - assert (Hall : forall C', In C' (C0 :: W') -> curve_degree C' = d).
          { intros C' HC'. destruct (HW C' HC') as [_ Hd'].
            destruct (Hdegs _ Hd') as [[<- | []] _]. done. }
          rewrite (Hall C0 (or_introl eq_refl)).
          apply set_eq. intros x. rewrite elem_of_list_to_set, elem_of_singleton.
          rewrite list_elem_of_In, in_map_iff. split.
          + intros (C' & <- & HC'). by apply Hall.
          + intros ->. exists C0. split; [by apply Hall; left | by left].
        - cbn [andb] in Eamb. destruct W' as [| C1 W'']; [|done].
          simpl. apply union_empty_r_L. }
      split.
      { intros d ->. by destruct Hin0 as [<- | []]. }
      split; [|lia]. intros Hn ds Hds. by apply Hposs. }
  destruct degree as [d|].
  - destruct possible; unfold ret; apply Hstep; intros d' Hd';
      (split; [done | discriminate]).
  - destruct possible as [ds|] eqn:Ep.
    + cbv zeta.
      destruct (Nat.eqb (length (elements (list_to_set degs0 ∩ ds))) 0);
        [discriminate|].
      unfold ret. apply Hstep. intros d' Hd'.
      apply list_elem_of_In, elem_of_elements, elem_of_intersection in Hd'
        as [Hd1 Hd2].
      apply elem_of_list_to_set, list_elem_of_In in Hd1.
      split; [done|]. by intros _ ds' [= <-].
    + unfold ret. apply Hstep. intros d' Hd'. split; [done|]. by intros _ ds' [=].
Qed.

(** X19. When [function_congruence] returns a curve, the curve has
    dimension 1, meets the surface in a scheme of dimension 0 and degree
    [d * a - 1] for its degree [d] and the degree [a] of the fourfold as
    a hypersurface, and passes through the point; its degree is the one
    asked for, when one was; and the set of possible degrees kept on the
    fourfold is the singleton of [d]. *)
Theorem function_congruence_returns_a_filtered_curve (depth : nat)
    (p : trial) (degree : option Z) (s : cstate) (C : curve) (s' : cstate) :
  function_congruence' depth p degree s = (Ok C, s') ->
  curve_dimension C = 1
  /\ meet_dimension C = 0
  /\ meet_degree C = curve_degree C * _degree_as_hypersurface - 1
  /\ through_point C = true
  /\ (forall d, degree = Some d -> curve_degree C = d)
  /\ possible_degrees s' = Some {[curve_degree C]}.
Proof.
  intros Hrun.
  apply function_congruence_returns in Hrun as (H1 & H2 & H3 & H4 & _).
  unfold dim_and_degree_is in H1.
  rewrite !andb_true_iff, !Z.eqb_eq in H1. tauto.
Qed.

Lemma check_keeps_degree (depth : nat) (d : Z) (n : nat) (s s' : cstate) :
  check' depth d n s = (Ok tt, s') ->
  possible_degrees s = Some {[d]} ->
  possible_degrees s' = Some {[d]}
  /\ (points_sampled s + n <= points_sampled s')%nat.
Proof.
  revert s. induction n as [| n IH]; intros s; simpl.
  - unfold ret. intros [= <-] Hs. split; [done | lia].
  - unfold bind at 1, point at 1.
    destruct (sampled (points_sampled s)) as [p | e]; [|discriminate].
    unfold bind at 1.
    destruct (function_congruence' depth p (Some d) _) as [[C | e] s1] eqn:E;
      [|discriminate].
    apply function_congruence_returns in E as (_ & _ & H3 & H4 & _ & H6).
    rewrite (H4 d eq_refl) in H3. cbn [points_sampled] in H6.
    intros Hrun Hs. destruct (IH s1 Hrun H3) as [H7 H8].
    split; [done | lia].
Qed.

(** X20. A congruence that has been found fixes the degree: when
    [congruence()] returns a congruence of curves of degree [d], which is
    the degree asked for when one was, the set of possible degrees kept
    on the fourfold is the singleton of [d], at least [num_checks] further
    points have been sampled, and every later call without a degree that
    returns a congruence returns one of degree [d]. *)
Theorem congruence_fixes_the_degree (depth : nat) (degree : option Z)
    (num_checks : nat) (given_point : option trial) (s : cstate) (d : Z)
    (s' : cstate) :
  congruence' depth degree num_checks given_point s = (Ok d, s') ->
  possible_degrees s' = Some {[d]}
  /\ (forall d0, degree = Some d0 -> d = d0)
  /\ (points_sampled s + num_checks <= points_sampled s')%nat
  /\ forall depth' num_checks' given_point' d' s'',
       congruence' depth' None num_checks' given_point' s' = (Ok d', s'') ->
       d' = d.
Proof.
  assert (Hfirst : forall depth0 degree0 n0 gp0 s0 d0 s0',
    congruence' depth0 degree0 n0 gp0 s0 = (Ok d0, s0') ->
    exists p s1 C s2,
      possible_degrees s1 = possible_degrees s0
      /\ (points_sampled s0 <= points_sampled s1)%nat
      /\ function_congruence' depth0 p degree0 s1 = (Ok C, s2)
      /\ d0 = curve_degree C
      /\ check' depth0 d0 n0 s2 = (Ok tt, s0')).
  { intros depth0 degree0 n0 gp0 s0 d0 s0'. unfold congruence, bind.
    destruct gp0 as [p0|].
    - unfold ret.
      destruct (function_congruence' depth0 p0 degree0 s0)
        as [[C | e] s2] eqn:E; [|discriminate].
      destruct (check' depth0 (curve_degree C) n0 s2) as [[[] | e] s3] eqn:E3;
        [|discriminate].
      intros [= <- <-]. by exists p0, s0, C, s2.
    - unfold point.
      destruct (sampled (points_sampled s0)) as [p0 | e]; [|discriminate].
      destruct (function_congruence' depth0 p0 degree0 _)
        as [[C | e] s2] eqn:E; [|discriminate].
      destruct (check' depth0 (curve_degree C) n0 s2) as [[[] | e] s3] eqn:E3;
        [|discriminate].
      intros [= <- <-]. eexists p0, _, C, s2.
      split; [|split; [|split; [exact E | done]]]; simpl; [done | lia]. }
  intros Hrun.
  destruct (Hfirst _ _ _ _ _ _ _ Hrun)
    as (p & s1 & C & s2 & Hp1 & Hn1 & Hf & -> & Hc).
  apply function_congruence_returns in Hf as (_ & _ & H3 & H4 & _ & H6).
  destruct (check_keeps_degree _ _ _ _ _ Hc H3) as [H7 H8].
  split; [done|]. split; [intros d0 Hd0; by apply H4|].
  split; [lia|].
  intros depth' n' gp' d' s'' Hrun'.
  destruct (Hfirst _ _ _ _ _ _ _ Hrun')
    as (p' & s1' & C' & s2' & Hp1' & _ & Hf' & -> & _).
  apply function_congruence_returns in Hf' as (_ & _ & _ & _ & H5' & _).
  specialize (H5' eq_refl {[curve_degree C]}).
  rewrite Hp1', H7 in H5'. specialize (H5' eq_refl).
  by apply elem_of_singleton in H5'.
Qed.

(** A call with an explicit degree, written out. *)
Lemma function_congruence_with_degree (depth : nat) (p : trial) (d : Z)
    (s : cstate) :
  function_congruence' (S depth) p (Some d) s
  = if negb (point_on_fivefold p)
    then (Raise (Exception "expected a point on the ambient fivefold"), s)
    else
      match curves_of_lines p with
      | Raise e => (Raise e, s)
      | Ok curves =>
          if Nat.eqb (length curves) 0
          then (Raise (Exception "function 'congruence' failed"),
                Cstate (Some ∅) (points_sampled s))
          else
            match select _degree_as_hypersurface curves [d] [] with
            | [] => (Raise (Exception "function 'congruence' failed"), s)
            | C :: W =>
                if through_point C
                then (Ok C, Cstate (Some (degrees_of (C :: W)))
                              (points_sampled s))
                else (Raise AssertionError, s)
            end
      end.
Proof.
  cbn [function_congruence].
  unfold bind, get_possible, of_result, ret, raise, set_possible, assert.
  destruct (negb (point_on_fivefold p)); [done|].
  destruct (curves_of_lines p) as [curves | e]; [|done].
  destruct (Nat.eqb (length curves) 0); [done|].
  destruct (possible_degrees s); cbn [andb];
    (destruct (select _ curves [d] []) as [| C0 W]; [done|];
     by destruct (through_point C0)).
Qed.

(** X21. A memoized failure (an empty set of possible degrees) makes
    every call of [congruence()] without a degree raise "failed (with
    previous runs)" before any algebra is done: at once when a point is
    given, and after sampling one point when none is.  A call with an
    explicit degree never looks at the memo: its outcome is the same
    whatever the fourfold remembers. *)
Theorem memoized_failure_stops_calls_without_degree (s : cstate) :
  possible_degrees s = Some ∅ ->
  let failed :=
    Exception "function 'congruence' failed (with previous runs)" in
  (forall depth num_checks p,
     congruence' (S depth) None num_checks (Some p) s = (Raise failed, s))
  /\ (forall depth num_checks p,
        sampled (points_sampled s) = Ok p ->
        congruence' (S depth) None num_checks None s
        = (Raise failed, Cstate (Some ∅) (S (points_sampled s))))
  /\ (forall depth p d s2,
        fst (function_congruence' depth p (Some d) s)
        = fst (function_congruence' depth p (Some d) s2)).
Proof.
  intros Hs failed. split; [|split].
  - intros depth n p. unfold congruence, bind, ret.
    by rewrite function_congruence_raises_on_empty_memo.
  - intros depth n p Hp. unfold congruence, bind, point. rewrite Hp, Hs.
    by rewrite function_congruence_raises_on_empty_memo.
  - intros [| depth] p d s2; [done|].
    rewrite !function_congruence_with_degree.
    destruct (negb (point_on_fivefold p)); [done|].
    destruct (curves_of_lines p) as [curves | e]; [|done].
    destruct (Nat.eqb (length curves) 0); [done|].
    destruct (select _ curves [d] []) as [| C0 W]; [done|].
    by destruct (through_point C0).
Qed.

End Congruence_results.

Module Cubic_scenario_results.

Lemma function_congruence_returns_a_filtered_curve_witness :
  curve_dimension Cubic_scenario.good_conic = 1
  /\ meet_dimension Cubic_scenario.good_conic = 0
  /\ meet_degree Cubic_scenario.good_conic = curve_degree Cubic_scenario.good_conic * 3 - 1
  /\ through_point Cubic_scenario.good_conic = true
  /\ (forall d, None = Some d -> curve_degree Cubic_scenario.good_conic = d)
  /\ _possible_degrees_for_curves_of_congruence
       (snd (function_congruence 3 Cubic_scenario.sampled 10
               (Trial true (Ok [Cubic_scenario.good_conic])) None Cubic_scenario.fresh_fourfold))
     = Some {[curve_degree Cubic_scenario.good_conic]}.
Proof.
  apply (function_congruence_returns_a_filtered_curve 3 Cubic_scenario.sampled 10
           (Trial true (Ok [Cubic_scenario.good_conic])) None Cubic_scenario.fresh_fourfold Cubic_scenario.good_conic).
  vm_compute. reflexivity.
Defined.

Lemma congruence_fixes_the_degree_witness :
  let s' := snd (Cubic_scenario.congruence (Cstate None 1)) in
  _possible_degrees_for_curves_of_congruence s' = Some {[2]}
  /\ (forall d0, None = Some d0 -> 2 = d0)
  /\ (points_sampled (Cstate None 1) + 3 <= points_sampled s')%nat
  /\ forall depth' num_checks' given_point' d' s'',
       congruence 3 Cubic_scenario.sampled depth' None num_checks' given_point' s'
       = (Ok d', s'') ->
       d' = 2.
Proof.
  apply (congruence_fixes_the_degree 3 Cubic_scenario.sampled 1000 None 3 None
           (Cstate None 1) 2).
  vm_compute. reflexivity.
Defined.

Lemma memoized_failure_stops_calls_without_degree_witness :
  let s := Cstate (Some ∅) 0 in
  let failed :=
    Exception "function 'congruence' failed (with previous runs)" in
  (forall depth num_checks p,
     congruence 3 Cubic_scenario.sampled (S depth) None num_checks (Some p) s
     = (Raise failed, s))
  /\ (forall depth num_checks p,
        Cubic_scenario.sampled (points_sampled s) = Ok p ->
        congruence 3 Cubic_scenario.sampled (S depth) None num_checks None s
        = (Raise failed, Cstate (Some ∅) (S (points_sampled s))))
  /\ (forall depth p d s2,
        fst (function_congruence 3 Cubic_scenario.sampled depth p (Some d) s)
        = fst (function_congruence 3 Cubic_scenario.sampled depth p (Some d) s2)).
Proof.
  apply (memoized_failure_stops_calls_without_degree 3 Cubic_scenario.sampled
           (Cstate (Some ∅) 0)).
  reflexivity.
Defined.

End Cubic_scenario_results.

(** ** Point sampling: what is returned *)

Section Raw_point_results.
Context {V : Type}.
Variable dimension_of : V -> Z.
Variable codimension_of : V -> Z.
Variable hyperplane_section_at : nat -> V -> result V.
Variable embedding_as_hyperplane_section : V -> V -> result V.
Variable irreducible_components : V -> list V.
Variable _is_point : V -> bool.
Variable random_linear_section : V -> M V.
Variable projection_image : V -> M V.
Variable projection_inverse_image : V -> V -> result V.

Abbreviation attempts' :=
  (_raw_point_attempts hyperplane_section_at embedding_as_hyperplane_section
     irreducible_components _is_point).
Abbreviation raw_point' :=
  (_raw_point dimension_of codimension_of hyperplane_section_at
     embedding_as_hyperplane_section irreducible_components _is_point
     random_linear_section projection_image projection_inverse_image).

Lemma attempts_return_a_point (n : nat) (self : V) (w : world) (p : V)
    (w' : world) :
  attempts' n self w = (Ok p, w') -> _is_point p = true.
Proof.
  revert w. induction n as [| n IH]; intros w; [discriminate|].
  cbn [_raw_point_attempts]. unfold bind at 1.
  destruct (hyperplane_section hyperplane_section_at self w)
    as [[X | e] w1]; [|discriminate].
  destruct (filter _ (irreducible_components X)) as [| q L]; [by apply IH|].
  unfold bind at 1, of_result.
  destruct (embedding_as_hyperplane_section X q) as [p0 | e]; [|discriminate].
  unfold bind, assert, ret.
  destruct (_is_point p0) eqn:Ep; [|discriminate]. by intros [= <- <-].
Qed.

(** X22. [_raw_point] refuses a scheme of dimension at most 0 with
    [ValueError], before any random draw; and whatever it returns is a
    point: every return is guarded by [assert(p._is_point())]. *)
Theorem raw_point_returns_only_points (self : V) (w : world) :
  (dimension_of self <= 0 ->
   forall depth,
     raw_point' (S depth) self w
     = (Raise (ValueError "expected a positive-dimensional scheme"), w))
  /\ forall depth p w',
       raw_point' depth self w = (Ok p, w') ->
       _is_point p = true /\ 0 < dimension_of self.
Proof.
  split.
  - intros Hd depth. cbn [_raw_point].
    by destruct (Z.leb_spec (dimension_of self) 0); [|lia].
  - intros depth. revert self w.
    induction depth as [| depth IH]; intros self w p w'; [discriminate|].
    cbn [_raw_point].
    destruct (Z.leb_spec (dimension_of self) 0) as [|Hpos]; [discriminate|].
    destruct (1 <? dimension_of self).
    + unfold bind at 1.
      destruct (hyperplane_section hyperplane_section_at self w)
        as [[X | e] w1]; [|discriminate].
      unfold bind at 1.
      destruct (raw_point' depth X w1) as [[q | e] w2]; [|discriminate].
      unfold bind at 1, of_result.
      destruct (embedding_as_hyperplane_section X q) as [p0 | e];
        [|discriminate].
      unfold bind, assert, ret.
      destruct (_is_point p0) eqn:Ep; [|discriminate].
      by intros [= <- <-].
    + unfold bind at 1.
      assert (Hfirst : forall r w1,
        (if codimension_of self =? 0
         then _ <- random_linear_section self;; ret ()
         else ret ()) w = (r, w1) ->
        r = Ok () \/ exists e, r = Raise e).
      { intros [[] | e] w1 _; eauto. }
      destruct ((if codimension_of self =? 0
                 then _ <- random_linear_section self;; ret ()
                 else ret ()) w) as [r w1] eqn:E1.
      destruct (Hfirst r w1 eq_refl) as [-> | [e ->]]; [|discriminate].
      destruct (1 <? codimension_of self).
      * unfold bind at 1.
        destruct (projection_image self w1) as [[Y | e] w2]; [|discriminate].
        unfold bind at 1.
        destruct (raw_point' depth Y w2) as [[q | e] w3]; [|discriminate].
        unfold bind at 1, of_result.
        destruct (projection_inverse_image self q) as [p0 | e];
          [|discriminate].
        unfold bind, assert, ret.
        destruct (_is_point p0) eqn:Ep; [|discriminate].
        by intros [= <- <-].
      * intros Hrun. split; [|done].
        by apply (attempts_return_a_point 10 self w1 p w').
Qed.

End Raw_point_results.

Module Conic_scenario_results.

Lemma raw_point_returns_only_points_witness :
  (Conic_scenario.dimension_of Conic_scenario.Conic <= 0 ->
   forall depth,
     Conic_scenario._raw_point (S depth) Conic_scenario.Conic
       Conic_scenario.w0
     = (Raise (ValueError "expected a positive-dimensional scheme"),
        Conic_scenario.w0))
  /\ forall depth p w',
       Conic_scenario._raw_point depth Conic_scenario.Conic Conic_scenario.w0
       = (Ok p, w') ->
       Conic_scenario._is_point p = true
       /\ 0 < Conic_scenario.dimension_of Conic_scenario.Conic.
Proof.
  apply (raw_point_returns_only_points Conic_scenario.dimension_of
           Conic_scenario.codimension_of Conic_scenario.hyperplane_section_at
           Conic_scenario.embedding_as_hyperplane_section
           Conic_scenario.irreducible_components Conic_scenario._is_point
           Conic_scenario.random_linear_section
           Conic_scenario.projection_image
           Conic_scenario.projection_inverse_image
           Conic_scenario.Conic Conic_scenario.w0).
Defined.

(** The sections of the conic are schemes of dimension 0, which
    [_raw_point] refuses. *)
Example raw_point_refuses_a_section :
  Conic_scenario._raw_point 1 (Conic_scenario.Cut 1) Conic_scenario.w0
  = (Raise (ValueError "expected a positive-dimensional scheme"),
     Conic_scenario.w0).
Proof. vm_compute. reflexivity. Qed.

End Conic_scenario_results.

(** ** Virtual surfaces and virtual fourfolds *)

Section Virtual_properties.
Context `{D : Doubles} {DL : DoubleLaws D}.

Implicit Types S : _Virtual_projective_surface.
Implicit Types X : virtual_fourfold.

Lemma consecutive_even (x : Z) : exists m, x * (x - 1) = 2 * m.
Proof.
  destruct (Z.Even_or_Odd x) as [[k ->] | [k ->]].
  - exists (k * (2 * k - 1)). ring.
  - exists ((2 * k + 1) * k). ring.
Qed.

Lemma binomial_2 (x : Z) : 2 * binomial x 2 = x * (x - 1).
Proof.
  unfold binomial. simpl. destruct (consecutive_even x) as [m Hm].
  change (Z.of_nat 0) with 0. change (Z.of_nat 1) with 1.
  change (Z.of_nat 2) with 2.
  replace (1 * (x - 0) * (x - 1)) with (m * 2) by lia.
  rewrite Z.div_mul by done. lia.
Qed.

Lemma binomial_1 (x : Z) : binomial x 1 = x.
Proof.
  unfold binomial. simpl. change (Z.of_nat 0) with 0.
  change (Z.of_nat 1) with 1. rewrite Z.div_1_r. lia.
Qed.

Lemma Integer_of_integer (q : Q) (k : Z) :
  (q == inject_Z k)%Q -> Integer q = Ok k.
Proof.
  intros Hq. unfold Integer.
  by rewrite (Qred_complete _ _ Hq), inject_Z_Qred.
Qed.

(** The value of [_dim_homogeneous_component] when the numbers are small
    enough for the doubles to hold them. *)
Lemma dim_homogeneous_component_value S (n : Z) :
  Z.abs (_degree S) <= 2 ^ 30 ->
  Z.abs (_sectional_genus S) <= 2 ^ 30 ->
  Z.abs (_constant_coefficient_hilbert_polynomial S) <= 2 ^ 30 ->
  Z.abs n <= 2 ^ 10 ->
  Z.abs (binomial (ambient_dimension S + n) n) <= 2 ^ 50 ->
  _dim_homogeneous_component S n
  = Ok (Z.max (binomial (ambient_dimension S + n) n
               - (_degree S * binomial (n + 1) 2
                  + (1 - _sectional_genus S) * n
                  + _constant_coefficient_hilbert_polynomial S)) 0).
Proof.
  set (d := _degree S). set (g := _sectional_genus S).
  set (c := _constant_coefficient_hilbert_polynomial S).
  set (b := binomial (ambient_dimension S + n) n).
  change (2 ^ 30) with 1073741824. change (2 ^ 10) with 1024.
  change (2 ^ 50) with 1125899906842624.
  intros Hd Hg Hc Hn Hb.
  unfold _dim_homogeneous_component, hilbert_polynomial_RDF.
  cbn [RDF_coef2 RDF_coef1 RDF_coef0]. fold d g c b.
  assert (H2 : is_half_of (fmul half (of_Integer d)) (1 * d)).
  { apply fmul_exact; [apply half_exact | apply of_Integer_exact |];
      change (2 ^ 52) with 4503599627370496;
      change (2 ^ 53) with 9007199254740992; lia. }
  assert (H1 : is_half_of
                 (fsub (fadd (fmul half (of_Integer d)) (of_Integer 1))
                       (of_Integer g))
                 (1 * d + 2 * 1 - 2 * g)).
  { apply fsub_exact; [apply fadd_exact; [exact H2 | apply of_Integer_exact |]
                      | apply of_Integer_exact |];
      change (2 ^ 52) with 4503599627370496;
      change (2 ^ 53) with 9007199254740992; lia. }
  assert (H0 : is_half_of (of_Integer c) (2 * c)).
  { apply of_Integer_exact. change (2 ^ 52) with 4503599627370496. lia. }
  assert (Hn2 : n ^ 2 <= 1048576).
  { rewrite Z.pow_2_r, <- Z.abs_square.
    pose proof (Z.abs_nonneg n). nia. }
  assert (Hn0 : 0 <= n ^ 2) by (apply Z.pow_even_nonneg; by exists 1).
  assert (Hdn : Z.abs (1 * d) * n ^ 2 <= 1073741824 * 1048576).
  { apply Z.mul_le_mono_nonneg; [apply Z.abs_nonneg | lia | done | done]. }
  assert (Hqn : Z.abs (1 * d + 2 * 1 - 2 * g) * Z.abs n
                <= 3221225474 * 1024).
  { apply Z.mul_le_mono_nonneg; [apply Z.abs_nonneg | lia
                                | apply Z.abs_nonneg | done]. }
  pose proof (call_exact _ _ _ _ _ _ n H2 H1 H0) as Hcall.
  assert (Hv : is_half_of
                 (call (fmul half (of_Integer d))
                    (fsub (fadd (fmul half (of_Integer d)) (of_Integer 1))
                          (of_Integer g))
                    (of_Integer c) n)
                 (1 * d * n ^ 2 + (1 * d + 2 * 1 - 2 * g) * n + 2 * c)).
  { apply Hcall; change (2 ^ 52) with 4503599627370496;
      change (2 ^ 53) with 9007199254740992; lia. }
  assert (Hdn' : Z.abs (1 * d * n ^ 2) <= 1073741824 * 1048576).
  { rewrite Z.abs_mul, (Z.abs_eq (n ^ 2)) by done. exact Hdn. }
  assert (Hqn' : Z.abs ((1 * d + 2 * 1 - 2 * g) * n) <= 3221225474 * 1024).
  { by rewrite Z.abs_mul. }
  pose proof (binomial_2 (n + 1)) as Hbin.
  set (t := binomial (n + 1) 2) in *.
  assert (Hr : is_half_of
                 (fsub (of_Integer b)
                    (call (fmul half (of_Integer d))
                       (fsub (fadd (fmul half (of_Integer d)) (of_Integer 1))
                             (of_Integer g))
                       (of_Integer c) n))
                 (2 * (b - (d * t + (1 - g) * n + c)))).
  { replace (2 * (b - (d * t + (1 - g) * n + c)))
      with (2 * b - (1 * d * n ^ 2 + (1 * d + 2 * 1 - 2 * g) * n + 2 * c))
      by (rewrite Z.pow_2_r; nia).
    apply fsub_exact; [apply of_Integer_exact | exact Hv |];
      change (2 ^ 52) with 4503599627370496;
      change (2 ^ 53) with 9007199254740992; lia. }
  by rewrite (Integer_exact _ _ Hr).
Qed.

Lemma dim_homogeneous_component_nonneg S (n k : Z) :
  _dim_homogeneous_component S n = Ok k -> 0 <= k.
Proof.
  unfold _dim_homogeneous_component.
  destruct (Integer_of_double _) as [k0 | e]; [|discriminate].
  intros [= <-]. lia.
Qed.

(** X23. In a Sage session [_dim_homogeneous_component(n)] of a virtual
    surface computes in doubles.  When the degree, the sectional genus
    and the constant coefficient are at most [2^30] in absolute value,
    [n] at most [2^10] and the binomial coefficient at most [2^50], every
    double it meets is exact: the call does not fail and returns the
    expected number [max(binomial(N + n, n) - P(n), 0)], which is not
    negative. *)
Theorem dim_homogeneous_component_in_range S (n : Z) :
  Z.abs (_degree S) <= 2 ^ 30 ->
  Z.abs (_sectional_genus S) <= 2 ^ 30 ->
  Z.abs (_constant_coefficient_hilbert_polynomial S) <= 2 ^ 30 ->
  Z.abs n <= 2 ^ 10 ->
  Z.abs (binomial (ambient_dimension S + n) n) <= 2 ^ 50 ->
  exists k,
    _dim_homogeneous_component S n = Ok k
    /\ 0 <= k
    /\ k = Z.max (binomial (ambient_dimension S + n) n
                  - (_degree S * binomial (n + 1) 2
                     + (1 - _sectional_genus S) * n
                     + _constant_coefficient_hilbert_polynomial S)) 0.
Proof.
  intros Hd Hg Hc Hn Hb. eexists.
  split; [by apply dim_homogeneous_component_value|].
  split; [lia | reflexivity].
Qed.

Lemma square_as_binomials (i : Z) :
  i ^ 2 = binomial i 2 + binomial (i + 1) 2.
Proof.
  pose proof (binomial_2 i). pose proof (binomial_2 (i + 1)). nia.
Qed.

Lemma weighted_sums_of_binomials (i : Z) (rest : list Z) :
  weighted_sum (fun i => i ^ 2) i rest
  - weighted_sum (fun i => binomial i 2) i rest
  = weighted_sum (fun i => binomial (i + 1) 2) i rest.
Proof.
  revert i. induction rest as [| r rest IH]; intros i; simpl; [done|].
  specialize (IH (i + 1)). rewrite (square_as_binomials i). lia.
Qed.

(** X24. A virtual rational surface is built only without nodes and for
    a linear system of dimension [N >= 3]; its degree [d] and sectional
    genus [g] satisfy [d + 1 - g = N], its ambient space has dimension
    [N] unless another one is asked for, the constant coefficient of its
    Hilbert polynomial is 1, and its Euler characteristic is 3 plus the
    number of base points. *)
Theorem virtual_rational_surface_spans_its_space (v0 : Z) (rest : list Z)
    (ambient : option nat) (nodes : option Z) S :
  virtual_surface v0 rest ambient nodes = Ok S ->
  let N := linear_system_dimension v0 rest in
  nodes = None
  /\ 3 <= N
  /\ _degree S + 1 - _sectional_genus S = N
  /\ ambient_dimension S = match ambient with
                           | None => N
                           | Some a => Z.of_nat a
                           end
  /\ _constant_coefficient_hilbert_polynomial S = 1
  /\ _topological_euler_characteristic S = 3 + sum_list rest
  /\ _linear_system S = Some (v0 :: rest).
Proof.
  unfold virtual_surface, _Virtual_rational_projective_surface__init__.
  destruct nodes; [discriminate|].
  destruct (Z.ltb_spec (linear_system_dimension v0 rest) 3) as [|HN];
    [discriminate|].
  intros [= <-]. set (N := linear_system_dimension v0 rest) in *.
  cbn [_degree _sectional_genus ambient_dimension
       _constant_coefficient_hilbert_polynomial
       _topological_euler_characteristic _linear_system].
  split; [done|]. split; [done|]. split; [|done].
  unfold N, linear_system_dimension.
  pose proof (weighted_sums_of_binomials 1 rest).
  pose proof (binomial_2 (v0 - 1)). pose proof (binomial_2 (v0 + 2)).
  nia.
Qed.




(** X26. [fourfold()] on a virtual surface: a fourfold or a fivefold
    passed along is refused with [Exception], a surface outside PP^5 and
    PP^7 with [NotImplementedError]; with [check=False] every surface of
    PP^5 or PP^7 is accepted; and a fourfold that is returned holds the
    surface, has dimension 4 and as many generators as its codimension,
    and, with [check=True], its surface is expected to lie in at least
    one cubic (in PP^5), or in at least three quadrics (in PP^7). *)
Theorem fourfold_of_a_virtual_surface S (X_given V_given check : bool) :
  (X_given || V_given = true ->
   fourfold S X_given V_given check
   = Raise (Exception
       "fourfold and ambient fivefold don't have to be passed along with a virtual surface"))
  /\ (X_given || V_given = false ->
      ambient_dimension S <> 5 -> ambient_dimension S <> 7 ->
      fourfold S X_given V_given check
      = Raise (NotImplementedError
          ("Hodge-special fourfold containing a virtual surface in PP^"
           +:+ pretty (ambient_dimension S))))
  /\ (X_given || V_given = false -> check = false ->
      ambient_dimension S = 5 \/ ambient_dimension S = 7 ->
      exists X, fourfold S X_given V_given check = Ok X)
  /\ forall X,
       fourfold S X_given V_given check = Ok X ->
       _surface X = S
       /\ fourfold_dimension X = 4
       /\ Z.of_nat (length (_degrees_generators X))
          = fourfold_ambient_dimension X - fourfold_dimension X
       /\ (fourfold_ambient_dimension X = 5
           /\ fourfold_degree X = 3 /\ _degrees_generators X = [3]
           /\ (check = true ->
               exists k, _dim_homogeneous_component S 3 = Ok k /\ 0 < k)
           \/ fourfold_ambient_dimension X = 7
              /\ fourfold_degree X = 8 /\ _degrees_generators X = [2; 2; 2]
              /\ (check = true ->
                  exists k, _dim_homogeneous_component S 2 = Ok k /\ 3 <= k)).
Proof.
  unfold fourfold. split; [by intros ->|]. split.
  { intros -> H5 H7.
    destruct (Z.eqb_spec (ambient_dimension S) 5); [done|].
    by destruct (Z.eqb_spec (ambient_dimension S) 7). }
  split.
  { intros -> -> [H5 | H7].
    - rewrite H5. cbn [Z.eqb Pos.eqb].
      unfold _Virtual_cubic_fourfold__init__. rewrite H5. by eexists.
    - rewrite H7. cbn [Z.eqb Pos.eqb].
      unfold _Virtual_intersection_of_three_quadrics_in_P7__init__.
      rewrite H7. by eexists. }
  intros X. destruct (X_given || V_given); [discriminate|].
  destruct (Z.eqb_spec (ambient_dimension S) 5) as [H5 | H5].
  - unfold _Virtual_cubic_fourfold__init__. rewrite H5.
    cbn [Z.eqb Pos.eqb negb].
    destruct check.
    + destruct (_dim_homogeneous_component S 3) as [k | err] eqn:Ek;
        [|discriminate].
      pose proof (dim_homogeneous_component_nonneg S 3 k Ek) as Hv.
      cbn [andb]. destruct (Z.eqb_spec k 0); [discriminate|].
      intros [= <-]. repeat split. left. repeat split.
      intros _. exists k. split; [done | lia].
    + cbn [andb]. intros [= <-]. repeat split. left. by repeat split.
  - destruct (Z.eqb_spec (ambient_dimension S) 7) as [H7 | H7];
      [|discriminate].
    unfold _Virtual_intersection_of_three_quadrics_in_P7__init__.
    rewrite H7. cbn [Z.eqb Pos.eqb negb].
    destruct check.
    + destruct (_dim_homogeneous_component S 2) as [k | err] eqn:Ek;
        [|discriminate].
      cbn [andb]. destruct (Z.ltb_spec k 3); [discriminate|].
      intros [= <-]. repeat split. right. repeat split.
      intros _. by exists k.
    + cbn [andb]. intros [= <-]. repeat split. right. by repeat split.
Qed.

End Virtual_properties.

(** The doubles of [Binary64] are as assumed. *)
Module Binary64_facts.
Import Binary64.

(** A double is [k / 2] when twice its numerator is [k * 2^scale]. *)
Lemma is_half_of_number (x : number) (k : Z) :
  is_half_of x k <-> 2 * numerator x = k * 2 ^ Z.of_nat (scale x).
Proof.
  unfold is_half_of. simpl. unfold ratio.
  assert (Hp : 0 < 2 ^ Z.of_nat (scale x)) by (apply Z.pow_pos_nonneg; lia).
  split.
  - intros (q & [= <-] & Hq). unfold Qeq in Hq. simpl in Hq.
    rewrite Z2Pos.id in Hq by done. lia.
  - intros Hk. eexists. split; [reflexivity|]. unfold Qeq. simpl.
    rewrite Z2Pos.id by done. lia.
Qed.

(** Rounding keeps a number that has at most 53 significant bits. *)
Lemma round_half (m : Z) (s : nat) (k : Z) :
  2 * m = k * 2 ^ Z.of_nat s -> Z.abs k < 2 ^ 53 ->
  is_half_of (round m s) k.
Proof.
  intros Hm Hk. unfold round.
  destruct (Z.ltb_spec 0 (Z.log2 (Z.abs m) + 1 - 53)) as [Hj | Hj];
    [|by apply is_half_of_number].
  apply is_half_of_number. cbn [numerator scale].
  set (j := Z.log2 (Z.abs m) + 1 - 53) in *.
  assert (Hm0 : 0 < Z.abs m).
  { destruct (Z.eq_dec (Z.abs m) 0) as [E|]; [|lia].
    unfold j in Hj. rewrite E in Hj. simpl in Hj. lia. }
  assert (Hk0 : 0 < Z.abs k).
  { destruct (Z.eq_dec k 0) as [-> |]; lia. }
  (* the scale is at least 2, and [m = k * 2^(s - 1)] *)
  pose proof (Z.log2_spec (Z.abs m) Hm0) as [Hlo _].
  assert (Hbig : 2 ^ 53 <= Z.abs m).
  { etransitivity; [|exact Hlo]. apply Z.pow_le_mono_r; lia. }
  destruct s as [| s].
  { simpl in Hm. lia. }
  assert (Hmk : m = k * 2 ^ Z.of_nat s).
  { rewrite Nat2Z.inj_succ, Z.pow_succ_r in Hm by lia. lia. }
  assert (Hjs : j <= Z.of_nat s).
  { unfold j. rewrite Hmk, Z.abs_mul, (Z.abs_eq (2 ^ _))
      by (apply Z.pow_nonneg; lia).
    rewrite Z.log2_mul_pow2 by lia.
    assert (Z.log2 (Z.abs k) < 53) by (apply Z.log2_lt_pow2; lia). lia. }
  assert (Hdiv : m = (k * 2 ^ (Z.of_nat s - j)) * 2 ^ j).
  { rewrite Hmk, <- Z.mul_assoc, <- Z.pow_add_r by lia. do 2 f_equal. lia. }
  assert (Hpj : 0 < 2 ^ j) by (apply Z.pow_pos_nonneg; lia).
  assert (Hne : nearest_even m j = k * 2 ^ (Z.of_nat s - j)).
  { unfold nearest_even.
    replace (m mod 2 ^ j) with 0
      by (rewrite Hdiv; symmetry; apply Z.mod_mul; lia).
    replace (m / 2 ^ j) with (k * 2 ^ (Z.of_nat s - j))
      by (rewrite Hdiv at 1; symmetry; apply Z.div_mul; lia).
    assert (0 < 2 ^ (j - 1)) by (apply Z.pow_pos_nonneg; lia).
    by destruct (Z.ltb_spec 0 (2 ^ (j - 1))); [|lia]. }
  rewrite Hne, <- Hdiv. exact Hm.
Qed.

Lemma binary64_laws : DoubleLaws doubles.
Proof.
  assert (Hadd : forall x y a b,
            is_half_of x a -> is_half_of y b -> Z.abs (a + b) < 2 ^ 53 ->
            is_half_of (add x y) (a + b)).
  { intros x y a b Hx%is_half_of_number Hy%is_half_of_number Hab.
    unfold add. apply round_half; [|done].
    set (s := Nat.max (scale x) (scale y)).
    assert (Ex : 2 ^ Z.of_nat s
                 = 2 ^ Z.of_nat (scale x) * 2 ^ Z.of_nat (s - scale x))
      by (rewrite <- Z.pow_add_r by lia; f_equal; lia).
    assert (Ey : 2 ^ Z.of_nat s
                 = 2 ^ Z.of_nat (scale y) * 2 ^ Z.of_nat (s - scale y))
      by (rewrite <- Z.pow_add_r by lia; f_equal; lia).
    transitivity (a * 2 ^ Z.of_nat (scale x) * 2 ^ Z.of_nat (s - scale x)
                  + b * 2 ^ Z.of_nat (scale y) * 2 ^ Z.of_nat (s - scale y)).
    - rewrite <- Hx, <- Hy. ring.
    - rewrite <- !Z.mul_assoc, <- Ex, <- Ey. ring. }
  assert (Hmul : forall x y a z,
            is_half_of x a -> is_half_of y (2 * z) ->
            Z.abs (a * z) < 2 ^ 53 -> is_half_of (mul x y) (a * z)).
  { intros x y a z Hx%is_half_of_number Hy%is_half_of_number Haz.
    unfold mul. apply round_half; [|done].
    rewrite Nat2Z.inj_add, Z.pow_add_r by lia.
    rewrite Z.mul_assoc, Hx.
    assert (numerator y = z * 2 ^ Z.of_nat (scale y)) as -> by lia. lia. }
  assert (Hof : forall z, Z.abs z < 2 ^ 52 -> is_half_of (of_Z z) (2 * z)).
  { intros z Hz. unfold of_Z. apply round_half; [simpl; lia|].
    change (2 ^ 53) with (2 * 2 ^ 52). lia. }
  split.
  - apply is_half_of_number. reflexivity.
  - exact Hof.
  - exact Hadd.
  - intros x y a b Hx Hy Hab. simpl. unfold sub.
    replace (a - b) with (a + - b) in * by lia.
    apply Hadd; [done | | done].
    apply is_half_of_number in Hy. apply is_half_of_number.
    cbn [numerator scale]. lia.
  - exact Hmul.
  - intros a2 a1 a0 p q r n H2 H1 H0 Hn Hb. simpl. unfold value_at.
    pose proof (Z.abs_nonneg p). pose proof (Z.abs_nonneg q).
    pose proof (Z.abs_nonneg r). pose proof (Z.abs_nonneg n).
    assert (Hn2 : 0 <= n ^ 2) by (apply Z.pow_even_nonneg; by exists 1).
    assert (Hnn : Z.abs n <= n ^ 2).
    { rewrite Z.pow_2_r, <- Z.abs_square. nia. }
    assert (Hpn : Z.abs (p * n ^ 2) = Z.abs p * n ^ 2)
      by (rewrite Z.abs_mul, (Z.abs_eq (n ^ 2)); done).
    assert (Hqn : Z.abs (q * n) = Z.abs q * Z.abs n) by apply Z.abs_mul.
    assert (0 <= Z.abs p * n ^ 2) by nia.
    assert (0 <= Z.abs q * Z.abs n) by nia.
    apply Hadd; [apply Hadd | done |].
    + apply Hmul; [done | apply Hof; lia | lia].
    + apply Hmul; [done | apply Hof; lia | lia].
    + lia.
    + lia.
  - intros x k Hx%is_half_of_number. simpl. unfold to_Integer.
    assert (Hp : 0 < 2 ^ Z.of_nat (scale x))
      by (apply Z.pow_pos_nonneg; lia).
    assert (numerator x = k * 2 ^ Z.of_nat (scale x)) as -> by lia.
    rewrite Z.mod_mul, Z.div_mul by lia. reflexivity.
Qed.

End Binary64_facts.

(** The docstrings of the module, computed by the model with the doubles
    of [Binary64]. *)
Module Docstring_surfaces_facts.
Import Docstring_surfaces.

(** "virtual rational surface in PP^5 of degree 8 and sectional genus 3
    cut out by at least 13 cubic hypersurface(s)", inside a "Cubic
    fourfold of discriminant 14 = 3*26-8^2" *)
Example surface_4_8_in_PP5 :
  surface_4_8 = Ok S_4_8
  /\ _dim_homogeneous_component (D := Binary64.doubles) S_4_8 1 = Ok 0
  /\ _dim_homogeneous_component (D := Binary64.doubles) S_4_8 2 = Ok 0
  /\ _dim_homogeneous_component (D := Binary64.doubles) S_4_8 3 = Ok 13
  /\ _lattice_intersection_matrix (Virtual_fourfold 5 4 3 [3] S_4_8)
     = Ok (Matrix2 3 8 8 26)
  /\ discriminant (Virtual_fourfold 5 4 3 [3] S_4_8) = Ok 14.
Proof. repeat split; vm_compute; reflexivity. Qed.

(** "Cubic fourfold of discriminant 38 = 3*46-10^2" *)
Example surface_10_0_0_10_in_PP5 :
  surface_10_0_0_10 = Ok S_10_0_0_10
  /\ _dim_homogeneous_component (D := Binary64.doubles) S_10_0_0_10 3 = Ok 10
  /\ fourfold (D := Binary64.doubles) S_10_0_0_10 false false true
     = Ok (Virtual_fourfold 5 4 3 [3] S_10_0_0_10)
  /\ discriminant (Virtual_fourfold 5 4 3 [3] S_10_0_0_10) = Ok 38.
Proof. repeat split; vm_compute; reflexivity. Qed.

(** "Complete intersection of 3 quadrics in PP^7 of discriminant
    47 = 8*16-9^2" *)
Example surface_5_7_0_1_in_PP7 :
  surface_5_7_0_1 = Ok S_5_7_0_1
  /\ _dim_homogeneous_component (D := Binary64.doubles) S_5_7_0_1 2 = Ok 12
  /\ fourfold (D := Binary64.doubles) S_5_7_0_1 false false true
     = Ok (Virtual_fourfold 7 4 8 [2; 2; 2] S_5_7_0_1)
  /\ _lattice_intersection_matrix (Virtual_fourfold 7 4 8 [2; 2; 2] S_5_7_0_1)
     = Ok (Matrix2 8 9 9 16)
  /\ discriminant (Virtual_fourfold 7 4 8 [2; 2; 2] S_5_7_0_1) = Ok 47.
Proof. repeat split; vm_compute; reflexivity. Qed.

Example surface_of_lines_is_refused :
  virtual_surface 1 [] None None
  = Raise (ValueError
      "expected ambient projective space of dimension at least 3, got 2").
Proof. vm_compute. reflexivity. Qed.

Lemma virtual_rational_surface_spans_its_space_witness :
  let N := linear_system_dimension 10 [0; 0; 10] in
  None = None (A := Z)
  /\ 3 <= N
  /\ _degree S_10_0_0_10 + 1 - _sectional_genus S_10_0_0_10 = N
  /\ ambient_dimension S_10_0_0_10 = N
  /\ _constant_coefficient_hilbert_polynomial S_10_0_0_10 = 1
  /\ _topological_euler_characteristic S_10_0_0_10
     = 3 + sum_list [0; 0; 10]
  /\ _linear_system S_10_0_0_10 = Some [10; 0; 0; 10].
Proof.
  apply (virtual_rational_surface_spans_its_space 10 [0; 0; 10] None None
           S_10_0_0_10).
  vm_compute. reflexivity.
Defined.

Lemma dim_homogeneous_component_in_range_witness :
  exists k,
    _dim_homogeneous_component (D := Binary64.doubles) S_4_8 3 = Ok k
    /\ 0 <= k
    /\ k = Z.max (binomial (ambient_dimension S_4_8 + 3) 3
                  - (_degree S_4_8 * binomial (3 + 1) 2
                     + (1 - _sectional_genus S_4_8) * 3
                     + _constant_coefficient_hilbert_polynomial S_4_8)) 0.
Proof.
  apply (dim_homogeneous_component_in_range
           (DL := Binary64_facts.binary64_laws) S_4_8 3); by vm_compute.
Defined.

(** Beyond 53 bits the doubles round.  For this surface and [n = 10000]
    the binomial coefficient is 834584041854189501 and the polynomial has
    the value 400020001, so the expected number is 834584041454169500;
    the difference computed in doubles is another one. *)
Example doubles_round_beyond_53_bits :
  let P := hilbert_polynomial_RDF (D := Binary64.doubles) S_4_8 in
  Integer_of_double (call (RDF_coef2 P) (RDF_coef1 P) (RDF_coef0 P) 10000)
  = Ok 400020001
  /\ Integer_of_double
       (fsub (of_Integer 834584041854189501)
             (call (RDF_coef2 P) (RDF_coef1 P) (RDF_coef0 P) 10000))
     = Ok 834584041454169472.
Proof. split; vm_compute; reflexivity. Qed.


End Docstring_surfaces_facts.

(** ** The sectional genus *)

(** X27. [sectional_genus()] returns the cached value when there is one;
    otherwise it raises [ValueError] for a scheme of dimension less than
    1, returns [g] for a curve with Hilbert polynomial [d t + 1 - g], and
    returns [g] for a surface whose Hilbert polynomial over the rationals
    is [(1/2) d t^2 + ((1/2) d + 1 - g) t + c]. *)
Theorem sectional_genus_of_a_hilbert_polynomial (d g : Z) (c : Q)
    (dimension : Z) (P : Z -> Q) :
  (forall g0, sectional_genus (Some g0) dimension P = Ok g0)
  /\ (dimension < 1 ->
      sectional_genus None dimension P
      = Raise (ValueError "expected a positive dimensional scheme"))
  /\ sectional_genus None 1
       (fun t => inject_Z d * inject_Z t + 1 - inject_Z g)%Q = Ok g
  /\ sectional_genus None 2
       (evaluate (Quadratic ((1 # 2) * inject_Z d)
                            ((1 # 2) * inject_Z d + 1 - inject_Z g) c))%Q
     = Ok g.
Proof.
  split; [done|]. split; [|split].
  - intros Hd. unfold sectional_genus.
    by destruct (Z.leb_spec 1 dimension); [lia|].
  - unfold sectional_genus. simpl. apply Integer_of_integer.
    unfold Qeq, Qminus, Qplus, Qmult, Qopp, inject_Z. simpl. lia.
  - unfold sectional_genus. simpl. apply Integer_of_integer.
    unfold evaluate. cbn [coef2 coef1 coef0].
    change (inject_Z 0) with 0%Q. change (inject_Z (0 - 1)) with (- (1))%Q.
    ring.
Qed.

(** ** Hodge-special fourfolds *)

Section Special_fourfold_properties.
Context `{B : Backend}.
Variable Jacobian : space -> list poly -> list poly.

Implicit Types Sf X Y : Embedded_projective_variety.

Lemma dimension_cached X :
  _dimension (snd (dimension X)) = Some (fst (dimension X))
  /\ vid (snd (dimension X)) = vid X
  /\ ambient_space (snd (dimension X)) = ambient_space X
  /\ defining_polynomials (snd (dimension X)) = defining_polynomials X.
Proof.
  unfold dimension. by destruct (_dimension X) as [d|] eqn:E.
Qed.

(** X28. What the constructor of a Hodge-special fourfold has checked
    when it returns: the fourfold is a new object with the space and
    polynomials of [X] and dimension 4; the surface it holds is the
    object [S], of dimension 2 and contained in [X]; an ambient fivefold,
    when there is one, has dimension 5 and contains [X]; and there is
    none, so that [ambient_fivefold()] raises, exactly when none was
    given and the ambient space is not of dimension 5. *)
Theorem special_fourfold_constructor_checks Sf X
    (V : option Embedded_projective_variety) (check : bool) (w : world)
    (F : Hodge_special_fourfold) (w' : world) :
  Hodge_special_fourfold__init__ Jacobian Sf X V check w = (Ok F, w') ->
  let self := fourfold_variety F in
  vid self = Fresh (next_id w)
  /\ ambient_space self = ambient_space X
  /\ defining_polynomials self = defining_polynomials X
  /\ dim self = 4
  /\ vid (surface_of_fourfold F) = vid Sf
  /\ dim (surface_of_fourfold F) = 2
  /\ is_subset (surface_of_fourfold F) X = true
  /\ (forall V', _ambient_fivefold F = Some V' ->
                 dim V' = 5 /\ is_subset X V' = true)
  /\ (ambient_fivefold F = Raise (Exception "cannot find ambient fivefold")
      <-> V = None /\ dim (ambient self) <> 5).
Proof.
  unfold Hodge_special_fourfold__init__, bind at 1, __init__ at 1.
  destruct (negb (base_ring_in_fields (ambient_space X))); [discriminate|].
  unfold bind at 1, alloc, ret at 1.
  set (self0 := Variety (Fresh (next_id w)) (ambient_space X)
                  (defining_polynomials X) None None ∅).
  destruct (dimension_cached self0) as (Hc0 & Hv0 & Hs0 & Hp0).
  destruct (dimension self0) as [d self1]. cbn [fst snd] in *.
  destruct (Z.eqb_spec d 4) as [-> | ?]; [|discriminate]. cbn [negb].
  destruct (dimension_cached Sf) as (HcS & HvS & HsS & HpS).
  destruct (dimension Sf) as [dS S1]. cbn [fst snd] in *.
  destruct (Z.eqb_spec dS 2) as [-> | ?]; [|discriminate]. cbn [negb].
  destruct (is_subset S1 X) eqn:Esub; [|discriminate]. cbn [negb].
  assert (Hdim : forall Y d0, _dimension Y = Some d0 -> dim Y = d0).
  { intros Y d0 HY. unfold dim, dimension. by rewrite HY. }
  set (V0 := match V with
             | Some V1 => Some V1
             | None => if dim (ambient self1) =? 5
                       then Some (ambient self1) else None
             end).
  assert (HV0 : V0 = None <-> V = None /\ dim (ambient self1) <> 5).
  { unfold V0. destruct V as [V1|].
    - split; [discriminate | by intros [? _]].
    - destruct (Z.eqb_spec (dim (ambient self1)) 5); split; try done.
      by intros [_ ?]. }
  clearbody V0. unfold bind at 1.
  assert (Hfin : forall (V2 : option Embedded_projective_variety) w2,
    (V2 = None <-> V0 = None) ->
    (forall V', V2 = Some V' -> dim V' = 5 /\ is_subset X V' = true) ->
    (_ <- (if check
           then Z <- singular_locus Jacobian self1;;
                (if 0 <=? dim Z
                 then raise (ValueError "the fourfold is not smooth")
                 else ret ())
           else ret ());;
     ret (Special_fourfold self1 V2 S1)) w2 = (Ok F, w') ->
    vid (fourfold_variety F) = Fresh (next_id w)
    /\ ambient_space (fourfold_variety F) = ambient_space X
    /\ defining_polynomials (fourfold_variety F) = defining_polynomials X
    /\ dim (fourfold_variety F) = 4
    /\ vid (surface_of_fourfold F) = vid Sf
    /\ dim (surface_of_fourfold F) = 2
    /\ is_subset (surface_of_fourfold F) X = true
    /\ (forall V', _ambient_fivefold F = Some V' ->
                   dim V' = 5 /\ is_subset X V' = true)
    /\ (ambient_fivefold F = Raise (Exception "cannot find ambient fivefold")
        <-> V = None /\ dim (ambient (fourfold_variety F)) <> 5)).
  { intros V2 w2 HV2 HV2' Hrun.
    assert (F = Special_fourfold self1 V2 S1) as ->.
    { unfold bind in Hrun. destruct check.
      - destruct (singular_locus Jacobian self1 w2) as [[Z | e] w3];
          [|discriminate].
        destruct (0 <=? dim Z); [discriminate|].
        unfold ret in Hrun. congruence.
      - unfold ret in Hrun. congruence. }
    cbn [fourfold_variety surface_of_fourfold _ambient_fivefold].
    split; [done|]. split; [done|]. split; [done|].
    split; [by apply Hdim|]. split; [done|]. split; [by apply Hdim|].
    split; [done|]. split; [done|].
    unfold ambient_fivefold. cbn [_ambient_fivefold].
    rewrite <- HV0, <- HV2. destruct V2; split; done. }
  destruct V0 as [V1|].
  - destruct (dimension_cached V1) as (HcV & HvV & HsV & HpV).
    destruct (dimension V1) as [dV V1']. cbn [fst snd] in *.
    destruct (Z.eqb_spec dV 5) as [-> | ?]; [|discriminate]. cbn [negb].
    destruct (is_subset X V1') eqn:EsubV; [|discriminate]. cbn [negb].
    unfold bind at 1.
    match goal with
    | |- context [(if check then ?a else ?b) ?ww] =>
        destruct ((if check then a else b) ww) as [[[] | e] w2]
    end; [|discriminate].
    unfold ret at 1. apply Hfin; [by split|].
    intros V' [= <-]. split; [by apply Hdim | done].
  - unfold ret at 1. apply Hfin; [done|]. intros V' [=].
Qed.

Lemma singular_locus_dim X (w0 : world) (Z : Embedded_projective_variety)
    (w1 : world) :
  singular_locus Jacobian X w0 = (Ok Z, w1) ->
  dim Z = Z.max (scheme_dimension (ambient_space X)
                   (defining_ideal
                      (Variety (Fresh 0) (ambient_space X)
                         (_minbase (ambient_space X)
                            (Jacobian (ambient_space X)
                               (defining_polynomials X))) None None ∅)))
                (-1).
Proof.
  unfold singular_locus, __init__.
  destruct (negb (base_ring_in_fields (ambient_space X))); [discriminate|].
  unfold bind, alloc, ret. by intros [= <- <-].
Qed.

(** X29. A fourfold that the constructor returns with [check=True] is
    smooth, and so is its ambient fivefold when it has one: their
    singular loci, whenever computed, have negative dimension. *)
Theorem special_fourfold_is_smooth Sf X
    (V : option Embedded_projective_variety) (w : world)
    (F : Hodge_special_fourfold) (w' : world) :
  Hodge_special_fourfold__init__ Jacobian Sf X V true w = (Ok F, w') ->
  (forall w0 Z w1,
     singular_locus Jacobian (fourfold_variety F) w0 = (Ok Z, w1) ->
     dim Z < 0)
  /\ forall V', _ambient_fivefold F = Some V' ->
       forall w0 Z w1,
         singular_locus Jacobian V' w0 = (Ok Z, w1) -> dim Z < 0.
Proof.
  unfold Hodge_special_fourfold__init__, bind at 1, __init__ at 1.
  destruct (negb (base_ring_in_fields (ambient_space X))); [discriminate|].
  unfold bind at 1, alloc, ret at 1.
  destruct (dimension _) as [d self1].
  destruct (negb (d =? 4)); [discriminate|].
  destruct (dimension Sf) as [dS S1].
  destruct (negb (dS =? 2)); [discriminate|].
  destruct (negb (is_subset S1 X)); [discriminate|].
  set (V0 := match V with
             | Some V1 => Some V1
             | None => if dim (ambient self1) =? 5
                       then Some (ambient self1) else None
             end).
  clearbody V0. unfold bind at 1.
  assert (Hcheck : forall Y w2 w3,
    (Z <- singular_locus Jacobian Y;;
     (if 0 <=? dim Z
      then raise (ValueError "the ambient fivefold is not smooth")
      else ret ())) w2 = (Ok (), w3)
    \/ (Z <- singular_locus Jacobian Y;;
        (if 0 <=? dim Z
         then raise (ValueError "the fourfold is not smooth")
         else ret ())) w2 = (Ok (), w3) ->
    forall w0 Z w1, singular_locus Jacobian Y w0 = (Ok Z, w1) -> dim Z < 0).
  { intros Y w2 w3 Hrun w0 Z w1 HZ.
    rewrite (singular_locus_dim Y w0 Z w1 HZ).
    unfold bind in Hrun.
    destruct (singular_locus Jacobian Y w2) as [[Z2 | e] w4] eqn:E2;
      [|by destruct Hrun].
    rewrite <- (singular_locus_dim Y w2 Z2 w4 E2).
    destruct (Z.leb_spec 0 (dim Z2)); [by destruct Hrun | done]. }
  assert (Hfin : forall (V2 : option Embedded_projective_variety) w2,
    (forall V', V2 = Some V' ->
       forall w0 Z w1, singular_locus Jacobian V' w0 = (Ok Z, w1) ->
                       dim Z < 0) ->
    (_ <- (Z <- singular_locus Jacobian self1;;
           (if 0 <=? dim Z
            then raise (ValueError "the fourfold is not smooth")
            else ret ()));;
     ret (Special_fourfold self1 V2 S1)) w2 = (Ok F, w') ->
    (forall w0 Z w1,
       singular_locus Jacobian (fourfold_variety F) w0 = (Ok Z, w1) ->
       dim Z < 0)
    /\ forall V', _ambient_fivefold F = Some V' ->
         forall w0 Z w1,
           singular_locus Jacobian V' w0 = (Ok Z, w1) -> dim Z < 0).
  { intros V2 w2 HV2. unfold bind at 1.
    destruct ((Z <- singular_locus Jacobian self1;;
               (if 0 <=? dim Z
                then raise (ValueError "the fourfold is not smooth")
                else ret ())) w2) as [[[] | e] w3] eqn:E3; [|discriminate].
    unfold ret. intros [= <- <-].
    cbn [fourfold_variety _ambient_fivefold]. split; [|done].
    apply (Hcheck self1 w2 w3). by right. }
  destruct V0 as [V1|].
  - destruct (dimension V1) as [dV V1'].
    destruct (negb (dV =? 5)); [discriminate|].
    destruct (negb (is_subset X V1')); [discriminate|].
    unfold bind at 1.
    destruct (bind (singular_locus Jacobian V1') _
                (World (S (next_id w)) (rng_pos w)))
      as [[[] | e] w2] eqn:Ecv; [|discriminate].
    unfold ret at 1. apply Hfin. intros V' [= <-].
    eapply Hcheck. left. exact Ecv.
  - unfold ret at 1. apply Hfin. intros V' [=].
Qed.

End Special_fourfold_properties.

Module Coordinate_subspaces_facts.
Import Coordinate_subspaces.

(** The hyperplane with the plane in it is accepted, and its ambient
    fivefold is the projective space. *)
Example the_hyperplane_is_a_special_fourfold :
  exists F w',
    Hodge_special_fourfold__init__ (B := backend) Jacobian the_plane the_hyperplane None
      true w2 = (Ok F, w')
    /\ defining_polynomials (fourfold_variety F) = [Var 0]
    /\ fmap defining_polynomials (_ambient_fivefold F) = Some [].
Proof. eexists _, _. repeat split; vm_compute; reflexivity. Qed.

(** The plane is not a fourfold. *)
Example the_plane_is_not_a_fourfold :
  fst (Hodge_special_fourfold__init__ (B := backend) Jacobian the_plane the_plane None
         true w2)
  = Raise (ValueError "expected a fourfold").
Proof. vm_compute. reflexivity. Qed.

Lemma special_fourfold_constructor_checks_witness :
  let F := match fst (Hodge_special_fourfold__init__ (B := backend) Jacobian the_plane
                        the_hyperplane None true w2) with
           | Ok F => F
           | Raise _ => Special_fourfold (B := backend) the_plane None the_plane
           end in
  let self := fourfold_variety F in
  vid self = Fresh (next_id w2)
  /\ ambient_space self = ambient_space the_hyperplane
  /\ defining_polynomials self = defining_polynomials the_hyperplane
  /\ dim self = 4
  /\ vid (surface_of_fourfold F) = vid the_plane
  /\ dim (surface_of_fourfold F) = 2
  /\ is_subset (surface_of_fourfold F) the_hyperplane = true
  /\ (forall V', _ambient_fivefold F = Some V' ->
                 dim V' = 5 /\ is_subset the_hyperplane V' = true)
  /\ (ambient_fivefold F = Raise (Exception "cannot find ambient fivefold")
      <-> None = None (A := @Embedded_projective_variety backend)
          /\ dim (ambient self) <> 5).
Proof.
  apply (special_fourfold_constructor_checks (B := backend) Jacobian
           the_plane the_hyperplane None true w2 _
           (snd (Hodge_special_fourfold__init__ (B := backend) Jacobian the_plane
                   the_hyperplane None true w2))).
  vm_compute. reflexivity.
Defined.

Lemma special_fourfold_is_smooth_witness :
  let F := match fst (Hodge_special_fourfold__init__ (B := backend) Jacobian the_plane
                        the_hyperplane None true w2) with
           | Ok F => F
           | Raise _ => Special_fourfold (B := backend) the_plane None the_plane
           end in
  (forall w0 Z w1,
     singular_locus (B := backend) Jacobian (fourfold_variety F) w0 = (Ok Z, w1) ->
     dim Z < 0)
  /\ forall V', _ambient_fivefold F = Some V' ->
       forall w0 Z w1,
         singular_locus (B := backend) Jacobian V' w0 = (Ok Z, w1) -> dim Z < 0.
Proof.
  apply (special_fourfold_is_smooth (B := backend) Jacobian
           the_plane the_hyperplane None w2 _
           (snd (Hodge_special_fourfold__init__ (B := backend) Jacobian
                   the_plane the_hyperplane None true w2))).
  vm_compute. reflexivity.
Defined.

End Coordinate_subspaces_facts.

Section Singular_locus_properties.
Context `{B : Backend} {L : BackendLaws B}.
Variable Jacobian : space -> list poly -> list poly.
(** Sage's Jacobian ideal is generated by the defining polynomials and
    the minors of the Jacobian matrix. *)
Hypothesis Jacobian_contains : forall R ps g,
  ideal_mem R g ps = true -> ideal_mem R g (Jacobian R ps) = true.

(** X30. The singular locus of a variety is a subset of the variety. *)
Theorem singular_locus_is_subset (X : Embedded_projective_variety)
    (w : world) :
  object_of w X ->
  exists Z w',
    singular_locus Jacobian X w = (Ok Z, w') /\ is_subset Z X = true.
Proof.
  intros (HR & Hlt & _). eexists _, _.
  split; [unfold singular_locus; by apply init_ok|].
  rewrite is_subset_new by done. apply forallb_forall. intros g Hg.
  rewrite minbase_mem. apply Jacobian_contains.
  rewrite <- (mem_defining_ideal (vid X) (ambient_space X)
                (defining_polynomials X) None None ∅).
  by apply gens_mem.
Qed.

End Singular_locus_properties.

Module P0_singular_loci_facts.
Import P0_varieties.

Lemma singular_locus_is_subset_witness :
  exists Z w',
    singular_locus (B := P0.backend) P0_singular_loci.Jacobian
      cut_by_x0_squared w4 = (Ok Z, w')
    /\ is_subset Z cut_by_x0_squared = true.
Proof.
  apply (singular_locus_is_subset (L := P0_facts.laws)
           P0_singular_loci.Jacobian).
  - intros R ps g. unfold P0_singular_loci.Jacobian. simpl.
    unfold P0.mem. rewrite existsb_app.
    intros [-> | ->]%orb_true_iff; [done|].
    by rewrite orb_true_r.
  - split; [reflexivity | split; [simpl; lia | split; intros ? [=]]].
Defined.

End P0_singular_loci_facts.
